(** * tink-go: multi-key dispatchers, AES-GCM full AEAD, envelope and
      streaming codecs

    A shallow embedding of the parts of tink-go that the specification
    talks about, and the properties of the specification stated over it.

    Conventions.
    - A Go [[]byte] is a [list Byte.byte]; [len] is [length]; the slice
      expressions [b[:n]] and [b[n:]] are [take n b] and [drop n b] where the
      source has established [n <= len(b)], and the checked [slice] below
      where a bound could be violated.
    - A Go [(T, error)] pair is a [result T]; a run-time panic (nil
      dereference, slice bounds out of range) is the third constructor.
    - A Go [error] is identified with its message, except in package [jwt],
      whose code compares errors with a sentinel by identity.
    - Calls on collaborators (the primitives of the entries, the monitoring
      loggers, the block cipher) are recorded in a trace that is returned
      next to the result, in the order in which the code performs them. *)

From Stdlib Require Import ZArith List Lia.
From Stdlib.Strings Require Import Byte.
From stdpp Require Import base option list countable gmap strings pretty.

Open Scope string_scope.
Open Scope list_scope.

(** ** Go values *)

Module Go.

Abbreviation bytes := (list Byte.byte).

#[global] Instance byte_eq_dec : EqDecision Byte.byte := Byte.byte_eq_dec.

#[global] Instance byte_countable : Countable Byte.byte :=
  inj_countable Byte.to_N Byte.of_N Byte.of_to_N.

Definition error := string.

(** The outcome of a call: a value, an error of type [E], or a panic. *)
Inductive result_of (E A : Type) : Type :=
| Ok (a : A)
| Err (e : E)
| Panic.

Arguments Ok {E A} a.
Arguments Err {E A} e.
Arguments Panic {E A}.

Abbreviation result := (result_of error).

Definition is_Err {E A} (r : result_of E A) : bool :=
  match r with Err _ => true | _ => false end.

(** [b[lo:hi]] with Go's run-time check [lo <= hi <= len(b)]; [None] is the
    "slice bounds out of range" panic. *)
Definition slice (b : bytes) (lo hi : nat) : option bytes :=
  if decide (lo <= hi <= length b) then Some (take (hi - lo) (drop lo b))
  else None.

(** The low eight bits of [z] as a byte. *)
Definition byte_of_Z (z : Z) : Byte.byte :=
  default Byte.x00 (Byte.of_N (Z.to_N (z mod 256))).

Definition Z_of_byte (b : Byte.byte) : Z := Z.of_N (Byte.to_N b).

(** [binary.BigEndian.PutUint32] and [binary.BigEndian.Uint32]. *)
Definition PutUint32 (v : Z) : bytes :=
  [ byte_of_Z (Z.shiftr v 24); byte_of_Z (Z.shiftr v 16);
    byte_of_Z (Z.shiftr v 8); byte_of_Z v ].

Definition Uint32 (b : bytes) : option Z :=
  match b with
  | b0 :: b1 :: b2 :: b3 :: _ =>
      Some (Z.lor (Z.shiftl (Z_of_byte b0) 24)
           (Z.lor (Z.shiftl (Z_of_byte b1) 16)
           (Z.lor (Z.shiftl (Z_of_byte b2) 8) (Z_of_byte b3))))
  | _ => None
  end.

End Go.

Import Go.

(** ** Key entries and primitive sets

  The packages [cryptofmt] and [primitiveset] are collaborators of the
  dispatchers; their declarations are taken from section 3 and 4.1-4.2 of
  the specification. *)

Module tinkpb.

Inductive OutputPrefixType : Type :=
| UNKNOWN_PREFIX
| TINK
| LEGACY
| RAW
| CRUNCHY.

#[global] Instance OutputPrefixType_eq_dec : EqDecision OutputPrefixType.
Proof. solve_decision. Defined.

End tinkpb.

Module cryptofmt.

Import tinkpb.

(** Modelled from the spec: the constant [cryptofmt.NonRawPrefixSize],
    "the fixed prefix length (5 bytes)". *)
Definition NonRawPrefixSize : nat := 5.

Definition TinkStartByte : Byte.byte := Byte.x01.
Definition LegacyStartByte : Byte.byte := Byte.x00.

(** Modelled from the spec: [cryptofmt.OutputPrefix], section 4.1:
    TINK is [0x01 || bigEndian32(keyId)], LEGACY and CRUNCHY are
    [0x00 || bigEndian32(keyId)], RAW is empty, anything else fails. *)
Definition OutputPrefix (t : OutputPrefixType) (keyID : Z) : result bytes :=
  match t with
  | TINK => Ok (TinkStartByte :: PutUint32 keyID)
  | LEGACY | CRUNCHY => Ok (LegacyStartByte :: PutUint32 keyID)
  | RAW => Ok []
  | UNKNOWN_PREFIX => Err "crypto_format: unknown output prefix type"
  end.

End cryptofmt.

Module primitiveset.

Import tinkpb.

Section Defs.

(** The type of the instantiated primitive. *)
Context {P : Type}.

(** Modelled from the spec: the key entry of section 3, with the fields that
    the dispatchers read. *)
Record Entry : Type := {
  KeyID : Z;                       (* uint32 *)
  Primitive : P;
  Prefix : bytes;
  PrefixType : OutputPrefixType;
}.

(** Modelled from the spec: the primitive set of section 3. [Entries] is
    Go's [map[string][]*Entry], keyed by the prefix; [Primary] is a pointer
    and may be nil. *)
Record PrimitiveSet : Type := {
  Primary : option Entry;
  Entries : gmap bytes (list Entry);
  Annotations : list (string * string);
}.

(** Modelled from the spec: [EntriesForPrefix], an exact byte-string
    lookup that yields the ordered sequence of entries, empty when
    there is none; it never fails. *)
Definition EntriesForPrefix (ps : PrimitiveSet) (prefix : bytes)
  : result (list Entry) :=
  match Entries ps !! prefix with
  | Some result => Ok result
  | None => Ok []
  end.

(** Modelled from the spec: [RawEntries], the entries with the empty
    prefix. *)
Definition RawEntries (ps : PrimitiveSet) : result (list Entry) :=
  EntriesForPrefix ps [].

End Defs.

Arguments Entry : clear implicits.
Arguments PrimitiveSet : clear implicits.

End primitiveset.

(** ** The primitive interfaces of package [tink] *)

Module tink.

(** A deterministic AEAD is a pair of functions of the plaintext (or
    ciphertext) and the associated data. *)
Record DeterministicAEAD : Type := {
  EncryptDeterministically : bytes -> bytes -> result bytes;
  DecryptDeterministically : bytes -> bytes -> result bytes;
}.

(** An AEAD, as far as the envelope adapter uses it. *)
Record AEAD : Type := {
  Encrypt : bytes -> bytes -> result bytes;
  Decrypt : bytes -> bytes -> result bytes;
}.

End tink.

(** ** The deterministic-AEAD dispatcher (package [daead]) *)

Module daead.

Import tinkpb primitiveset.

(** The primitive of an entry is a Go interface value: [None] is nil. *)
Abbreviation Entry := (primitiveset.Entry (option tink.DeterministicAEAD)).
Abbreviation PrimitiveSet :=
  (primitiveset.PrimitiveSet (option tink.DeterministicAEAD)).

(** What the dispatcher does to its collaborators: the calls on the
    primitives of the entries and on the two monitoring loggers. *)
Inductive event : Type :=
| PrimitiveEncrypt (e : Entry) (pt aad : bytes)
| PrimitiveDecrypt (e : Entry) (ct aad : bytes)
| EncLog (keyID : Z) (numBytes : nat)
| EncLogFailure
| DecLog (keyID : Z) (numBytes : nat)
| DecLogFailure.

Record wrappedDeterministicAEAD : Type := {
  ps : PrimitiveSet;
}.

Definition errNotDeterministicAEAD : error :=
  "daead_factory: not a DeterministicAEAD primitive".

Definition errDecryptionFailed : error :=
  "daead_factory: decryption failed".

Definition EncryptDeterministically (d : wrappedDeterministicAEAD)
    (pt aad : bytes) : list event * result bytes :=
  match Primary (ps d) with
  | None => ([], Panic)
  | Some primary =>
      match Primitive primary with
      | None => ([], Err errNotDeterministicAEAD)
      | Some p =>
          match tink.EncryptDeterministically p pt aad with
          | Panic => ([PrimitiveEncrypt primary pt aad], Panic)
          | Err err =>
              ([PrimitiveEncrypt primary pt aad; EncLogFailure], Err err)
          | Ok ct =>
              ([PrimitiveEncrypt primary pt aad;
                EncLog (KeyID primary) (length pt)],
               if (length (Prefix primary) =? 0)%nat then Ok ct
               else Ok (Prefix primary ++ ct))
          end
      end
  end.

(** One of the two [for i := 0; i < len(entries); i++] loops of
    [DecryptDeterministically]: [Some r] is a [return] from inside the
    loop (or a panic), [None] is falling out of it. *)
Fixpoint tryEntries (entries : list Entry) (ct aad : bytes)
    : list event * option (result bytes) :=
  match entries with
  | [] => ([], None)
  | e :: rest =>
      match Primitive e with
      | None => ([], Some Panic)
      | Some p =>
          match tink.DecryptDeterministically p ct aad with
          | Ok pt =>
              ([PrimitiveDecrypt e ct aad; DecLog (KeyID e) (length ct)],
               Some (Ok pt))
          | Err _ =>
              let '(tr, r) := tryEntries rest ct aad in
              (PrimitiveDecrypt e ct aad :: tr, r)
          | Panic => ([PrimitiveDecrypt e ct aad], Some Panic)
          end
      end
  end.

Definition DecryptDeterministically (d : wrappedDeterministicAEAD)
    (ct aad : bytes) : list event * result bytes :=
  let prefixSize := cryptofmt.NonRawPrefixSize in
  (* try non-raw keys *)
  let '(tr1, r1) :=
    if (prefixSize <? length ct)%nat then
      let prefix := take prefixSize ct in
      let ctNoPrefix := drop prefixSize ct in
      match EntriesForPrefix (ps d) prefix with
      | Ok entries => tryEntries entries ctNoPrefix aad
      | _ => ([], None)
      end
    else ([], None) in
  match r1 with
  | Some r => (tr1, r)
  | None =>
      (* try raw keys *)
      let '(tr2, r2) :=
        match RawEntries (ps d) with
        | Ok entries => tryEntries entries ct aad
        | _ => ([], None)
        end in
      match r2 with
      | Some r => (tr1 ++ tr2, r)
      | None =>
          (* nothing worked *)
          (tr1 ++ tr2 ++ [DecLogFailure], Err errDecryptionFailed)
      end
  end.

(** *** The consume operation in the words of the specification

    Section 4.3 describes the consume operation as a sequence of attempts,
    each of one entry's primitive on one input. *)

Definition attempt : Type := Entry * bytes.

(** Steps 1 and 2: the entries found for the candidate prefix, each
    against the candidate payload; none when the input is not longer than
    the prefix. *)
Definition prefixAttempts (s : PrimitiveSet) (ct : bytes) : list attempt :=
  if decide (5 < length ct) then
    match EntriesForPrefix s (take 5 ct) with
    | Ok entries => (fun e => (e, drop 5 ct)) <$> entries
    | _ => []
    end
  else [].

(** Step 3: every raw entry against the original input. *)
Definition rawAttempts (s : PrimitiveSet) (ct : bytes) : list attempt :=
  match RawEntries s with
  | Ok entries => (fun e => (e, ct)) <$> entries
  | _ => []
  end.

Definition attempts (s : PrimitiveSet) (ct : bytes) : list attempt :=
  prefixAttempts s ct ++ rawAttempts s ct.

(** The outcome of one attempt. *)
Definition run (aad : bytes) (a : attempt) : result bytes :=
  match Primitive a.1 with
  | Some p => tink.DecryptDeterministically p a.2 aad
  | None => Panic
  end.

Definition rejects (aad : bytes) (a : attempt) : bool := is_Err (run aad a).

(** The first attempt that does not fail with an error decides; [None]
    when every attempt fails. *)
Fixpoint firstResult (aad : bytes) (l : list attempt)
    : option (result bytes) :=
  match l with
  | [] => None
  | a :: rest =>
      match run aad a with
      | Err _ => firstResult aad rest
      | r => Some r
      end
  end.

(** Step 4: the generic error when no attempt succeeds. *)
Definition firstSuccess (aad : bytes) (l : list attempt) : result bytes :=
  default (Err errDecryptionFailed) (firstResult aad l).

(** The invocations that are made: of every attempt up to and including
    the first one that does not fail (a nil primitive cannot be invoked). *)
Fixpoint tried (aad : bytes) (l : list attempt) : list attempt :=
  match l with
  | [] => []
  | a :: rest =>
      match Primitive a.1 with
      | None => []
      | Some p =>
          match tink.DecryptDeterministically p a.2 aad with
          | Err _ => a :: tried aad rest
          | _ => [a]
          end
      end
  end.

Definition consume (s : PrimitiveSet) (ct aad : bytes) : result bytes :=
  firstSuccess aad (attempts s ct).

(** The invocations of primitives that a trace records, in order. *)
Fixpoint decryptCalls (tr : list event) : list attempt :=
  match tr with
  | [] => []
  | PrimitiveDecrypt e ct _ :: tr' => (e, ct) :: decryptCalls tr'
  | _ :: tr' => decryptCalls tr'
  end.

Fixpoint encryptCalls (tr : list event) : list (Entry * bytes * bytes) :=
  match tr with
  | [] => []
  | PrimitiveEncrypt e pt aad :: tr' => (e, pt, aad) :: encryptCalls tr'
  | _ :: tr' => encryptCalls tr'
  end.

(** *** Validly built sets (sections 3 and 4.1 of the specification)

    Every entry is filed under its own prefix, its prefix is the one
    derived from its prefix type and key id, and its primitive has been
    instantiated; the primary is one of the entries. *)
Definition entry_ok (prefix : bytes) (e : Entry) : Prop :=
  Prefix e = prefix
  /\ cryptofmt.OutputPrefix (PrefixType e) (KeyID e) = Ok (Prefix e)
  /\ is_Some (Primitive e).

Definition valid (s : PrimitiveSet) : Prop :=
  map_Forall (fun prefix entries => Forall (entry_ok prefix) entries)
             (Entries s)
  /\ exists primary entries i,
       Primary s = Some primary
       /\ Entries s !! Prefix primary = Some entries
       /\ entries !! i = Some primary.

(** A primitive inverts its own encryption. *)
Definition inverts (p : tink.DeterministicAEAD) : Prop :=
  forall m aad ct,
    tink.EncryptDeterministically p m aad = Ok ct ->
    tink.DecryptDeterministically p ct aad = Ok m.

Definition all_invert (s : PrimitiveSet) : Prop :=
  map_Forall
    (fun _ entries =>
       Forall (fun e => forall p, Primitive e = Some p -> inverts p) entries)
    (Entries s).

(** The round trip of section 8: what [EncryptDeterministically] returns
    decrypts to the message. *)
Definition round_trip (s : PrimitiveSet) (m aad : bytes) : Prop :=
  forall out,
    (EncryptDeterministically {| ps := s |} m aad).2 = Ok out ->
    (DecryptDeterministically {| ps := s |} out aad).2 = Ok m.

(** *** A toy primitive for concrete instances

    [keyed k] tags the plaintext with the byte [k] and accepts only its own
    tag; [anyTag] accepts every tag. *)
Definition keyed (k : Byte.byte) : tink.DeterministicAEAD :=
  {| tink.EncryptDeterministically pt _ := Ok (k :: pt);
     tink.DecryptDeterministically ct _ :=
       match ct with
       | c :: rest => if decide (c = k) then Ok rest else Err "bad tag"
       | [] => Err "ciphertext too short"
       end |}.

Definition identity : tink.DeterministicAEAD :=
  {| tink.EncryptDeterministically pt _ := Ok pt;
     tink.DecryptDeterministically ct _ := Ok ct |}.

Definition tinkEntry (id : Z) (p : tink.DeterministicAEAD) : Entry :=
  {| KeyID := id; Primitive := Some p;
     Prefix := cryptofmt.TinkStartByte :: PutUint32 id; PrefixType := TINK |}.

Definition rawEntry (id : Z) (p : tink.DeterministicAEAD) : Entry :=
  {| KeyID := id; Primitive := Some p; Prefix := []; PrefixType := RAW |}.

(** A key set with the TINK key 1 as primary and the RAW key 2. *)
Definition twoKeys : PrimitiveSet :=
  {| Primary := Some (tinkEntry 1 (keyed Byte.x2a));
     Entries := {[ Prefix (tinkEntry 1 (keyed Byte.x2a)) :=
                     [tinkEntry 1 (keyed Byte.x2a)];
                   [] := [rawEntry 2 (keyed Byte.x17)] ]};
     Annotations := [] |}.

(** A key set whose only key is the TINK key 1 with the identity
    primitive. *)
Definition oneKey : PrimitiveSet :=
  {| Primary := Some (tinkEntry 1 identity);
     Entries := {[ Prefix (tinkEntry 1 identity) := [tinkEntry 1 identity] ]};
     Annotations := [] |}.

(** A key set of two RAW keys: key 1 with the identity primitive is
    declared first, key 2 is the primary. *)
Definition twoRaw : PrimitiveSet :=
  {| Primary := Some (rawEntry 2 (keyed Byte.x2a));
     Entries := {[ [] := [rawEntry 1 identity; rawEntry 2 (keyed Byte.x2a)] ]};
     Annotations := [] |}.

(** A key set with the TINK key 1 as primary and the RAW key 2 with the
    identity primitive, which accepts every input. *)
Definition lenientRaw : PrimitiveSet :=
  {| Primary := Some (tinkEntry 1 (keyed Byte.x2a));
     Entries := {[ Prefix (tinkEntry 1 (keyed Byte.x2a)) :=
                     [tinkEntry 1 (keyed Byte.x2a)];
                   [] := [rawEntry 2 identity] ]};
     Annotations := [] |}.

End daead.

(** ** The JWT verifier dispatcher (package [jwt], jwt_verifier_factory.go) *)

Module jwt.

Import tinkpb primitiveset.

(** The code compares errors with the package-level sentinel
    [errJwtVerification] by identity, so an error is either that sentinel or
    any other error value, whatever its message. *)
Inductive jwtError : Type :=
| errJwtVerification
| otherError (msg : string).

#[global] Instance jwtError_eq_dec : EqDecision jwtError.
Proof. solve_decision. Defined.

Definition prefixTypeName (t : OutputPrefixType) : string :=
  match t with
  | UNKNOWN_PREFIX => "UNKNOWN_PREFIX"
  | TINK => "TINK"
  | LEGACY => "LEGACY"
  | RAW => "RAW"
  | CRUNCHY => "CRUNCHY"
  end.

(** Go's [for _, v := range m] visits every entry of the map once, in an
    order that the language leaves open: [order] is one such order. *)
Definition range_order {V} (m : gmap bytes V) (order : list (bytes * V)) : Prop :=
  order ≡ₚ map_to_list m.

Section Defs.

(** Declared outside of the file: the token and validator types, the helper
    [keyID] that derives the expected [kid] header from an entry, and the
    monitoring collaborators. *)
Context {VerifiedJWT Validator Logger KeysetInfo : Type}.
Variable keyID : Z -> OutputPrefixType -> option string.

Record verifierWithKID : Type := {
  VerifyAndDecodeWithKID :
    string -> Validator -> option string -> result_of jwtError VerifiedJWT;
}.

Abbreviation Entry := (primitiveset.Entry verifierWithKID).
Abbreviation PrimitiveSet := (primitiveset.PrimitiveSet verifierWithKID).

Variable DoNothingLogger : Logger.
Variable KeysetInfoFromPrimitiveSet : PrimitiveSet -> result_of jwtError KeysetInfo.
Variable NewLogger : KeysetInfo -> string -> string -> result_of jwtError Logger.

Record wrappedVerifier : Type := {
  ps : PrimitiveSet;
  logger : Logger;
}.

Inductive event : Type :=
| PrimitiveVerify (e : Entry) (compact : string) (kid : option string)
| Log (keyID : Z) (numBytes : nat)
| LogFailure.

Definition createVerifierLogger (s : PrimitiveSet) : result_of jwtError Logger :=
  (* only keysets which contain annotations are monitored. *)
  if (length (Annotations s) =? 0)%nat then Ok DoNothingLogger
  else
    match KeysetInfoFromPrimitiveSet s with
    | Ok keysetInfo => NewLogger keysetInfo "jwtverify" "verify"
    | Err err => Err err
    | Panic => Panic
    end.

(** The inner loop of [newWrappedVerifier]: [Some err] is the [return]
    from inside it. *)
Fixpoint checkPrimitives (primitives : list Entry) : option jwtError :=
  match primitives with
  | [] => None
  | p :: rest =>
      if bool_decide (PrefixType p <> RAW) && bool_decide (PrefixType p <> TINK)
      then Some (otherError ("jwt_verifier_factory: invalid OutputPrefixType: "
                             +:+ prefixTypeName (PrefixType p)))
      else checkPrimitives rest
  end.

Fixpoint checkEntries (order : list (bytes * list Entry)) : option jwtError :=
  match order with
  | [] => None
  | (_, primitives) :: rest =>
      match checkPrimitives primitives with
      | Some err => Some err
      | None => checkEntries rest
      end
  end.

Definition newWrappedVerifier (s : PrimitiveSet)
    (order : list (bytes * list Entry)) : result_of jwtError wrappedVerifier :=
  match checkEntries order with
  | Some err => Err err
  | None =>
      match createVerifierLogger s with
      | Ok logger => Ok {| ps := s; logger := logger |}
      | Err err => Err err
      | Panic => Panic
      end
  end.

(** One attempt of [VerifyAndDecode]. *)
Definition verifyWith (compact : string) (validator : Validator) (e : Entry)
    : result_of jwtError VerifiedJWT :=
  VerifyAndDecodeWithKID (Primitive e) compact validator
                         (keyID (KeyID e) (PrefixType e)).

(** The inner loop of [VerifyAndDecode] with the variable [interestingErr]
    threaded through: [inl r] is the [return] from inside the loop (or a
    panic of the primitive), [inr] the value of [interestingErr] after it. *)
Fixpoint verifyGroup (compact : string) (validator : Validator)
    (s : list Entry) (interestingErr : option jwtError)
    : list event * (result_of jwtError VerifiedJWT + option jwtError) :=
  match s with
  | [] => ([], inr interestingErr)
  | e :: rest =>
      let call := PrimitiveVerify e compact (keyID (KeyID e) (PrefixType e)) in
      match verifyWith compact validator e with
      | Ok verifiedJWT => ([call; Log (KeyID e) 1], inl (Ok verifiedJWT))
      | Panic => ([call], inl Panic)
      | Err err =>
          let interestingErr' :=
            (* any error that is not the generic errJwtVerification is
               considered interesting *)
            if decide (err <> errJwtVerification) then Some err
            else interestingErr in
          let '(tr, r) := verifyGroup compact validator rest interestingErr' in
          (call :: tr, r)
      end
  end.

Fixpoint verifyGroups (compact : string) (validator : Validator)
    (order : list (bytes * list Entry)) (interestingErr : option jwtError)
    : list event * (result_of jwtError VerifiedJWT + option jwtError) :=
  match order with
  | [] => ([], inr interestingErr)
  | (_, s) :: rest =>
      match verifyGroup compact validator s interestingErr with
      | (tr, inl r) => (tr, inl r)
      | (tr, inr interestingErr') =>
          let '(tr', r) := verifyGroups compact validator rest interestingErr' in
          (tr ++ tr', r)
      end
  end.

Definition VerifyAndDecode (w : wrappedVerifier)
    (order : list (bytes * list Entry))
    (compact : string) (validator : Validator)
    : list event * result_of jwtError VerifiedJWT :=
  match verifyGroups compact validator order None with
  | (tr, inl r) => (tr, r)
  | (tr, inr (Some interestingErr)) => (tr ++ [LogFailure], Err interestingErr)
  | (tr, inr None) => (tr ++ [LogFailure], Err errJwtVerification)
  end.

(** The entries of a primitive set, whatever their group. *)
Definition inSet (s : PrimitiveSet) (e : Entry) : Prop :=
  exists prefix entries, Entries s !! prefix = Some entries /\ e ∈ entries.

(** The entries in the order in which a range over the map visits them. *)
Definition visited (order : list (bytes * list Entry)) : list Entry :=
  concat (order.*2).

End Defs.

(** *** Concrete instances *)

(** A verifier that fails every token with the given error. *)
Definition failing (err : jwtError) : @verifierWithKID string unit :=
  {| VerifyAndDecodeWithKID _ _ _ := Err err |}.

Definition exampleEntry (id : Z) (t : OutputPrefixType) (prefix : bytes)
    (err : jwtError) : primitiveset.Entry (@verifierWithKID string unit) :=
  {| KeyID := id; Primitive := failing err; Prefix := prefix; PrefixType := t |}.

(** The TINK key 1 fails with the generic error, the RAW key 2 with an
    error of its own. *)
Definition mixedSet : primitiveset.PrimitiveSet (@verifierWithKID string unit) :=
  {| Primary := Some (exampleEntry 1 TINK (Byte.x01 :: PutUint32 1)
                                   errJwtVerification);
     Entries := {[ Byte.x01 :: PutUint32 1 :=
                     [exampleEntry 1 TINK (Byte.x01 :: PutUint32 1)
                                   errJwtVerification];
                   [] := [exampleEntry 2 RAW [] (otherError "invalid header")] ]};
     Annotations := [] |}.

(** A key set with a LEGACY key. *)
Definition legacySet : primitiveset.PrimitiveSet (@verifierWithKID string unit) :=
  {| Primary := Some (exampleEntry 1 TINK (Byte.x01 :: PutUint32 1)
                                   errJwtVerification);
     Entries := {[ Byte.x01 :: PutUint32 1 :=
                     [exampleEntry 1 TINK (Byte.x01 :: PutUint32 1)
                                   errJwtVerification];
                   Byte.x00 :: PutUint32 2 :=
                     [exampleEntry 2 LEGACY (Byte.x00 :: PutUint32 2)
                                   errJwtVerification] ]};
     Annotations := [] |}.

Definition noKid (_ : Z) (_ : OutputPrefixType) : option string := None.

End jwt.

(** ** The sizes of the GCM cipher in the two builds of package [fips140]

    internal/fips140 has one file per build: [//go:build !go1.24] and
    [//go:build go1.24]. [go124] tells which one is compiled. *)

Module fips140.

(** [GCMNonceSize] and [GCMOverhead]: 12 and 16 in the build for Go before
    1.24, 0 and 28 in the build for Go 1.24, where the cipher draws the nonce
    itself and keeps it with the ciphertext. *)
Definition GCMNonceSize (go124 : bool) : nat := if go124 then 0 else 12.
Definition GCMOverhead (go124 : bool) : nat := if go124 then 28 else 16.

End fips140.

(** ** The AES-GCM full AEAD (package [aesgcm], aead.go) *)

Module aesgcm.

(** Go's [cipher.AEAD]: [Open dst nonce ciphertext additionalData]. *)
Record cipherAEAD : Type := {
  NonceSize : nat;
  Overhead : nat;
  Open : bytes -> bytes -> bytes -> bytes -> result bytes;
}.

Record fullAEAD : Type := {
  cipher : cipherAEAD;
  prefix : bytes;
}.

(** The calls on the underlying cipher. *)
Inductive event : Type :=
| CipherOpen (dst nonce ciphertext additionalData : bytes).

Definition errTooShort (n : nat) : error :=
  "ciphertext with size " +:+ pretty n +:+ " is too short".

Definition errPrefixMismatch : error := "ciphertext prefix does not match".

Definition Decrypt (a : fullAEAD) (ciphertext associatedData : bytes)
    : list event * result bytes :=
  let ivSize := NonceSize (cipher a) in
  let tagSize := Overhead (cipher a) in
  if decide (length ciphertext < length (prefix a) + ivSize + tagSize) then
    ([], Err (errTooShort (length ciphertext)))
  else
    match slice ciphertext 0 (length (prefix a)) with
    | None => ([], Panic)
    | Some prefix' =>
        if negb (bool_decide (prefix' = prefix a)) then
          ([], Err errPrefixMismatch)
        else
          match slice ciphertext (length (prefix a)) (length (prefix a) + ivSize),
                slice ciphertext (length (prefix a) + ivSize) (length ciphertext)
          with
          | Some iv, Some ciphertextWithTag =>
              let plaintextLen :=
                (Z.of_nat (length ciphertextWithTag) - Z.of_nat tagSize)%Z in
              (* make([]byte, 0, plaintextLen) *)
              if (plaintextLen <? 0)%Z then ([], Panic)
              else
                ([CipherOpen [] iv ciphertextWithTag associatedData],
                 Open (cipher a) [] iv ciphertextWithTag associatedData)
          | _, _ => ([], Panic)
          end
    end.

(** The part of [aesgcm.Key] and its parameters that [NewAEAD] reads. *)
Record Parameters : Type := {
  KeySizeInBytes : nat;
  IVSizeInBytes : nat;
  TagSizeInBytes : nat;
}.

Record Key : Type := {
  parameters : Parameters;
  KeyBytes : bytes;
  OutputPrefix : bytes;
}.

Definition defaultIvSize : nat := 12.
Definition defaultTagSize : nat := 16.

(** [errOpen] of Go's [crypto/cipher]. *)
Definition errOpen : error := "cipher: message authentication failed".

Section Construction.

(** The build: [true] for Go 1.24, [false] for Go before 1.24. *)
Variable go124 : bool.

(** AES-GCM decryption itself, of Go's standard library: for a key, a
    nonce, a ciphertext with tag and associated data. *)
Variable gcmOpen : bytes -> bytes -> bytes -> bytes -> result bytes.

(** [aes.NewCipher] accepts keys of 16, 24 and 32 bytes. *)
Definition aes_NewCipher (key : bytes) : result bytes :=
  if bool_decide (length key = 16 \/ length key = 24 \/ length key = 32)
  then Ok key
  else Err ("crypto/aes: invalid key size " +:+ pretty (length key)).

(** [fips140.NewGCM]. In the build for Go before 1.24 it is
    [cipher.NewGCM]: the nonce has 12 bytes and the tag 16. In the build for
    Go 1.24 it is [cipher.NewGCMWithRandomNonce]: [NonceSize] is 0,
    [Overhead] is 28, and [Open] panics on a nonce that is not empty, fails
    on less than 28 bytes, and takes the 12-byte nonce from the front of the
    ciphertext. The sizes are [fips140.GCMNonceSize] and
    [fips140.GCMOverhead] of the build. *)
Definition NewGCM (c : bytes) : result cipherAEAD :=
  Ok {| NonceSize := fips140.GCMNonceSize go124;
        Overhead := fips140.GCMOverhead go124;
        Open dst nonce ciphertext additionalData :=
          if go124 then
            if decide (length nonce <> 0) then Panic
            else if decide (length ciphertext < 12 + 16) then Err errOpen
            else
              match gcmOpen c (take 12 ciphertext) (drop 12 ciphertext)
                            additionalData with
              | Ok pt => Ok (dst ++ pt)
              | r => r
              end
          else
            match gcmOpen c nonce ciphertext additionalData with
            | Ok pt => Ok (dst ++ pt)
            | r => r
            end |}.

Definition NewAEAD (k : Key) : result fullAEAD :=
  let size := KeySizeInBytes (parameters k) in
  if bool_decide (size <> 16) && bool_decide (size <> 32) then
    Err ("aesgcm.NewAEAD: unsupported key size: got " +:+ pretty size
         +:+ ", want 16 or 32")
  else if bool_decide (IVSizeInBytes (parameters k) <> defaultIvSize) then
    Err ("aesgcm.NewAEAD: unsupported IV size: got "
         +:+ pretty (IVSizeInBytes (parameters k)) +:+ ", want "
         +:+ pretty defaultIvSize)
  else if bool_decide (TagSizeInBytes (parameters k) <> defaultTagSize) then
    Err ("aesgcm.NewAEAD: unsupported tag size: got "
         +:+ pretty (TagSizeInBytes (parameters k)) +:+ ", want "
         +:+ pretty defaultTagSize)
  else
    match aes_NewCipher (KeyBytes k) with
    | Ok c =>
        match NewGCM c with
        | Ok aeadCipher =>
            Ok {| cipher := aeadCipher; prefix := OutputPrefix k |}
        | _ => Err "aesgcm.NewAEAD: failed to create cipher.AEAD"
        end
    | _ => Err "aesgcm.NewAEAD: failed to initialize cipher"
    end.

End Construction.

(** *** A concrete key: the 16-byte key of zeros, with the TINK prefix of
    key id 1, and a cipher that authenticates nothing. *)
Definition zeroKey : Key :=
  {| parameters := {| KeySizeInBytes := 16; IVSizeInBytes := 12;
                      TagSizeInBytes := 16 |};
     KeyBytes := replicate 16 Byte.x00;
     OutputPrefix := Byte.x01 :: PutUint32 1 |}.

Definition rejectAll (_ _ _ _ : bytes) : result bytes := Err errOpen.

End aesgcm.

(** ** The envelope adapter (section 4.5 of the specification)

    The code of the adapter is not part of the sources at hand, only its
    tests are; the adapter is modelled from section 4.5 and 6. *)

Module kmsenvelope.

(** The length prefix is a 4-byte big-endian integer. *)
Definition lenDEK : nat := 4.

Record KMSEnvelopeAEAD : Type := {
  (** the caller-supplied key-encryption primitive *)
  remote : tink.AEAD;
  (** reconstructs the DEK primitive from a serialized DEK *)
  newDEKPrimitive : bytes -> result tink.AEAD;
  (** the sane maximum of the length of an encrypted DEK *)
  maxLengthEncryptedDEK : Z;
}.

Definition errInvalidCiphertext : error := "kms_envelope_aead: invalid ciphertext".
Definition errDEKTooLarge : error :=
  "kms_envelope_aead: length of encrypted DEK too large".

Definition lift {A} (o : option A) : result A :=
  match o with Some a => Ok a | None => Panic end.

Definition bind {A B} (r : result A) (k : A -> result B) : result B :=
  match r with
  | Ok a => k a
  | Err e => Err e
  | Panic => Panic
  end.

Notation "'letR' x ':=' r 'in' k" := (bind r (fun x => k))
  (at level 10, x name, r at level 100, k at level 200).

(** Modelled from the spec: [Decrypt] of the envelope adapter, which is
    missing from the sources. "Read the length prefix, reject if it implies a
    DEK longer than a sane maximum, decrypt the DEK with the key-encryption
    primitive, reconstruct the DEK primitive, decrypt the payload"; a
    declared length that "exceeds the remaining ciphertext length fails
    cleanly"; the wire format is
    [bigEndian32(len(encryptedDEK)) || encryptedDEK || encryptedPayload].
    Every slice expression is checked, so that a missing guard would show as
    a panic. *)
Definition Decrypt (a : KMSEnvelopeAEAD) (ct aad : bytes)
    : result bytes :=
  if decide (length ct < lenDEK) then Err errInvalidCiphertext
  else
    letR lengthPrefix := lift (slice ct 0 lenDEK) in
    letR encryptedDEKLen := lift (Uint32 lengthPrefix) in
    if decide (maxLengthEncryptedDEK a < encryptedDEKLen
               \/ Z.of_nat (length ct) - Z.of_nat lenDEK < encryptedDEKLen)%Z
    then Err errDEKTooLarge
    else
      letR encryptedDEK := lift (slice ct lenDEK (lenDEK + Z.to_nat encryptedDEKLen)) in
      letR payload := lift (slice ct (lenDEK + Z.to_nat encryptedDEKLen) (length ct)) in
      letR dek := tink.Decrypt (remote a) encryptedDEK [] in
      letR primitive := newDEKPrimitive a dek in
      tink.Decrypt primitive payload aad.

(** The length that the first four bytes declare. *)
Definition declaredLength (ct : bytes) : option Z := Uint32 ct.

(** *** A concrete adapter: a key-encryption primitive that is the
    identity, a DEK primitive that is the identity, and the maximum 4096. *)
Definition plain : tink.AEAD :=
  {| tink.Encrypt pt _ := Ok pt; tink.Decrypt ct _ := Ok ct |}.

Definition plainEnvelope : KMSEnvelopeAEAD :=
  {| remote := plain; newDEKPrimitive _ := Ok plain;
     maxLengthEncryptedDEK := 4096 |}.

End kmsenvelope.

(** ** The segmented stream codec (section 4.4 of the specification)

    The code of the codec is not part of the sources at hand, only its tests
    are; the writer and the reader are modelled from section 4.4 and 6. *)

Module streamingaead.

(** The configuration of a codec. The sealing of one segment is the
    black-box primitive of section 4.4: it takes the stream header (which
    carries the salt that the per-stream keys are derived from), the
    segment's nonce, the associated data and the plaintext of the segment. *)
Record Config : Type := {
  segmentSize : nat;
  firstSegmentOffset : nat;
  headerLength : nat;
  tagSize : nat;
  noncePrefixOf : bytes -> bytes;
  sealSegment : bytes -> bytes -> bytes -> bytes -> bytes;
  openSegment : bytes -> bytes -> bytes -> bytes -> option bytes;
}.

(** Modelled from the spec: the per-segment nonce,
    [streamNoncePrefix || bigEndian32(segmentNumber) || (isLastSegment ? 0x01 : 0x00)]. *)
Definition nonce (noncePrefix : bytes) (segmentNumber : nat)
    (isLastSegment : bool) : bytes :=
  noncePrefix ++ PutUint32 (Z.of_nat segmentNumber)
              ++ [if isLastSegment then Byte.x01 else Byte.x00].

(** The ciphertext bytes of segment [i]: the first segment shares its
    [segmentSize] bytes with the reserved offset and the header. *)
Definition segmentLength (c : Config) (i : nat) : nat :=
  match i with
  | 0 => segmentSize c - firstSegmentOffset c - headerLength c
  | S _ => segmentSize c
  end.

(** "A full segment's worth (minus the authentication tag overhead)". *)
Definition capacity (c : Config) (i : nat) : nat := segmentLength c i - tagSize c.

(** Every segment has room for its tag and at least one byte. *)
Definition validConfig (c : Config) : Prop :=
  tagSize c < segmentSize c - firstSegmentOffset c - headerLength c.

(** *** The writer *)

Inductive WriterState : Type := Open | Closed.

Record Writer : Type := {
  wstate : WriterState;
  wheader : bytes;
  waad : bytes;
  headerEmitted : bool;
  buffered : bytes;
  segmentNumber : nat;
  sink : bytes;
}.

Definition NewWriter (header aad : bytes) : Writer :=
  {| wstate := Open; wheader := header; waad := aad; headerEmitted := false;
     buffered := []; segmentNumber := 0; sink := [] |}.

(** Modelled from the spec: "the header is emitted exactly once, before the
    first segment". *)
Definition emitHeader (w : Writer) : Writer :=
  if headerEmitted w then w
  else {| wstate := wstate w; wheader := wheader w; waad := waad w;
          headerEmitted := true; buffered := buffered w;
          segmentNumber := segmentNumber w; sink := sink w ++ wheader w |}.

(** Seal the buffered bytes as the next segment and emit it. *)
Definition emitSegment (c : Config) (isLastSegment : bool) (w : Writer) : Writer :=
  let w := emitHeader w in
  {| wstate := wstate w; wheader := wheader w; waad := waad w;
     headerEmitted := headerEmitted w; buffered := [];
     segmentNumber := S (segmentNumber w);
     sink := sink w ++ sealSegment c (wheader w)
                         (nonce (noncePrefixOf c (wheader w))
                                (segmentNumber w) isLastSegment)
                         (waad w) (buffered w) |}.

Definition push (b : Byte.byte) (w : Writer) : Writer :=
  {| wstate := wstate w; wheader := wheader w; waad := waad w;
     headerEmitted := headerEmitted w; buffered := buffered w ++ [b];
     segmentNumber := segmentNumber w; sink := sink w |}.

(** Modelled from the spec: "buffering plaintext until a full segment's
    worth accumulates, then seals that segment with isLastSegment=false and
    emits it". *)
Fixpoint writeBytes (c : Config) (data : bytes) (w : Writer) : Writer :=
  match data with
  | [] => w
  | b :: rest =>
      let w := push b w in
      writeBytes c rest
        (if decide (capacity c (segmentNumber w) <= length (buffered w))
         then emitSegment c false w else w)
  end.

Definition errClosed : error := "write on closed writer".

Definition Write (c : Config) (data : bytes) (w : Writer) : result Writer :=
  match wstate w with
  | Closed => Err errClosed
  | Open => Ok (writeBytes c data w)
  end.

(** Modelled from the spec: "on Close, the remaining buffered bytes
    (possibly zero) are sealed as the final segment with isLastSegment=true
    and emitted; after Close, further writes fail". *)
Definition Close (c : Config) (w : Writer) : result Writer :=
  match wstate w with
  | Closed => Err errClosed
  | Open =>
      let w := emitSegment c true w in
      Ok {| wstate := Closed; wheader := wheader w; waad := waad w;
            headerEmitted := headerEmitted w; buffered := buffered w;
            segmentNumber := segmentNumber w; sink := sink w |}
  end.

(** Write the chunks one after the other. *)
Fixpoint writeAll (c : Config) (chunks : list bytes) (w : Writer) : result Writer :=
  match chunks with
  | [] => Ok w
  | chunk :: rest =>
      match Write c chunk w with
      | Ok w' => writeAll c rest w'
      | r => r
      end
  end.

(** Encrypt a plaintext that is handed over in chunks; [header] is the
    header drawn at random when the stream is opened. *)
Definition Encrypt (c : Config) (header aad : bytes) (chunks : list bytes)
    : result bytes :=
  match writeAll c chunks (NewWriter header aad) with
  | Ok w => match Close c w with
            | Ok w' => Ok (sink w')
            | Err e => Err e
            | Panic => Panic
            end
  | Err e => Err e
  | Panic => Panic
  end.

(** *** The reader *)

Inductive ReaderState : Type :=
| HeaderPending
| Streaming (segmentNumber : nat)
| Done
| Failed.

Record Reader : Type := {
  rstate : ReaderState;
  rheader : bytes;
  raad : bytes;
  source : bytes;
  delivered : bytes;
}.

Definition NewReader (aad source : bytes) : Reader :=
  {| rstate := HeaderPending; rheader := []; raad := aad; source := source;
     delivered := [] |}.

(** The reader is abandoned; what was delivered stays delivered. *)
Definition abandon (r : Reader) : Reader :=
  {| rstate := Failed; rheader := rheader r; raad := raad r;
     source := source r; delivered := delivered r |}.

(** Modelled from the spec: one step of the reader. The header is consumed
    first; then the segments are taken in increasing order, each opened with
    the nonce of its position; the segment with which the source ends is
    opened as the last one, every other as not the last. *)
Definition readStep (c : Config) (r : Reader) : Reader :=
  match rstate r with
  | HeaderPending =>
      if decide (length (source r) < headerLength c) then abandon r
      else {| rstate := Streaming 0;
              rheader := take (headerLength c) (source r); raad := raad r;
              source := drop (headerLength c) (source r);
              delivered := delivered r |}
  | Streaming i =>
      let n := segmentLength c i in
      let isLastSegment := bool_decide (length (source r) <= n) in
      match openSegment c (rheader r)
                        (nonce (noncePrefixOf c (rheader r)) i isLastSegment)
                        (raad r) (take n (source r)) with
      | None => abandon r
      | Some pt =>
          {| rstate := if isLastSegment then Done else Streaming (S i);
             rheader := rheader r; raad := raad r;
             source := drop n (source r);
             delivered := delivered r ++ pt |}
      end
  | Done | Failed => r
  end.

Fixpoint readSteps (c : Config) (fuel : nat) (r : Reader) : Reader :=
  match fuel with
  | 0 => r
  | S fuel => readSteps c fuel (readStep c r)
  end.

Definition errStreamDecrypt : error := "StreamDecryptError".

(** Decrypt a whole stream: one step for the header and at most one for
    every byte after it. *)
Definition Decrypt (c : Config) (aad ct : bytes) : result bytes :=
  let r := readSteps c (2 + length ct) (NewReader aad ct) in
  match rstate r with
  | Done => Ok (delivered r)
  | _ => Err errStreamDecrypt
  end.

(** *** A concrete codec: segments of 256 bytes, an 8-byte header that is
    its own nonce prefix, and a one-byte tag that is the xor of the bytes
    of the nonce, the associated data and the plaintext. *)
Definition xorBytes (l : bytes) : Byte.byte :=
  byte_of_Z (foldr (fun b acc => Z.lxor (Z_of_byte b) acc) 0%Z l).

Definition toyCodec : Config :=
  {| segmentSize := 256; firstSegmentOffset := 8; headerLength := 8;
     tagSize := 1; noncePrefixOf header := header;
     sealSegment header nonce aad pt := pt ++ [xorBytes (nonce ++ aad ++ pt)];
     openSegment header nonce aad ct :=
       match reverse ct with
       | tag :: body =>
           if decide (tag = xorBytes (nonce ++ aad ++ reverse body))
           then Some (reverse body) else None
       | [] => None
       end |}.

End streamingaead.


(** ** Serialization of ECIES public keys (package [ecies],
    protoserialization.go) *)

Module commonpb.

(** The enumerations of the protobuf package [common]; [other n] is an
    integer that is none of the named values. *)
Inductive EllipticCurveType : Type :=
| UNKNOWN_CURVE
| NIST_P256
| NIST_P384
| NIST_P521
| CURVE25519
| otherCurve (n : Z).

Inductive HashType : Type :=
| UNKNOWN_HASH
| HashType_SHA1
| HashType_SHA384
| HashType_SHA256
| HashType_SHA512
| HashType_SHA224
| otherHash (n : Z).

Inductive EcPointFormat : Type :=
| UNKNOWN_FORMAT
| UNCOMPRESSED
| COMPRESSED
| DO_NOT_USE_CRUNCHY_UNCOMPRESSED
| otherFormat (n : Z).

End commonpb.

Module ecies.

Import tinkpb.

(** The enumerations of package [ecies], which are declared beside the
    file; each is a Go integer type, and [other n] is an integer that is none
    of the named constants. *)
Inductive Variant : Type :=
| VariantUnknown
| VariantTink
| VariantCrunchy
| VariantNoPrefix
| otherVariant (n : Z).

Inductive CurveType : Type :=
| UnknownCurveType
| NISTP256
| NISTP384
| NISTP521
| X25519
| otherCurveType (n : Z).

Inductive HashType : Type :=
| UnknownHashType
| SHA1
| SHA224
| SHA256
| SHA384
| SHA512
| otherHashType (n : Z).

Inductive PointFormat : Type :=
| UnspecifiedPointFormat
| CompressedPointFormat
| UncompressedPointFormat
| LegacyUncompressedPointFormat
| otherPointFormat (n : Z).

#[global] Instance Variant_eq_dec : EqDecision Variant.
Proof. solve_decision. Defined.

#[global] Instance CurveType_eq_dec : EqDecision CurveType.
Proof. solve_decision. Defined.

#[global] Instance PointFormat_eq_dec : EqDecision PointFormat.
Proof. solve_decision. Defined.

Definition protoOutputPrefixTypeFromVariant (variant : Variant)
    : OutputPrefixType * option error :=
  match variant with
  | VariantTink => (TINK, None)
  | VariantCrunchy => (CRUNCHY, None)
  | VariantNoPrefix => (RAW, None)
  | _ => (UNKNOWN_PREFIX, Some "unknown output prefix variant")
  end.

Definition protoCurveFromCurveType (curveType : CurveType)
    : commonpb.EllipticCurveType * option error :=
  match curveType with
  | NISTP256 => (commonpb.NIST_P256, None)
  | NISTP384 => (commonpb.NIST_P384, None)
  | NISTP521 => (commonpb.NIST_P521, None)
  | X25519 => (commonpb.CURVE25519, None)
  | _ => (commonpb.UNKNOWN_CURVE, Some "unknown curve type")
  end.

Definition protoHashTypeFromHashType (hashType : HashType)
    : commonpb.HashType * option error :=
  match hashType with
  | SHA1 => (commonpb.HashType_SHA1, None)
  | SHA224 => (commonpb.HashType_SHA224, None)
  | SHA256 => (commonpb.HashType_SHA256, None)
  | SHA384 => (commonpb.HashType_SHA384, None)
  | SHA512 => (commonpb.HashType_SHA512, None)
  | _ => (commonpb.UNKNOWN_HASH, Some "unknown hash type")
  end.

Definition protoEcPointFormatFromPointFormat (pointFormat : PointFormat)
    : commonpb.EcPointFormat * option error :=
  match pointFormat with
  | CompressedPointFormat => (commonpb.COMPRESSED, None)
  | UncompressedPointFormat => (commonpb.UNCOMPRESSED, None)
  | LegacyUncompressedPointFormat =>
      (commonpb.DO_NOT_USE_CRUNCHY_UNCOMPRESSED, None)
  | UnspecifiedPointFormat =>
      (* This is unspecified only for X25519, so we set it to COMPRESSED. *)
      (commonpb.COMPRESSED, None)
  | _ => (commonpb.UNKNOWN_FORMAT, Some "unknown point format")
  end.

Definition coordinateSizeForCurve (curveType : CurveType) : nat * option error :=
  match curveType with
  | NISTP256 => (32, None)
  | NISTP384 => (48, None)
  | NISTP521 => (66, None)
  | _ => (0, Some "unsupported curve")
  end.

(** [padBigIntBytesToFixedSizeBuffer] pads the given big integer bytes to
    the given size. *)
Definition padBigIntBytesToFixedSizeBuffer (bigIntBytes : bytes) (size : nat)
    : result bytes :=
  if decide (size < length bigIntBytes) then
    Err ("big int has invalid size: " +:+ pretty (length bigIntBytes)
         +:+ ", want at most " +:+ pretty size)
  else if decide (length bigIntBytes = size) then Ok bigIntBytes
  else
    let buf := replicate (size - length bigIntBytes) Byte.x00 in
    Ok (buf ++ bigIntBytes).

Definition curveTypeFromProto (curveType : commonpb.EllipticCurveType)
    : CurveType * option error :=
  match curveType with
  | commonpb.NIST_P256 => (NISTP256, None)
  | commonpb.NIST_P384 => (NISTP384, None)
  | commonpb.NIST_P521 => (NISTP521, None)
  | commonpb.CURVE25519 => (X25519, None)
  | _ => (UnknownCurveType, Some "unknown curve type")
  end.

Definition hashTypeFromProto (hashType : commonpb.HashType)
    : HashType * option error :=
  match hashType with
  | commonpb.HashType_SHA1 => (SHA1, None)
  | commonpb.HashType_SHA224 => (SHA224, None)
  | commonpb.HashType_SHA256 => (SHA256, None)
  | commonpb.HashType_SHA384 => (SHA384, None)
  | commonpb.HashType_SHA512 => (SHA512, None)
  | _ => (UnknownHashType, Some "unknown hash type")
  end.

Definition variantFromProto (outputPrefixType : OutputPrefixType)
    : Variant * option error :=
  match outputPrefixType with
  | TINK => (VariantTink, None)
  | CRUNCHY | LEGACY => (VariantCrunchy, None)
  | RAW => (VariantNoPrefix, None)
  | _ => (VariantUnknown, Some "unknown output prefix")
  end.

(** The loop of [removeLeftPaddingFromBigInt] over the bytes to remove:
    the index of the first one that is not zero. *)
Fixpoint firstNonZero (padding : bytes) (i : nat) : option nat :=
  match padding with
  | [] => None
  | b :: rest =>
      if decide (b <> Byte.x00) then Some i else firstNonZero rest (S i)
  end.

(** [removeLeftPaddingFromBigInt] removes the leading zeros from the given
    big integer representation. If it is not longer than the given size, it
    is returned as is. *)
Definition removeLeftPaddingFromBigInt (bigIntValue : bytes) (size : nat)
    : result bytes :=
  if decide (length bigIntValue <= size) then Ok bigIntValue
  else
    (* Remove the leading len(bigIntValue)-size bytes. Fail if any is not
       zero. *)
    match firstNonZero (take (length bigIntValue - size) bigIntValue) 0 with
    | Some i =>
        Err ("big int has invalid size: " +:+ pretty (length bigIntValue - i)
             +:+ ", want " +:+ pretty size)
    | None => Ok (drop (length bigIntValue - size) bigIntValue)
    end.

Definition pointFormatFromProtoPointFormat (pointFormat : commonpb.EcPointFormat)
    : PointFormat * option error :=
  match pointFormat with
  | commonpb.COMPRESSED => (CompressedPointFormat, None)
  | commonpb.UNCOMPRESSED => (UncompressedPointFormat, None)
  | commonpb.DO_NOT_USE_CRUNCHY_UNCOMPRESSED =>
      (LegacyUncompressedPointFormat, None)
  | _ => (UnspecifiedPointFormat, Some "unknown point format")
  end.

(** The integer that a big-endian byte string denotes
    ([new(big.Int).SetBytes]). *)
Definition bigEndian (b : bytes) : Z :=
  foldl (fun acc x => (acc * 256 + Z_of_byte x)%Z) 0%Z b.

End ecies.


(** ** Sequencing of calls that return [(T, error)] *)

Module GoErr.

Definition bindE {E A B} (r : result_of E A) (k : A -> result_of E B)
    : result_of E B :=
  match r with
  | Ok a => k a
  | Err e => Err e
  | Panic => Panic
  end.

Notation "'letE' x ':=' r 'in' k" := (bindE r (fun x => k))
  (at level 10, x name, r at level 100, k at level 200).

(** [v, err := f(...); if err != nil { return nil, err }]. *)
Definition check {A} (p : A * option error) : result A :=
  match p.2 with
  | None => Ok p.1
  | Some err => Err err
  end.

End GoErr.

(** ** The protobuf messages of an ECIES public key *)

Module keydata.

Import tinkpb.

Inductive KeyMaterialType : Type :=
| UNKNOWN_KEYMATERIAL
| SYMMETRIC
| ASYMMETRIC_PRIVATE
| ASYMMETRIC_PUBLIC
| REMOTE.

#[global] Instance KeyMaterialType_eq_dec : EqDecision KeyMaterialType.
Proof. solve_decision. Defined.

Record KeyData : Type := {
  TypeUrl : string;
  Value : bytes;
  KeyMaterialType_ : KeyMaterialType;
}.

Record KeyTemplate : Type := {
  TemplateTypeUrl : string;
  TemplateValue : bytes;
  TemplateOutputPrefixType : OutputPrefixType;
}.

#[global] Instance KeyTemplate_eq_dec : EqDecision KeyTemplate.
Proof. solve_decision. Defined.

End keydata.

Module eciespb.

Import keydata.

#[global] Instance EllipticCurveType_eq_dec : EqDecision commonpb.EllipticCurveType.
Proof. solve_decision. Defined.

#[global] Instance HashType_eq_dec : EqDecision commonpb.HashType.
Proof. solve_decision. Defined.

#[global] Instance EcPointFormat_eq_dec : EqDecision commonpb.EcPointFormat.
Proof. solve_decision. Defined.

Record EciesHkdfKemParams : Type := {
  CurveType : commonpb.EllipticCurveType;
  HkdfHashType : commonpb.HashType;
  HkdfSalt : bytes;
}.

Record EciesAeadDemParams : Type := {
  AeadDem : option KeyTemplate;
}.

Record EciesAeadHkdfParams : Type := {
  KemParams : option EciesHkdfKemParams;
  DemParams : option EciesAeadDemParams;
  EcPointFormat : commonpb.EcPointFormat;
}.

Record EciesAeadHkdfPublicKey : Type := {
  Version : Z;                                 (* uint32 *)
  Params : option EciesAeadHkdfParams;
  X : bytes;
  Y : bytes;
}.

#[global] Instance EciesHkdfKemParams_eq_dec : EqDecision EciesHkdfKemParams.
Proof. solve_decision. Defined.

#[global] Instance EciesAeadDemParams_eq_dec : EqDecision EciesAeadDemParams.
Proof. solve_decision. Defined.

#[global] Instance EciesAeadHkdfParams_eq_dec : EqDecision EciesAeadHkdfParams.
Proof. solve_decision. Defined.

#[global] Instance EciesAeadHkdfPublicKey_eq_dec : EqDecision EciesAeadHkdfPublicKey.
Proof. solve_decision. Defined.

(** The generated getters return the zero value on a nil message. *)
Definition GetKemParams (p : option EciesAeadHkdfParams) : option EciesHkdfKemParams :=
  match p with Some p => KemParams p | None => None end.

Definition GetDemParams (p : option EciesAeadHkdfParams) : option EciesAeadDemParams :=
  match p with Some p => DemParams p | None => None end.

Definition GetEcPointFormat (p : option EciesAeadHkdfParams) : commonpb.EcPointFormat :=
  match p with Some p => EcPointFormat p | None => commonpb.UNKNOWN_FORMAT end.

Definition GetCurveType (k : option EciesHkdfKemParams) : commonpb.EllipticCurveType :=
  match k with Some k => CurveType k | None => commonpb.UNKNOWN_CURVE end.

Definition GetHkdfHashType (k : option EciesHkdfKemParams) : commonpb.HashType :=
  match k with Some k => HkdfHashType k | None => commonpb.UNKNOWN_HASH end.

Definition GetHkdfSalt (k : option EciesHkdfKemParams) : bytes :=
  match k with Some k => HkdfSalt k | None => [] end.

Definition GetAeadDem (d : option EciesAeadDemParams) : option KeyTemplate :=
  match d with Some d => AeadDem d | None => None end.

End eciespb.

(** ** The serializer and the parser of ECIES public keys *)

Module ecies_keys.

Import tinkpb keydata eciespb ecies GoErr.

Definition publicKeyTypeURL : string :=
  "type.googleapis.com/google.crypto.tink.EciesAeadHkdfPublicKey".

Section Serialization.

(** The parameters of the data encapsulation mechanism, a [key.Parameters]
    of another package. *)
Context {DEMParameters : Type}.

(** The types [Parameters], [ParametersOpts] and [PublicKey] of the
    package, which are declared beside the file, with what their accessors
    return. *)
Record Parameters : Type := {
  pCurveType : CurveType;
  pHashType : HashType;
  pVariant : Variant;
  pNISTCurvePointFormat : PointFormat;
  pDEMParameters : DEMParameters;
  pSalt : bytes;
}.

Record ParametersOpts : Type := {
  oCurveType : CurveType;
  oHashType : HashType;
  oVariant : Variant;
  oNISTCurvePointFormat : PointFormat;
  oDEMParameters : DEMParameters;
  oSalt : bytes;
}.

(** [Parameters] is nil if the key was created as a struct literal;
    [IDRequirement] returns the id and whether it is required. *)
Record PublicKey : Type := {
  PublicKeyBytes : bytes;
  IDRequirement : Z * bool;
  KeyParameters : option Parameters;
}.

(** A [key.Key] is an ECIES public key or a key of another type. *)
Inductive Key : Type :=
| PublicKeyOf (k : PublicKey)
| otherKey (typeName : string).

(** [protoserialization.KeySerialization] with what its accessors return. *)
Record KeySerialization : Type := {
  ksKeyData : KeyData;
  ksOutputPrefixType : OutputPrefixType;
  ksIDRequirement : Z * bool;
}.

(** The collaborators: the registry of parameter serializers and parsers,
    protobuf encoding, and the constructors of the package. *)
Variable SerializeParameters : DEMParameters -> result KeyTemplate.
Variable ParseParameters : option KeyTemplate -> result DEMParameters.
Variable Marshal : EciesAeadHkdfPublicKey -> result bytes.
Variable Unmarshal : bytes -> result EciesAeadHkdfPublicKey.
Variable NewKeySerialization :
  KeyData -> OutputPrefixType -> Z -> result KeySerialization.
Variable NewParameters : ParametersOpts -> result Parameters.
Variable NewPublicKey : bytes -> Z -> Parameters -> result PublicKey.

Definition createProtoECIESParams (p : Parameters) : result EciesAeadHkdfParams :=
  letE curveType := check (protoCurveFromCurveType (pCurveType p)) in
  letE protoHashType := check (protoHashTypeFromHashType (pHashType p)) in
  letE protoDEMParams := SerializeParameters (pDEMParameters p) in
  letE pointFormat :=
    check (protoEcPointFormatFromPointFormat (pNISTCurvePointFormat p)) in
  Ok {| KemParams := Some {| eciespb.CurveType := curveType;
                             HkdfHashType := protoHashType;
                             HkdfSalt := pSalt p |};
        DemParams := Some {| AeadDem := Some protoDEMParams |};
        EcPointFormat := pointFormat |}.

(** The [switch] of [SerializeKey] that fills in the coordinates [X] and
    [Y] of the protobuf key. *)
Definition protoCoordinates (curveType : CurveType) (publicKeyBytes : bytes)
    : result (bytes * bytes) :=
  match curveType with
  | NISTP256 | NISTP384 | NISTP521 =>
      (* Encoding must be as per [SEC 1 v2.0, Section 2.3.3]. This adds an
         extra leading 0x00 byte to the coordinates for compatibility with
         other Tink implementations. *)
      letE coordinateSize := check (coordinateSizeForCurve curveType) in
      if decide (length publicKeyBytes <> 2 * coordinateSize + 1) then
        Err "public key point has invalid coordinate size"
      else
        match publicKeyBytes with
        | [] => Panic
        | first :: xy =>
            if decide (first <> Byte.x04) then
              Err "public key has invalid 1st byte"
            else
              letE x := padBigIntBytesToFixedSizeBuffer
                          (take coordinateSize xy) (coordinateSize + 1) in
              letE y := padBigIntBytesToFixedSizeBuffer
                          (drop coordinateSize xy) (coordinateSize + 1) in
              Ok (x, y)
        end
  | X25519 => Ok (publicKeyBytes, [])
  | _ => Err "unsupported curve type"
  end.

Definition SerializeKey (key : Key) : result KeySerialization :=
  match key with
  | otherKey typeName =>
      Err ("key is of type " +:+ typeName +:+ ", want *ecies.PublicKey")
  | PublicKeyOf eciesPublicKey =>
      match KeyParameters eciesPublicKey with
      | None => Err "key has nil parameters"
      | Some eciesParams =>
          letE protoECIESParams := createProtoECIESParams eciesParams in
          letE xy := protoCoordinates (pCurveType eciesParams)
                                      (PublicKeyBytes eciesPublicKey) in
          let protoPublicKey :=
            {| Version := 0; Params := Some protoECIESParams;
               X := xy.1; Y := xy.2 |} in
          letE serializedECIESPubKey := Marshal protoPublicKey in
          letE outputPrefixType :=
            check (protoOutputPrefixTypeFromVariant (pVariant eciesParams)) in
          (* idRequirement is zero if the key doesn't have a key
             requirement. *)
          let idRequirement := (IDRequirement eciesPublicKey).1 in
          let keyData :=
            {| TypeUrl := publicKeyTypeURL; Value := serializedECIESPubKey;
               KeyMaterialType_ := ASYMMETRIC_PUBLIC |} in
          NewKeySerialization keyData outputPrefixType idRequirement
      end
  end.

Definition ParseKey (keySerialization : option KeySerialization) : result Key :=
  match keySerialization with
  | None => Err "key serialization is nil"
  | Some keySerialization =>
      let keyData := ksKeyData keySerialization in
      if decide (TypeUrl keyData <> publicKeyTypeURL) then
        Err ("invalid key type URL " +:+ TypeUrl keyData +:+ ", want "
             +:+ publicKeyTypeURL)
      else if decide (KeyMaterialType_ keyData <> ASYMMETRIC_PUBLIC) then
        Err "invalid key material type"
      else
        letE protoECIESKey := Unmarshal (Value keyData) in
        if decide (Version protoECIESKey <> 0%Z) then
          Err ("invalid key version: " +:+ pretty (Version protoECIESKey)
               +:+ ", want 0")
        else
          (* keySerialization.IDRequirement() returns zero if the key
             doesn't have a key requirement. *)
          let keyID := (ksIDRequirement keySerialization).1 in
          let kem := GetKemParams (Params protoECIESKey) in
          letE curveType := check (curveTypeFromProto (GetCurveType kem)) in
          letE hashType := check (hashTypeFromProto (GetHkdfHashType kem)) in
          letE variant :=
            check (variantFromProto (ksOutputPrefixType keySerialization)) in
          letE pointFormat :=
            check (pointFormatFromProtoPointFormat
                     (GetEcPointFormat (Params protoECIESKey))) in
          letE demParams :=
            ParseParameters (GetAeadDem (GetDemParams (Params protoECIESKey))) in
          letE pointFormat :=
            (if decide (curveType = X25519) then
               if decide (pointFormat <> CompressedPointFormat) then
                 Err "for X25519, point format must be COMPRESSED"
               else
                 (* Leave unspecified for X25519. *)
                 Ok UnspecifiedPointFormat
             else Ok pointFormat) in
          letE params :=
            NewParameters {| oCurveType := curveType; oHashType := hashType;
                             oVariant := variant;
                             oNISTCurvePointFormat := pointFormat;
                             oDEMParameters := demParams;
                             oSalt := GetHkdfSalt kem |} in
          letE publicKeyBytes :=
            (if decide (curveType = X25519) then Ok (X protoECIESKey)
             else
               letE coordinateSize := check (coordinateSizeForCurve curveType) in
               (* Tolerate arbitrary leading zeros in the coordinates. *)
               letE x := removeLeftPaddingFromBigInt (X protoECIESKey)
                                                     coordinateSize in
               letE y := removeLeftPaddingFromBigInt (Y protoECIESKey)
                                                     coordinateSize in
               Ok ([Byte.x04] ++ x ++ y)) in
          letE publicKey := NewPublicKey publicKeyBytes keyID params in
          Ok (PublicKeyOf publicKey)
  end.

(** The options from which [NewParameters] makes the given parameters. *)
Definition optsOf (p : Parameters) : ParametersOpts :=
  {| oCurveType := pCurveType p; oHashType := pHashType p;
     oVariant := pVariant p;
     oNISTCurvePointFormat := pNISTCurvePointFormat p;
     oDEMParameters := pDEMParameters p; oSalt := pSalt p |}.

End Serialization.

(** *** A concrete instance: no DEM parameters to speak of, an encoding
    that knows one message, and constructors that check nothing. *)
Definition demTemplate : KeyTemplate :=
  {| TemplateTypeUrl := "type.googleapis.com/google.crypto.tink.AesGcmKey";
     TemplateValue := []; TemplateOutputPrefixType := RAW |}.

Definition p256Parameters : @Parameters unit :=
  {| pCurveType := NISTP256; pHashType := SHA256; pVariant := VariantTink;
     pNISTCurvePointFormat := UncompressedPointFormat; pDEMParameters := ();
     pSalt := [Byte.x5a] |}.

Definition p256Key : @PublicKey unit :=
  {| PublicKeyBytes := Byte.x04 :: replicate 32 Byte.x11 ++ replicate 32 Byte.x22;
     IDRequirement := (7%Z, true);
     KeyParameters := Some p256Parameters |}.

Definition p256Proto : EciesAeadHkdfPublicKey :=
  {| Version := 0;
     Params := Some {| KemParams := Some {| eciespb.CurveType := commonpb.NIST_P256;
                                            HkdfHashType := commonpb.HashType_SHA256;
                                            HkdfSalt := [Byte.x5a] |};
                       DemParams := Some {| AeadDem := Some demTemplate |};
                       EcPointFormat := commonpb.UNCOMPRESSED |};
     X := Byte.x00 :: replicate 32 Byte.x11;
     Y := Byte.x00 :: replicate 32 Byte.x22 |}.

Definition toyMarshal (m : EciesAeadHkdfPublicKey) : result bytes :=
  if decide (m = p256Proto) then Ok [Byte.x01] else Err "cannot encode".

Definition toyUnmarshal (b : bytes) : result EciesAeadHkdfPublicKey :=
  Ok p256Proto.

Definition toyNewKeySerialization (kd : KeyData) (t : OutputPrefixType) (id : Z)
    : result KeySerialization :=
  Ok {| ksKeyData := kd; ksOutputPrefixType := t;
        ksIDRequirement := (id, bool_decide (t <> RAW)) |}.

Definition toyNewParameters (o : @ParametersOpts unit) : result (@Parameters unit) :=
  Ok {| pCurveType := oCurveType o; pHashType := oHashType o;
        pVariant := oVariant o;
        pNISTCurvePointFormat := oNISTCurvePointFormat o;
        pDEMParameters := oDEMParameters o; pSalt := oSalt o |}.

Definition toyNewPublicKey (b : bytes) (id : Z) (p : @Parameters unit)
    : result (@PublicKey unit) :=
  Ok {| PublicKeyBytes := b;
        IDRequirement := (id, bool_decide (pVariant p <> VariantNoPrefix));
        KeyParameters := Some p |}.

End ecies_keys.


(** ** Encryption with AES-GCM: [fullAEAD.Encrypt] of aead.go and the
    [AESGCM] of package [subtle] *)

Module aesgcm_seal.

Import aesgcm.

Definition ivSize : nat := 12.

Section Sealing.

(** The [Seal] method of [cipher.AEAD], [Seal dst nonce plaintext
    additionalData], which panics on a nonce of the wrong length; and
    [internalaead.CheckPlaintextSize]. *)
Variable Seal : cipherAEAD -> bytes -> bytes -> bytes -> bytes -> result bytes.
Variable CheckPlaintextSize : nat -> option error.

(** [fullAEAD.Encrypt]; [iv] is what [random.GetRandomBytes(ivSize)]
    returns. *)
Definition Encrypt (a : fullAEAD) (iv : bytes) (plaintext associatedData : bytes)
    : result bytes :=
  match CheckPlaintextSize (length plaintext) with
  | Some err => Err err
  | None =>
      let dst := prefix a ++ iv in
      Seal (cipher a) dst iv plaintext associatedData
  end.

(** What a [cipher.AEAD] promises: [Seal] appends to [dst] a ciphertext with
    the overhead of the tag, which [Open] with the same nonce and associated
    data decrypts. *)
Definition sealsAndOpens (c : cipherAEAD) : Prop :=
  forall dst nonce plaintext additionalData,
    length nonce = NonceSize c ->
    exists sealed,
      Seal c dst nonce plaintext additionalData = Ok (dst ++ sealed)
      /\ length sealed = length plaintext + Overhead c
      /\ forall dst',
           Open c dst' nonce sealed additionalData = Ok (dst' ++ plaintext).

End Sealing.

End aesgcm_seal.

Module subtle.

Import aesgcm.

(** [AESGCMIVSize] and [AESGCMTagSize], the sizes defined by RFC 5116. *)
Definition AESGCMIVSize : nat := 12.
Definition AESGCMTagSize : nat := 16.

Record AESGCM : Type := {
  cipher : cipherAEAD;
}.

Section Sealing.

Variable Seal : cipherAEAD -> bytes -> bytes -> bytes -> bytes -> result bytes.
Variable CheckPlaintextSize : nat -> option error.

(** [AESGCM.Encrypt]; [iv] is what [random.GetRandomBytes(AESGCMIVSize)]
    returns. *)
Definition Encrypt (a : AESGCM) (iv : bytes) (plaintext associatedData : bytes)
    : result bytes :=
  match CheckPlaintextSize (length plaintext) with
  | Some err => Err err
  | None =>
      let dst := iv in
      Seal (cipher a) dst iv plaintext associatedData
  end.

End Sealing.

Definition Decrypt (a : AESGCM) (ciphertext associatedData : bytes)
    : list event * result bytes :=
  if decide (length ciphertext < AESGCMIVSize + AESGCMTagSize) then
    ([], Err (errTooShort (length ciphertext)))
  else
    match slice ciphertext 0 AESGCMIVSize,
          slice ciphertext AESGCMIVSize (length ciphertext) with
    | Some iv, Some rest =>
        ([CipherOpen [] iv rest associatedData],
         Open (cipher a) [] iv rest associatedData)
    | _, _ => ([], Panic)
    end.

(** *** A concrete cipher: the tag is sixteen times the xor of the nonce,
    the associated data and the plaintext. *)
Definition toyTag (nonce additionalData plaintext : bytes) : bytes :=
  replicate 16 (streamingaead.xorBytes (nonce ++ additionalData ++ plaintext)).

Definition toyCipher : cipherAEAD :=
  {| NonceSize := 12; Overhead := 16;
     Open dst nonce ciphertext additionalData :=
       let n := length ciphertext - 16 in
       if decide (16 <= length ciphertext
                  /\ drop n ciphertext
                     = toyTag nonce additionalData (take n ciphertext))
       then Ok (dst ++ take n ciphertext)
       else Err "cipher: message authentication failed" |}.

Definition toySeal (c : cipherAEAD) (dst nonce plaintext additionalData : bytes)
    : result bytes :=
  if decide (length nonce = NonceSize c)
  then Ok (dst ++ plaintext ++ toyTag nonce additionalData plaintext)
  else Panic.

(** AES-GCM decryption for the concrete cipher, whatever the key. *)
Definition toyGcmOpen (key nonce ciphertext additionalData : bytes) : result bytes :=
  Open toyCipher [] nonce ciphertext additionalData.

End subtle.


(** ** What the deterministic-AEAD dispatcher reports to monitoring *)

Module daead_monitoring.

Import primitiveset daead.

Definition isLog (ev : event) : bool :=
  match ev with
  | EncLog _ _ | EncLogFailure | DecLog _ _ | DecLogFailure => true
  | PrimitiveEncrypt _ _ _ | PrimitiveDecrypt _ _ _ => false
  end.

(** The calls on the loggers that a trace records, in order. *)
Definition logCalls (tr : list event) : list event := List.filter isLog tr.

End daead_monitoring.


(** ** More instances of JWT key sets *)

Module jwt_more.

Import tinkpb primitiveset jwt.

(** A verifier that accepts every token and returns the given text. *)
Definition accepting (token : string) : @verifierWithKID string unit :=
  {| VerifyAndDecodeWithKID _ _ _ := Ok token |}.

(** The TINK key 1 fails with the generic error, the TINK key 2 accepts. *)
Definition rotatedSet : primitiveset.PrimitiveSet (@verifierWithKID string unit) :=
  {| Primary := Some {| KeyID := 2; Primitive := accepting "claims";
                        Prefix := Byte.x01 :: PutUint32 2; PrefixType := TINK |};
     Entries := {[ Byte.x01 :: PutUint32 1 :=
                     [exampleEntry 1 TINK (Byte.x01 :: PutUint32 1)
                                   errJwtVerification];
                   Byte.x01 :: PutUint32 2 :=
                     [{| KeyID := 2; Primitive := accepting "claims";
                         Prefix := Byte.x01 :: PutUint32 2;
                         PrefixType := TINK |}] ]};
     Annotations := [] |}.

End jwt_more.


(** ** The registry of primitive constructors (package [registryconfig]) *)

Module registryconfig.

Section Registry.

(** The keys, the primitives ([any]) and the key serializations. *)
Context {KeyValue Primitive KeySerialization : Type}.

(** A [key.Key] with its dynamic type, [reflect.TypeOf(key)]. *)
Record Key : Type := {
  TypeOf : string;
  value : KeyValue;
}.

(** A [primitiveConstructor], a Go function value: the function and the
    address that [reflect.ValueOf(f).Pointer()] returns for it. *)
Record primitiveConstructor : Type := {
  Pointer : N;
  construct : Key -> result Primitive;
}.

(** The package variable [primitiveConstructors]. *)
Abbreviation registry := (gmap string primitiveConstructor).

(** The fallback collaborators: [protoserialization.SerializeKey] and
    [registry.PrimitiveFromKeyData] of its key data. *)
Variable SerializeKey : Key -> result KeySerialization.
Variable PrimitiveFromKeyData : KeySerialization -> result Primitive.

(** [PrimitiveFromKey] constructs a primitive from a key using the
    registry; [None] is the nil key. *)
Definition PrimitiveFromKey (primitiveConstructors : registry)
    (key : option Key) : result Primitive :=
  match key with
  | None => Err "key is nil"
  | Some key =>
      match primitiveConstructors !! TypeOf key with
      | None =>
          (* Fallback to using the key manager. *)
          match SerializeKey key with
          | Ok keySerialization => PrimitiveFromKeyData keySerialization
          | Err err => Err err
          | Panic => Panic
          end
      | Some constructor => construct constructor key
      end
  end.

(** [RegisterPrimitiveConstructor[K]] for the key type [keyType]: the new
    value of the registry and the error. *)
Definition RegisterPrimitiveConstructor (primitiveConstructors : registry)
    (keyType : string) (constructor : primitiveConstructor)
    : registry * option error :=
  match primitiveConstructors !! keyType with
  | Some existingCreator =>
      if decide (Pointer existingCreator <> Pointer constructor) then
        (primitiveConstructors,
         Some ("a different constructor already registered for " +:+ keyType))
      else (<[keyType := constructor]> primitiveConstructors, None)
  | None => (<[keyType := constructor]> primitiveConstructors, None)
  end.

(** [ClearPrimitiveConstructors] clears the registry. *)
Definition ClearPrimitiveConstructors (primitiveConstructors : registry)
    : registry := ∅.

End Registry.

(** *** Concrete constructors over keys that are byte strings *)
Definition lengthOf : @primitiveConstructor bytes nat :=
  {| Pointer := 4096; construct k := Ok (length (value k)) |}.

Definition zero : @primitiveConstructor bytes nat :=
  {| Pointer := 8192; construct _ := Ok 0 |}.

End registryconfig.


(** ** The key managers: HPKE public keys, RSA-SSA-PSS verifiers, Ed25519
    signers *)

Module hpke.

Inductive HpkeKem : Type :=
| KEM_UNKNOWN
| DHKEM_X25519_HKDF_SHA256
| DHKEM_P256_HKDF_SHA256
| DHKEM_P384_HKDF_SHA384
| DHKEM_P521_HKDF_SHA512
| otherKem (n : Z).

Inductive HpkeKdf : Type :=
| KDF_UNKNOWN
| HKDF_SHA256
| HKDF_SHA384
| HKDF_SHA512
| otherKdf (n : Z).

Inductive HpkeAead : Type :=
| AEAD_UNKNOWN
| AES_128_GCM
| AES_256_GCM
| CHACHA20_POLY1305
| otherAead (n : Z).

Record HpkeParams : Type := {
  Kem : HpkeKem;
  Kdf : HpkeKdf;
  Aead : HpkeAead;
}.

Record HpkePublicKey : Type := {
  Version : Z;                               (* uint32 *)
  Params : option HpkeParams;
  PublicKey : bytes;
}.

(** The generated getters return the zero value on a nil message. *)
Definition GetKem (p : option HpkeParams) : HpkeKem :=
  match p with Some p => Kem p | None => KEM_UNKNOWN end.

Definition GetKdf (p : option HpkeParams) : HpkeKdf :=
  match p with Some p => Kdf p | None => KDF_UNKNOWN end.

Definition GetAead (p : option HpkeParams) : HpkeAead :=
  match p with Some p => Aead p | None => AEAD_UNKNOWN end.

(** [maxSupportedHPKEPublicKeyVersion] is the max supported public key
    version. *)
Definition maxSupportedHPKEPublicKeyVersion : Z := 0.
Definition hpkePublicKeyTypeURL : string :=
  "type.googleapis.com/google.crypto.tink.HpkePublicKey".

Definition errInvalidHPKEParams : error := "invalid HPKE parameters".
Definition errInvalidHPKEPublicKey : error := "invalid HPKE public key".
Definition errNotSupportedOnHPKE : error :=
  "not supported on HPKE public key manager".

Definition validateParams (params : option HpkeParams) : option error :=
  match GetKem params with
  | DHKEM_P256_HKDF_SHA256 | DHKEM_P384_HKDF_SHA384
  | DHKEM_P521_HKDF_SHA512 | DHKEM_X25519_HKDF_SHA256 =>
      match GetKdf params with
      | HKDF_SHA256 | HKDF_SHA384 | HKDF_SHA512 =>
          match GetAead params with
          | AES_128_GCM | AES_256_GCM | CHACHA20_POLY1305 => None
          | _ => Some errInvalidHPKEParams
          end
      | _ => Some errInvalidHPKEParams
      end
  | _ => Some errInvalidHPKEParams
  end.

Section Manager.

(** The primitive ([any]) and the collaborators: protobuf decoding,
    [keyset.ValidateKeyVersion], [hpke.ValidatePublicKeyLength] and
    [hpke.NewEncrypt]. *)
Context {Encrypt : Type}.
Variable Unmarshal : bytes -> result HpkePublicKey.
Variable ValidateKeyVersion : Z -> Z -> option error.
Variable ValidatePublicKeyLength : HpkePublicKey -> option error.
Variable NewEncrypt : HpkePublicKey -> result Encrypt.

Definition validatePublicKey (key : HpkePublicKey) : option error :=
  match ValidateKeyVersion (Version key) maxSupportedHPKEPublicKeyVersion with
  | Some err => Some err
  | None =>
      match ValidatePublicKeyLength key with
      | Some err => Some err
      | None => validateParams (Params key)
      end
  end.

Definition Primitive (serializedKey : bytes) : result Encrypt :=
  if decide (length serializedKey = 0) then Err errInvalidHPKEPublicKey
  else
    match Unmarshal serializedKey with
    | Ok key =>
        match validatePublicKey key with
        | Some err => Err err
        | None => NewEncrypt key
        end
    | Err _ => Err errInvalidHPKEPublicKey
    | Panic => Panic
    end.

End Manager.

Definition DoesSupport (typeURL : string) : bool :=
  bool_decide (typeURL = hpkePublicKeyTypeURL).

Definition TypeURL : string := hpkePublicKeyTypeURL.

(** *** A concrete decoder, which accepts every input, the empty one too,
    as a key with the one-byte public key 0x07. *)
Definition x25519Key : HpkePublicKey :=
  {| Version := 0;
     Params := Some {| Kem := DHKEM_X25519_HKDF_SHA256; Kdf := HKDF_SHA256;
                       Aead := AES_128_GCM |};
     PublicKey := [Byte.x07] |}.

Definition lenientUnmarshal (_ : bytes) : result HpkePublicKey := Ok x25519Key.

End hpke.

Module ed25519.

Record Ed25519KeyFormat : Type := {
  FormatVersion : Z;
}.

Record Ed25519PublicKey : Type := {
  PublicVersion : Z;
  PublicKeyValue : bytes;
}.

Record Ed25519PrivateKey : Type := {
  Version : Z;
  KeyValue : bytes;
  PublicKey : option Ed25519PublicKey;
}.

Definition signerKeyVersion : Z := 0.

(** [ed25519.SeedSize]. *)
Definition SeedSize : nat := 32.

Section Manager.

(** [Randomness] is an [io.Reader]. The collaborators: [ed25519.GenerateKey],
    which returns the public key and the seed of the private key or an
    error, protobuf decoding of the key format, and
    [keyset.ValidateKeyVersion]. *)
Context {Randomness : Type}.
Variable GenerateKey : Randomness -> result (bytes * bytes).
Variable UnmarshalFormat : bytes -> result Ed25519KeyFormat.
Variable ValidateKeyVersion : Z -> Z -> option error.

Definition newPrivateKey (pub seed : bytes) : Ed25519PrivateKey :=
  {| Version := signerKeyVersion; KeyValue := seed;
     PublicKey := Some {| PublicVersion := signerKeyVersion;
                          PublicKeyValue := pub |} |}.

(** [NewKey] creates a new key; [rand] is [rand.Reader]. *)
Definition NewKey (rand : Randomness) (serializedKeyFormat : bytes)
    : result Ed25519PrivateKey :=
  match GenerateKey rand with
  | Ok (pub, seed) => Ok (newPrivateKey pub seed)
  | Err err => Err ("cannot generate ED25519 key: " +:+ err)
  | Panic => Panic
  end.

(** [DeriveKey] derives a new key from [serializedKeyFormat] and
    pseudorandomness. Unlike [NewKey], [DeriveKey] validates the version of
    [serializedKeyFormat]. *)
Definition DeriveKey (serializedKeyFormat : bytes) (pseudorandomness : Randomness)
    : result Ed25519PrivateKey :=
  match UnmarshalFormat serializedKeyFormat with
  | Ok keyFormat =>
      match ValidateKeyVersion (FormatVersion keyFormat) signerKeyVersion with
      | Some err => Err err
      | None =>
          match GenerateKey pseudorandomness with
          | Ok (pub, seed) => Ok (newPrivateKey pub seed)
          | Err err => Err err
          | Panic => Panic
          end
      end
  | Err err => Err err
  | Panic => Panic
  end.

(** [validateKey] validates the given private key. *)
Definition validateKey (key : Ed25519PrivateKey) : option error :=
  match ValidateKeyVersion (Version key) signerKeyVersion with
  | Some err => Some ("ed25519_signer_key_manager: invalid key: " +:+ err)
  | None =>
      if decide (length (KeyValue key) <> SeedSize) then
        Some ("ed25519_signer_key_manager: invalid key length, got "
              +:+ pretty (length (KeyValue key)))
      else None
  end.

End Manager.

(** *** A concrete generator: the randomness is the seed, the public key its
    reverse; the version check of [keyset]. *)
Definition toyGenerateKey (seed : bytes) : result (bytes * bytes) :=
  if decide (length seed = 32) then Ok (reverse seed, seed)
  else Err "unexpected EOF".

Definition toyValidateKeyVersion (version maxExpected : Z) : option error :=
  if decide (maxExpected < version)%Z then Some "key has version beyond"
  else None.

End ed25519.


Module rsassapss.

Record RsaSsaPssParams : Type := {
  SigHash : commonpb.HashType;
  Mgf1Hash : commonpb.HashType;
  SaltLength : Z;                              (* int32 *)
}.

Record RsaSsaPssPublicKey : Type := {
  Version : Z;                                 (* uint32 *)
  Params : option RsaSsaPssParams;
  N : bytes;
  E : bytes;
}.

(** The generated getters return the zero value on a nil message. *)
Definition GetSigHash (p : option RsaSsaPssParams) : commonpb.HashType :=
  match p with Some p => SigHash p | None => commonpb.UNKNOWN_HASH end.

Definition GetMgf1Hash (p : option RsaSsaPssParams) : commonpb.HashType :=
  match p with Some p => Mgf1Hash p | None => commonpb.UNKNOWN_HASH end.

Definition GetSaltLength (p : option RsaSsaPssParams) : Z :=
  match p with Some p => SaltLength p | None => 0%Z end.

Definition verifierKeyVersion : Z := 0.

(** [new(big.Int).SetBytes(b).BitLen()]. *)
Definition BitLen (b : bytes) : Z :=
  if decide (ecies.bigEndian b = 0%Z) then 0%Z
  else (Z.log2 (ecies.bigEndian b) + 1)%Z.

Section Manager.

(** The collaborators: [keyset.ValidateKeyVersion] and
    [internal.ValidateRSAPublicKeyParams] for a hash, the bit length of the
    modulus and the public exponent. *)
Variable ValidateKeyVersion : Z -> Z -> option error.
Variable ValidateRSAPublicKeyParams : commonpb.HashType -> Z -> bytes -> option error.

Definition validateRSAPSSPublicKey (pubKey : RsaSsaPssPublicKey) : option error :=
  match ValidateKeyVersion (Version pubKey) verifierKeyVersion with
  | Some err => Some err
  | None =>
      if decide (GetSigHash (Params pubKey) <> GetMgf1Hash (Params pubKey)) then
        Some "signature hash and MGF1 hash function must match"
      else if decide (GetSaltLength (Params pubKey) < 0)%Z then
        Some "salt length can't be negative"
      else
        ValidateRSAPublicKeyParams (GetSigHash (Params pubKey))
                                   (BitLen (N pubKey)) (E pubKey)
  end.

End Manager.

(** *** A concrete check of the parameters: a modulus of at least 2048 bits
    and the exponent 65537. *)
Definition toyValidateRSA (h : commonpb.HashType) (bits : Z) (e : bytes)
    : option error :=
  if decide (bits < 2048)%Z then Some "modulus too small"
  else if decide (ecies.bigEndian e = 65537%Z) then None
  else Some "public exponent must be 65537".

Definition toyRSAKey : RsaSsaPssPublicKey :=
  {| Version := 0;
     Params := Some {| SigHash := commonpb.HashType_SHA256;
                       Mgf1Hash := commonpb.HashType_SHA256;
                       SaltLength := 32 |};
     N := Byte.x80 :: replicate 255 Byte.x01;
     E := [Byte.x01; Byte.x00; Byte.x01] |}.

End rsassapss.


(** ** Package [ed25519]: the key data of the signer key manager

    [NewKeyData] and [PublicKeyData] of [signerKeyManager]
    (signature/ed25519/signer_key_manager.go). Protobuf encoding and
    decoding are collaborators; [verifierTypeURL] is a constant of the
    package that is declared with the verifier key manager. *)

Module ed25519_keydata.

Import keydata ed25519.

Definition signerTypeURL : string :=
  "type.googleapis.com/google.crypto.tink.Ed25519PrivateKey".

Definition errInvalidSignKey : error := "invalid key".
Definition errInvalidSignKeyFormat : error := "invalid key format".

#[global] Instance Ed25519PublicKey_eq_dec : EqDecision Ed25519PublicKey.
Proof. solve_decision. Defined.

#[global] Instance Ed25519PrivateKey_eq_dec : EqDecision Ed25519PrivateKey.
Proof. solve_decision. Defined.

Section Manager.

Context {Randomness : Type}.
Variable GenerateKey : Randomness -> result (bytes * bytes).
Variable MarshalPrivateKey : Ed25519PrivateKey -> result bytes.
Variable UnmarshalPrivateKey : bytes -> result Ed25519PrivateKey.
Variable MarshalPublicKey : option Ed25519PublicKey -> result bytes.
Variable verifierTypeURL : string.

(** [KeyMaterialType] returns the key material type of this key manager. *)
Definition KeyMaterialType : keydata.KeyMaterialType := ASYMMETRIC_PRIVATE.

(** [NewKeyData] creates a new KeyData; [rand] is [rand.Reader]. *)
Definition NewKeyData (rand : Randomness) (serializedKeyFormat : bytes)
    : result KeyData :=
  match NewKey GenerateKey rand serializedKeyFormat with
  | Ok key =>
      match MarshalPrivateKey key with
      | Ok serializedKey =>
          Ok {| TypeUrl := signerTypeURL;
                Value := serializedKey;
                KeyMaterialType_ := KeyMaterialType |}
      | Err _ => Err errInvalidSignKeyFormat
      | Panic => Panic
      end
  | Err err => Err err
  | Panic => Panic
  end.

(** [PublicKeyData] extracts the public key data from the private key. *)
Definition PublicKeyData (serializedPrivKey : bytes) : result KeyData :=
  match UnmarshalPrivateKey serializedPrivKey with
  | Ok privKey =>
      match MarshalPublicKey (PublicKey privKey) with
      | Ok serializedPubKey =>
          Ok {| TypeUrl := verifierTypeURL;
                Value := serializedPubKey;
                KeyMaterialType_ := ASYMMETRIC_PUBLIC |}
      | Err _ => Err errInvalidSignKey
      | Panic => Panic
      end
  | Err _ => Err errInvalidSignKey
  | Panic => Panic
  end.

End Manager.

(** *** A concrete encoding: the seed followed by the public key, for keys
    of version 0 with a seed of 32 bytes. *)
Definition toyUnmarshalPrivateKey (b : bytes) : result Ed25519PrivateKey :=
  if decide (length b < 32) then Err "proto: cannot parse invalid wire-format data"
  else Ok (newPrivateKey (drop 32 b) (take 32 b)).

Definition toyMarshalPrivateKey (key : Ed25519PrivateKey) : result bytes :=
  let b := KeyValue key ++ from_option PublicKeyValue [] (PublicKey key) in
  match toyUnmarshalPrivateKey b with
  | Ok decoded => if decide (decoded = key) then Ok b
                  else Err "proto: cannot encode"
  | _ => Err "proto: cannot encode"
  end.

Definition toyMarshalPublicKey (key : option Ed25519PublicKey) : result bytes :=
  Ok (from_option PublicKeyValue [] key).

End ed25519_keydata.


(** ** Facts about Go values *)

Module Go_props.

Lemma slice_Some (b : bytes) lo hi :
  lo <= hi <= length b -> slice b lo hi = Some (take (hi - lo) (drop lo b)).
Proof. intros H. unfold slice. by rewrite decide_True. Qed.

Lemma Z_of_byte_range b : (0 <= Z_of_byte b < 256)%Z.
Proof.
  unfold Z_of_byte. pose proof (Byte.to_N_bounded b). lia.
Qed.

Lemma Uint32_nonneg b v : Uint32 b = Some v -> (0 <= v)%Z.
Proof.
  destruct b as [|b0 [|b1 [|b2 [|b3 rest]]]]; try done. intros [= <-].
  pose proof (Z_of_byte_range b0). pose proof (Z_of_byte_range b1).
  pose proof (Z_of_byte_range b2). pose proof (Z_of_byte_range b3).
  repeat (apply Z.lor_nonneg; split); try apply Z.shiftl_nonneg; lia.
Qed.

Lemma Uint32_take4 (ct : bytes) :
  4 <= length ct -> Uint32 (take 4 ct) = Uint32 ct.
Proof.
  destruct ct as [|b0 [|b1 [|b2 [|b3 rest]]]]; simpl; try lia. done.
Qed.

Lemma Uint32_is_Some (ct : bytes) :
  4 <= length ct -> is_Some (Uint32 ct).
Proof.
  destruct ct as [|b0 [|b1 [|b2 [|b3 rest]]]]; simpl; try lia. eauto.
Qed.

End Go_props.


(** ** Properties of the deterministic-AEAD dispatcher *)

Module daead_props.

Import tinkpb primitiveset daead.

Lemma firstResult_app aad l1 l2 :
  firstResult aad (l1 ++ l2) =
  match firstResult aad l1 with
  | Some r => Some r
  | None => firstResult aad l2
  end.
Proof.
  induction l1 as [|a l1 IH]; simpl; [done|].
  destruct (run aad a); auto.
Qed.

Lemma tried_app aad l1 l2 :
  tried aad (l1 ++ l2) =
  match firstResult aad l1 with
  | Some _ => tried aad l1
  | None => tried aad l1 ++ tried aad l2
  end.
Proof.
  induction l1 as [|a l1 IH]; simpl; [done|].
  unfold run. destruct (Primitive a.1) as [p|]; [|done].
  destruct (tink.DecryptDeterministically p a.2 aad); try done.
  rewrite IH. by destruct (firstResult aad l1).
Qed.

Lemma decryptCalls_app tr1 tr2 :
  decryptCalls (tr1 ++ tr2) = decryptCalls tr1 ++ decryptCalls tr2.
Proof.
  induction tr1 as [|ev tr1 IH]; simpl; [done|].
  destruct ev; simpl; by rewrite ?IH.
Qed.

(** The loop computes the first result of its attempts and invokes exactly
    the primitives up to it. *)
Lemma tryEntries_spec entries c aad :
  (tryEntries entries c aad).2 = firstResult aad ((fun e => (e, c)) <$> entries)
  /\ decryptCalls (tryEntries entries c aad).1 =
     tried aad ((fun e => (e, c)) <$> entries).
Proof.
  induction entries as [|e entries [IHr IHc]]; simpl; [done|].
  unfold run; simpl.
  destruct (Primitive e) as [p|]; [|done].
  destruct (tink.DecryptDeterministically p c aad); try done.
  destruct (tryEntries entries c aad) as [tr r]; simpl in *.
  by rewrite IHr, IHc.
Qed.

Lemma EntriesForPrefix_Ok (s : PrimitiveSet) prefix :
  exists entries, EntriesForPrefix s prefix = Ok entries.
Proof. unfold EntriesForPrefix. destruct (Entries s !! prefix); eauto. Qed.

(** [DecryptDeterministically] is the consume operation of section 4.3. *)
Lemma Decrypt_consume d ct aad :
  (DecryptDeterministically d ct aad).2 = consume (ps d) ct aad
  /\ decryptCalls (DecryptDeterministically d ct aad).1 =
     tried aad (attempts (ps d) ct).
Proof.
  unfold DecryptDeterministically, consume, firstSuccess, attempts.
  rewrite firstResult_app, tried_app.
  unfold prefixAttempts, rawAttempts, cryptofmt.NonRawPrefixSize.
  destruct (EntriesForPrefix_Ok (ps d) (take 5 ct)) as [es1 ->].
  unfold RawEntries.
  destruct (EntriesForPrefix_Ok (ps d) []) as [es2 ->].
  destruct (tryEntries_spec es1 (drop 5 ct) aad) as [Hr1 Hc1].
  destruct (tryEntries_spec es2 ct aad) as [Hr2 Hc2].
  destruct (tryEntries es2 ct aad) as [tr2 r2]; simpl in *.
  case_decide as Hlen.
  - apply Nat.ltb_lt in Hlen as ->.
    destruct (tryEntries es1 (drop 5 ct) aad) as [tr1 r1]; simpl in *.
    rewrite <- Hr1, <- Hr2, <- Hc1, <- Hc2.
    destruct r1 as [r1|]; [done|].
    destruct r2 as [r2|]; simpl;
      rewrite ?decryptCalls_app; simpl; by rewrite ?app_nil_r.
  - apply Nat.ltb_nlt in Hlen as ->. simpl.
    rewrite <- Hr2, <- Hc2.
    destruct r2 as [r2|]; simpl;
      rewrite ?decryptCalls_app; simpl; by rewrite ?app_nil_r.
Qed.

Lemma firstResult_rejected aad l :
  forallb (rejects aad) l = true -> firstResult aad l = None.
Proof.
  induction l as [|a l IH]; simpl; [done|].
  unfold rejects at 1. intros [Ha Hl]%andb_true_iff.
  destruct (run aad a); try done. auto.
Qed.

Lemma Encrypt_result d pt aad primary p :
  Primary (ps d) = Some primary ->
  Primitive primary = Some p ->
  (EncryptDeterministically d pt aad).2 =
  match tink.EncryptDeterministically p pt aad with
  | Ok ct => Ok (Prefix primary ++ ct)
  | r => r
  end.
Proof.
  intros Hprimary Hp. unfold EncryptDeterministically.
  rewrite Hprimary, Hp.
  destruct (tink.EncryptDeterministically p pt aad) as [ct|err|]; simpl; try done.
  destruct (Prefix primary); done.
Qed.

Lemma Encrypt_calls d pt aad primary p :
  Primary (ps d) = Some primary ->
  Primitive primary = Some p ->
  encryptCalls (EncryptDeterministically d pt aad).1 = [(primary, pt, aad)]
  /\ decryptCalls (EncryptDeterministically d pt aad).1 = [].
Proof.
  intros Hprimary Hp. unfold EncryptDeterministically.
  rewrite Hprimary, Hp.
  by destruct (tink.EncryptDeterministically p pt aad).
Qed.

(** C1. When every attempt of the consume operation fails, whatever the
    reason (no entry for the candidate prefix, a key that rejects the
    payload, a tampered payload), [DecryptDeterministically] returns the
    one error [errDecryptionFailed]; two failing decryptions, of any two
    dispatchers on any two inputs, return the same error. *)
Theorem decrypt_failure_is_generic d1 ct1 aad1 d2 ct2 aad2 :
  forallb (rejects aad1) (attempts (ps d1) ct1) = true ->
  forallb (rejects aad2) (attempts (ps d2) ct2) = true ->
  (DecryptDeterministically d1 ct1 aad1).2 = Err errDecryptionFailed
  /\ (DecryptDeterministically d2 ct2 aad2).2 =
     (DecryptDeterministically d1 ct1 aad1).2.
Proof.
  intros H1 H2.
  rewrite (proj1 (Decrypt_consume d1 ct1 aad1)).
  rewrite (proj1 (Decrypt_consume d2 ct2 aad2)).
  unfold consume, firstSuccess.
  by rewrite (firstResult_rejected _ _ H1), (firstResult_rejected _ _ H2).
Qed.

(** A ciphertext of key 1 with a wrong tag (the payload is rejected by the
    key that the prefix names) and a ciphertext that names the unknown
    key 9 fail alike. *)
Lemma decrypt_failure_is_generic_witness :
  (DecryptDeterministically {| ps := twoKeys |}
     (Prefix (tinkEntry 1 identity) ++ [Byte.x07; Byte.x00]) []).2
  = Err errDecryptionFailed
  /\ (DecryptDeterministically {| ps := twoKeys |}
        (Prefix (tinkEntry 9 identity) ++ [Byte.x2a; Byte.x00]) []).2
     = (DecryptDeterministically {| ps := twoKeys |}
          (Prefix (tinkEntry 1 identity) ++ [Byte.x07; Byte.x00]) []).2.
Proof.
  apply (decrypt_failure_is_generic {| ps := twoKeys |} _ []
                                    {| ps := twoKeys |} _ []);
    vm_compute; reflexivity.
Defined.

(** C2. [DecryptDeterministically] is the consume operation of section
    4.3: exactly when the input is longer than 5 bytes the entries of
    [EntriesForPrefix] for its first 5 bytes are tried, in order, on the
    rest; then the entries of [RawEntries] are tried, in order, on the whole
    input; the first success is returned and no entry after it is tried. *)
Theorem decrypt_is_consume d ct aad :
  (DecryptDeterministically d ct aad).2 = consume (ps d) ct aad
  /\ decryptCalls (DecryptDeterministically d ct aad).1 =
     tried aad (attempts (ps d) ct)
  /\ (5 < length ct ->
      forall entries, EntriesForPrefix (ps d) (take 5 ct) = Ok entries ->
      prefixAttempts (ps d) ct = (fun e => (e, drop 5 ct)) <$> entries)
  /\ (length ct <= 5 -> prefixAttempts (ps d) ct = [])
  /\ (forall entries, RawEntries (ps d) = Ok entries ->
      rawAttempts (ps d) ct = (fun e => (e, ct)) <$> entries).
Proof.
  destruct (Decrypt_consume d ct aad) as [Hr Hc].
  repeat split; try done.
  - intros Hlen entries Hes. unfold prefixAttempts.
    rewrite decide_True by done. by rewrite Hes.
  - intros Hlen. unfold prefixAttempts. rewrite decide_False by lia. done.
  - intros entries Hes. unfold rawAttempts. by rewrite Hes.
Qed.

(** C3. [EncryptDeterministically] invokes the primitive of the primary
    entry, once, and no other; when the primitive succeeds the result is
    the primary's prefix followed by its output, which is the output itself
    when the prefix is empty; when it fails the result is its error. *)
Theorem encrypt_uses_primary_only d pt aad primary p :
  Primary (ps d) = Some primary ->
  Primitive primary = Some p ->
  encryptCalls (EncryptDeterministically d pt aad).1 = [(primary, pt, aad)]
  /\ decryptCalls (EncryptDeterministically d pt aad).1 = []
  /\ (forall ct,
       tink.EncryptDeterministically p pt aad = Ok ct ->
       (EncryptDeterministically d pt aad).2 = Ok (Prefix primary ++ ct)
       /\ (Prefix primary = [] ->
           (EncryptDeterministically d pt aad).2 = Ok ct))
  /\ (forall err,
       tink.EncryptDeterministically p pt aad = Err err ->
       (EncryptDeterministically d pt aad).2 = Err err).
Proof.
  intros Hprimary Hp.
  destruct (Encrypt_calls d pt aad _ _ Hprimary Hp) as [He Hd].
  pose proof (Encrypt_result d pt aad _ _ Hprimary Hp) as Hr.
  split; [exact He|]. split; [exact Hd|]. split.
  - intros ct Hct. rewrite Hr, Hct. split; [done|].
    by intros ->.
  - intros err Herr. by rewrite Hr, Herr.
Qed.

Lemma encrypt_uses_primary_only_witness :
  encryptCalls
    (EncryptDeterministically {| ps := twoKeys |} [Byte.x68; Byte.x69] []).1
  = [(tinkEntry 1 (keyed Byte.x2a), [Byte.x68; Byte.x69], [])]
  /\ (EncryptDeterministically {| ps := twoKeys |} [Byte.x68; Byte.x69] []).2
     = Ok [Byte.x01; Byte.x00; Byte.x00; Byte.x00; Byte.x01;
           Byte.x2a; Byte.x68; Byte.x69].
Proof.
  destruct (encrypt_uses_primary_only {| ps := twoKeys |}
              [Byte.x68; Byte.x69] [] (tinkEntry 1 (keyed Byte.x2a))
              (keyed Byte.x2a) eq_refl eq_refl) as (Hc & _ & Hok & _).
  split; [exact Hc|].
  exact (proj1 (Hok [Byte.x2a; Byte.x68; Byte.x69] eq_refl)).
Defined.

Lemma inverts_keyed k : inverts (keyed k).
Proof.
  intros m aad ct [= <-]. simpl. by rewrite decide_True.
Qed.

Lemma inverts_identity : inverts identity.
Proof. by intros m aad ct [= <-]. Qed.

Lemma prefix_length (e : Entry) prefix :
  entry_ok prefix e -> Prefix e = [] \/ length (Prefix e) = 5.
Proof.
  intros (_ & Hfmt & _).
  destruct (PrefixType e); simpl in Hfmt; try done;
    injection Hfmt as <-; auto.
Qed.

(** The primary's own attempt is among the attempts on what it
    produced. *)
Lemma primary_attempted s primary ct :
  valid s ->
  Primary s = Some primary ->
  (Prefix primary <> [] -> ct <> []) ->
  (primary, ct) ∈ attempts s (Prefix primary ++ ct).
Proof.
  intros [Hall (primary' & entries & i & Hprimary & Hentries & Hi)] Heq Hne.
  rewrite Heq in Hprimary. injection Hprimary as <-.
  assert (entry_ok (Prefix primary) primary) as Hok.
  { specialize (Hall _ _ Hentries). rewrite Forall_lookup in Hall. eauto. }
  assert (primary ∈ entries) as Hin by (apply list_elem_of_lookup; eauto).
  unfold attempts. apply elem_of_app.
  destruct (prefix_length _ _ Hok) as [Hnil|Hlen].
  - right. rewrite Hnil in *. simpl.
    unfold rawAttempts, RawEntries, EntriesForPrefix. rewrite Hentries.
    apply list_elem_of_fmap. eauto.
  - left. unfold prefixAttempts.
    assert (ct <> []) as Hct.
    { apply Hne. intros Hnil. by rewrite Hnil in Hlen. }
    rewrite decide_True.
    2:{ rewrite length_app, Hlen. destruct ct; [done|simpl; lia]. }
    rewrite take_app_length', drop_app_length' by done.
    unfold EntriesForPrefix. rewrite Hentries.
    apply list_elem_of_fmap. eauto.
Qed.

Lemma firstResult_own aad l a r :
  Forall (fun b => b = a \/ rejects aad b = true) l ->
  a ∈ l ->
  run aad a = r ->
  is_Err r = false ->
  firstResult aad l = Some r.
Proof.
  intros Hall Hin Hrun Hr.
  induction Hall as [|b l [->|Hb] Hall IH]; simpl.
  - by apply elem_of_nil in Hin.
  - rewrite Hrun. by destruct r.
  - unfold rejects in Hb. destruct (run aad b) eqn:Hrb; try done.
    apply IH. apply elem_of_cons in Hin as [->|]; [|done].
    rewrite Hrun in Hrb. by subst r.
Qed.

(** Section 8's round trip does not follow from the primitives inverting
    their own encryption alone. With a single TINK key whose primitive is
    the identity, the empty message is encrypted to the bare 5-byte prefix,
    which is not longer than 5 bytes and so is never tried with the key.
    With two RAW keys, the identity primitive declared first accepts what
    the primary produced and returns it with the primary's tag still on. *)
Lemma round_trip_needs_rejection :
  (valid oneKey /\ all_invert oneKey /\ ~ round_trip oneKey [] [])
  /\ (valid twoRaw /\ all_invert twoRaw
      /\ ~ round_trip twoRaw [Byte.x68; Byte.x69] []).
Proof.
  split; (split; [|split]).
  - split.
    + intros k es Hk. unfold oneKey in Hk. cbn [Entries] in Hk.
      apply lookup_singleton_Some in Hk as [<- <-].
      repeat constructor. by eexists.
    + exists (tinkEntry 1 identity), [tinkEntry 1 identity], 0. done.
  - intros k es Hk. unfold oneKey in Hk. cbn [Entries] in Hk.
    apply lookup_singleton_Some in Hk as [<- <-].
    repeat constructor. intros p [= <-]. apply inverts_identity.
  - intros Hrt. specialize (Hrt _ eq_refl). vm_compute in Hrt. done.
  - split.
    + intros k es Hk. unfold twoRaw in Hk. cbn [Entries] in Hk.
      apply lookup_singleton_Some in Hk as [<- <-].
      repeat constructor; by eexists.
    + exists (rawEntry 2 (keyed Byte.x2a)),
        [rawEntry 1 identity; rawEntry 2 (keyed Byte.x2a)], 1. done.
  - intros k es Hk. unfold twoRaw in Hk. cbn [Entries] in Hk.
    apply lookup_singleton_Some in Hk as [<- <-].
    repeat constructor; intros p [= <-];
      [apply inverts_identity | apply inverts_keyed].
  - intros Hrt. specialize (Hrt _ eq_refl). vm_compute in Hrt. done.
Qed.

(** An attempt that does not fail decides, when every attempt listed before
    it is the same attempt or is rejected. *)
Lemma firstResult_earlier aad l a r :
  (forall before after,
     l = before ++ a :: after ->
     Forall (fun b => b = a \/ rejects aad b = true) before) ->
  a ∈ l ->
  run aad a = r ->
  is_Err r = false ->
  firstResult aad l = Some r.
Proof.
  intros Hearlier Hin Hrun Hr.
  induction l as [|b l IH]; [by apply elem_of_nil in Hin|]. simpl.
  assert (b = a -> match run aad b with
                   | Err _ => firstResult aad l
                   | other => Some other
                   end = Some r) as Hown.
  { intros ->. rewrite Hrun. by destruct r. }
  apply elem_of_cons in Hin as [->|Hin]; [by apply Hown|].
  destruct (list_elem_of_split _ _ Hin) as (l1 & l2 & Hsplit).
  specialize (Hearlier (b :: l1) l2) as Hb. rewrite Hsplit in Hb.
  specialize (Hb eq_refl). apply Forall_cons in Hb as [[Heq|Hb] _];
    [by apply Hown|].
  unfold rejects in Hb. destruct (run aad b) eqn:Hrb; try done.
  apply IH; [|done]. intros before after Hl.
  specialize (Hearlier (b :: before) after). rewrite Hl in Hearlier.
  specialize (Hearlier eq_refl). by apply Forall_cons in Hearlier as [_ ?].
Qed.

(** C4 (amended). For a validly built primitive set, if the primary's
    primitive inverts its own encryption, its output for [m] is not empty
    when the primary has a prefix, and every attempt that the consume
    operation lists before the primary's own on the produced ciphertext is
    rejected with an error, then decrypting what [EncryptDeterministically]
    returns for [m] gives [m]. The attempts after the primary's own, which
    are never made, are free to accept. *)
Theorem round_trip_when_earlier_reject s m aad primary p ct :
  valid s ->
  Primary s = Some primary ->
  Primitive primary = Some p ->
  inverts p ->
  tink.EncryptDeterministically p m aad = Ok ct ->
  (Prefix primary <> [] -> ct <> []) ->
  (forall before after,
     attempts s (Prefix primary ++ ct) = before ++ (primary, ct) :: after ->
     Forall (fun a => a = (primary, ct) \/ rejects aad a = true) before) ->
  round_trip s m aad.
Proof.
  intros Hvalid Hprimary Hp Hinv Henc Hne Hearlier out.
  rewrite (Encrypt_result {| ps := s |} m aad _ _ Hprimary Hp), Henc.
  intros [= <-].
  rewrite (proj1 (Decrypt_consume _ _ _)). unfold consume, firstSuccess.
  simpl.
  erewrite firstResult_earlier; [done|exact Hearlier| | |done].
  - by apply primary_attempted.
  - unfold run. simpl. rewrite Hp. eauto.
Qed.

Lemma valid_lenientRaw : valid lenientRaw.
Proof.
  split.
  - intros k es Hk. unfold lenientRaw in Hk. cbn [Entries] in Hk.
    apply lookup_insert_Some in Hk as [[<- <-]|[_ Hk]].
    + repeat constructor. by eexists.
    + apply lookup_singleton_Some in Hk as [<- <-].
      repeat constructor. by eexists.
  - exists (tinkEntry 1 (keyed Byte.x2a)), [tinkEntry 1 (keyed Byte.x2a)], 0.
    done.
Qed.

(** The round trip holds with the TINK key 1 as primary although the RAW
    key 2 accepts every input: the RAW key comes after the primary's own
    attempt and is never tried. *)
Lemma round_trip_when_earlier_reject_witness :
  round_trip lenientRaw [Byte.x68; Byte.x69] [].
Proof.
  apply (round_trip_when_earlier_reject lenientRaw [Byte.x68; Byte.x69] []
           (tinkEntry 1 (keyed Byte.x2a)) (keyed Byte.x2a)
           [Byte.x2a; Byte.x68; Byte.x69]).
  - exact valid_lenientRaw.
  - reflexivity.
  - reflexivity.
  - exact (inverts_keyed Byte.x2a).
  - reflexivity.
  - intros _. discriminate.
  - intros before after Heq. vm_compute in Heq.
    destruct before as [|x [|y before]].
    + constructor.
    + injection Heq as <- _. constructor; [left; reflexivity|constructor].
    + injection Heq as _ _ Heq. by destruct before.
Defined.

End daead_props.


(** ** Properties of the JWT verifier dispatcher *)

Module jwt_props.

Import tinkpb primitiveset jwt.

Section Props.

Context {VerifiedJWT Validator Logger KeysetInfo : Type}.
Variable keyID : Z -> OutputPrefixType -> option string.

Abbreviation Entry := (primitiveset.Entry (@verifierWithKID VerifiedJWT Validator)).
Abbreviation PrimitiveSet :=
  (primitiveset.PrimitiveSet (@verifierWithKID VerifiedJWT Validator)).

Variable DoNothingLogger : Logger.
Variable KeysetInfoFromPrimitiveSet : PrimitiveSet -> result_of jwtError KeysetInfo.
Variable NewLogger : KeysetInfo -> string -> string -> result_of jwtError Logger.

Implicit Types (e : Entry) (l : list Entry) (order : list (bytes * list Entry)).

Lemma visited_inSet (s : PrimitiveSet) order e :
  range_order (Entries s) order -> e ∈ visited order <-> inSet s e.
Proof.
  intros Horder. unfold visited, inSet.
  rewrite list_elem_of_In, in_concat. split.
  - intros (entries & Hin & He).
    apply list_elem_of_In in Hin. apply list_elem_of_In in He.
    apply list_elem_of_fmap in Hin as ([prefix entries'] & -> & Hin).
    rewrite Horder in Hin. apply elem_of_map_to_list in Hin. eauto.
  - intros (prefix & entries & Hlook & He).
    exists entries. rewrite <- !list_elem_of_In. split; [|done].
    apply list_elem_of_fmap. exists (prefix, entries). split; [done|].
    rewrite Horder. by apply elem_of_map_to_list.
Qed.

Lemma verifyGroup_app compact validator l1 l2 ie :
  (verifyGroup keyID compact validator (l1 ++ l2) ie).2 =
  match (verifyGroup keyID compact validator l1 ie).2 with
  | inl r => inl r
  | inr ie' => (verifyGroup keyID compact validator l2 ie').2
  end.
Proof.
  revert ie. induction l1 as [|e l1 IH]; intros ie; simpl; [done|].
  destruct (verifyWith keyID compact validator e) as [jwt|err|]; try done.
  specialize (IH (if decide (err <> errJwtVerification) then Some err else ie)).
  destruct (verifyGroup keyID compact validator (l1 ++ l2) _) as [tr r].
  destruct (verifyGroup keyID compact validator l1 _) as [tr1 r1].
  done.
Qed.

(** The two nested loops are one loop over the visited entries. *)
Lemma verifyGroups_flat compact validator order ie :
  (verifyGroups keyID compact validator order ie).2 =
  (verifyGroup keyID compact validator (visited order) ie).2.
Proof.
  revert ie. induction order as [|[prefix s] order IH]; intros ie; [done|].
  unfold visited. simpl. rewrite verifyGroup_app.
  destruct (verifyGroup keyID compact validator s ie) as [tr [r|ie']]; [done|].
  simpl. specialize (IH ie').
  destruct (verifyGroups keyID compact validator order ie') as [tr' r'].
  done.
Qed.

(** When every attempt fails, the loop ends with [interestingErr] unchanged
    if all failures were the generic error, and otherwise set to the last
    failure that was not. *)
Lemma verifyGroup_failures compact validator l ie :
  Forall (fun e => is_Err (verifyWith keyID compact validator e) = true) l ->
  exists ie',
    (verifyGroup keyID compact validator l ie).2 = inr ie'
    /\ ((ie' = ie
         /\ Forall (fun e => verifyWith keyID compact validator e
                             = Err errJwtVerification) l)
        \/ (exists before e after err,
              l = before ++ e :: after
              /\ verifyWith keyID compact validator e = Err err
              /\ err <> errJwtVerification
              /\ ie' = Some err
              /\ Forall (fun e => verifyWith keyID compact validator e
                                  = Err errJwtVerification) after)).
Proof.
  intros Hall. revert ie.
  induction Hall as [|e l He Hall IH]; intros ie; simpl.
  - exists ie. split; [done|]. left. by split.
  - destruct (verifyWith keyID compact validator e) as [jwt|err|] eqn:Hrun;
      try done.
    destruct (IH (if decide (err <> errJwtVerification) then Some err else ie))
      as (ie' & Hres & Hcases).
    destruct (verifyGroup keyID compact validator l _) as [tr r].
    simpl in *. exists ie'. split; [done|].
    destruct Hcases as [[-> Hgen]|(before & e' & after & err' & -> & Hrun' & Hne & -> & Hafter)].
    + case_decide as Herr.
      * right. exists [], e, l, err. by repeat split.
      * left. split; [done|]. constructor; [|done]. congruence.
    + right. exists (e :: before), e', after, err'. by repeat split.
Qed.

Lemma checkPrimitives_None l :
  checkPrimitives l = None <->
  Forall (fun e => PrefixType e = RAW \/ PrefixType e = TINK) l.
Proof.
  induction l as [|e l IH]; simpl; [by split; [constructor|]|].
  rewrite Forall_cons, <- IH.
  destruct (PrefixType e); simpl; (split; [try done; tauto|]);
    try tauto; intros [[?|?] ?]; done.
Qed.

Lemma checkEntries_None order :
  checkEntries order = None <->
  Forall (fun e => PrefixType e = RAW \/ PrefixType e = TINK) (visited order).
Proof.
  unfold visited.
  induction order as [|[prefix l] order IH]; simpl; [by split; [constructor|]|].
  rewrite Forall_app, <- IH, <- checkPrimitives_None.
  destruct (checkPrimitives l); split; try done; tauto.
Qed.

(** C8. When no key of the set succeeds, [VerifyAndDecode] fails; the error
    is the generic [errJwtVerification] exactly when every attempt failed
    with it, and otherwise it is the error of an attempt that failed
    differently. *)
Theorem verify_error_is_generic_iff (w : @wrappedVerifier VerifiedJWT Validator Logger)
    order compact validator :
  range_order (Entries (ps w)) order ->
  (forall e, inSet (ps w) e ->
             is_Err (verifyWith keyID compact validator e) = true) ->
  exists err,
    (VerifyAndDecode keyID w order compact validator).2 = Err err
    /\ (err = errJwtVerification <->
        forall e, inSet (ps w) e ->
                  verifyWith keyID compact validator e = Err errJwtVerification)
    /\ (err <> errJwtVerification ->
        exists e, inSet (ps w) e
                  /\ verifyWith keyID compact validator e = Err err).
Proof.
  intros Horder Hfail.
  assert (Forall (fun e => is_Err (verifyWith keyID compact validator e) = true)
                 (visited order)) as Hall.
  { apply Forall_forall. intros e He. apply Hfail.
    by apply (visited_inSet _ order). }
  destruct (verifyGroup_failures compact validator _ None Hall)
    as (ie' & Hres & Hcases).
  rewrite <- verifyGroups_flat in Hres.
  unfold VerifyAndDecode.
  destruct (verifyGroups keyID compact validator order None) as [tr r].
  simpl in Hres. subst r.
  destruct Hcases as [[-> Hgen]|(before & e & after & err & Hl & Hrun & Hne & -> & Hafter)].
  - exists errJwtVerification. split; [done|]. split; [|done].
    split; [|done]. intros _ e He.
    rewrite Forall_forall in Hgen. apply Hgen.
    by apply (visited_inSet (ps w) order).
  - assert (inSet (ps w) e) as He.
    { apply (visited_inSet _ order); [done|].
      rewrite Hl. apply elem_of_app. right. apply elem_of_cons. by left. }
    exists err. split; [done|]. split.
    + split; [done|]. intros Hgen. specialize (Hgen e He). congruence.
    + intros _. eauto.
Qed.

(** C10. [newWrappedVerifier] fails when an entry of any prefix group has
    an output prefix type other than RAW and TINK, whatever the order in
    which the groups are visited; a verifier is only returned after every
    entry of every group has passed the check. *)
Theorem newWrappedVerifier_checks_every_entry (s : PrimitiveSet) order :
  range_order (Entries s) order ->
  ((exists e, inSet s e /\ PrefixType e <> RAW /\ PrefixType e <> TINK) ->
   exists err,
     newWrappedVerifier DoNothingLogger KeysetInfoFromPrimitiveSet NewLogger
                        s order = Err err)
  /\ (forall w,
        newWrappedVerifier DoNothingLogger KeysetInfoFromPrimitiveSet NewLogger
                           s order = Ok w ->
        ps w = s
        /\ forall e, inSet s e -> PrefixType e = RAW \/ PrefixType e = TINK).
Proof.
  intros Horder. unfold newWrappedVerifier.
  pose proof (checkEntries_None order) as Hcheck.
  destruct (checkEntries order) as [err|]; split.
  - eauto.
  - done.
  - intros (e & He & Hraw & Htink). exfalso.
    apply (visited_inSet _ order) in He; [|done].
    destruct Hcheck as [Hcheck _]. specialize (Hcheck eq_refl).
    rewrite Forall_forall in Hcheck. destruct (Hcheck e He); done.
  - intros w Hw.
    destruct (createVerifierLogger _ _ _ s) as [lg| |]; try done.
    injection Hw as <-. split; [done|]. intros e He.
    destruct Hcheck as [Hcheck _]. specialize (Hcheck eq_refl).
    rewrite Forall_forall in Hcheck. apply Hcheck.
    by apply (visited_inSet s order).
Qed.

End Props.

Lemma mixedSet_fails compact e :
  inSet mixedSet e -> is_Err (verifyWith noKid compact () e) = true.
Proof.
  intros (prefix & entries & Hlook & He).
  unfold mixedSet in Hlook. cbn [Entries] in Hlook.
  apply lookup_insert_Some in Hlook as [[_ <-]|[_ Hlook]].
  - by apply list_elem_of_singleton in He as ->.
  - apply lookup_singleton_Some in Hlook as [_ <-].
    by apply list_elem_of_singleton in He as ->.
Qed.

Lemma verify_error_is_generic_iff_witness :
  exists err,
    (VerifyAndDecode noKid {| ps := mixedSet; logger := () |}
                     (map_to_list (Entries mixedSet)) "a.b.c" ()).2 = Err err
    /\ (err = errJwtVerification <->
        forall e, inSet mixedSet e ->
                  verifyWith noKid "a.b.c" () e = Err errJwtVerification)
    /\ (err <> errJwtVerification ->
        exists e, inSet mixedSet e /\ verifyWith noKid "a.b.c" () e = Err err).
Proof.
  apply (verify_error_is_generic_iff noKid {| ps := mixedSet; logger := () |}
           (map_to_list (Entries mixedSet)) "a.b.c" ()).
  - unfold range_order. reflexivity.
  - exact (mixedSet_fails "a.b.c").
Defined.

Lemma newWrappedVerifier_checks_every_entry_witness :
  exists err,
    newWrappedVerifier () (fun _ => Ok ()) (fun _ _ _ => Ok ())
                       legacySet (map_to_list (Entries legacySet)) = Err err.
Proof.
  apply (newWrappedVerifier_checks_every_entry () (fun _ => Ok ())
           (fun _ _ _ => Ok ()) legacySet (map_to_list (Entries legacySet))).
  - unfold range_order. reflexivity.
  - exists (exampleEntry 2 LEGACY (Byte.x00 :: PutUint32 2) errJwtVerification).
    split; [|split; discriminate].
    exists (Byte.x00 :: PutUint32 2),
      [exampleEntry 2 LEGACY (Byte.x00 :: PutUint32 2) errJwtVerification].
    split; [by vm_compute | apply list_elem_of_here].
Defined.

End jwt_props.


(** ** Properties of the AES-GCM full AEAD *)

Module aesgcm_props.

Import aesgcm Go_props.

(** The three outcomes of [Decrypt]; the length check rules the panics
    out. *)
Lemma fullAEAD_Decrypt_cases a ct aad :
  Decrypt a ct aad =
  if decide (length ct < length (prefix a) + NonceSize (cipher a)
                         + Overhead (cipher a))
  then ([], Err (errTooShort (length ct)))
  else if decide (take (length (prefix a)) ct = prefix a)
  then ([CipherOpen [] (take (NonceSize (cipher a)) (drop (length (prefix a)) ct))
                       (drop (length (prefix a) + NonceSize (cipher a)) ct) aad],
        Open (cipher a) []
             (take (NonceSize (cipher a)) (drop (length (prefix a)) ct))
             (drop (length (prefix a) + NonceSize (cipher a)) ct) aad)
  else ([], Err errPrefixMismatch).
Proof.
  unfold Decrypt.
  destruct (decide (length ct < _)) as [|Hlen]; [done|].
  rewrite !slice_Some by lia.
  rewrite Nat.sub_0_r, drop_0.
  replace (length (prefix a) + NonceSize (cipher a) - length (prefix a))
    with (NonceSize (cipher a)) by lia.
  rewrite (take_ge (drop _ ct)) by (rewrite length_drop; lia).
  destruct (decide (take (length (prefix a)) ct = prefix a)) as [Heq|Hne].
  - rewrite bool_decide_eq_true_2 by done. simpl.
    rewrite length_drop.
    destruct (Z.ltb_spec (Z.of_nat (length ct - (length (prefix a)
                + NonceSize (cipher a))) - Z.of_nat (Overhead (cipher a))) 0);
      [lia|done].
  - by rewrite bool_decide_eq_false_2.
Qed.

Lemma NewAEAD_sizes go124 gcmOpen k a :
  NewAEAD go124 gcmOpen k = Ok a ->
  NonceSize (cipher a) = fips140.GCMNonceSize go124
  /\ Overhead (cipher a) = fips140.GCMOverhead go124
  /\ prefix a = OutputPrefix k.
Proof.
  unfold NewAEAD. repeat case_match; try done. intros [= <-].
  unfold NewGCM in *. simplify_eq. done.
Qed.

(** In either build the nonce and the overhead add up to 12 + 16 bytes. *)
Lemma GCM_sizes go124 :
  fips140.GCMNonceSize go124 + fips140.GCMOverhead go124 = 12 + 16.
Proof. by destruct go124. Qed.

(** C9. For a full AEAD made by [NewAEAD] from a key, in the build for Go
    before 1.24 and in the build for Go 1.24, the prefix is the key's output
    prefix, and [Decrypt] returns an error, without a call on the cipher, for
    every ciphertext shorter than [len(prefix) + 12 + 16] and for every
    ciphertext that does not start with the key's output prefix; the cipher
    is called only when the ciphertext is long enough and starts with the
    prefix, and then once, on the bytes after the prefix, split into nonce
    and ciphertext at the nonce size of the build. *)
Theorem fullAEAD_decrypt_guards go124 gcmOpen k a ct aad :
  NewAEAD go124 gcmOpen k = Ok a ->
  prefix a = OutputPrefix k
  /\ (length ct < length (OutputPrefix k) + 12 + 16
      \/ take (length (OutputPrefix k)) ct <> OutputPrefix k ->
      exists err, Decrypt a ct aad = ([], Err err))
  /\ ((Decrypt a ct aad).1 <> [] ->
      length (OutputPrefix k) + 12 + 16 <= length ct
      /\ take (length (OutputPrefix k)) ct = OutputPrefix k)
  /\ (length (OutputPrefix k) + 12 + 16 <= length ct ->
      take (length (OutputPrefix k)) ct = OutputPrefix k ->
      Decrypt a ct aad =
      ([CipherOpen [] (take (fips140.GCMNonceSize go124)
                            (drop (length (OutputPrefix k)) ct))
                   (drop (length (OutputPrefix k)
                          + fips140.GCMNonceSize go124) ct) aad],
       Open (cipher a) []
            (take (fips140.GCMNonceSize go124)
                  (drop (length (OutputPrefix k)) ct))
            (drop (length (OutputPrefix k) + fips140.GCMNonceSize go124) ct)
            aad)).
Proof.
  intros (Hiv & Htag & Hprefix)%NewAEAD_sizes.
  split; [done|].
  rewrite fullAEAD_Decrypt_cases, Hiv, Htag, Hprefix.
  pose proof (GCM_sizes go124) as Hsizes.
  destruct (decide (length ct < _)) as [Hlen|Hlen];
    [|destruct (decide (take (length (OutputPrefix k)) ct = OutputPrefix k))
        as [Heq|Hne]].
  - split; [eauto|]. split; [done|]. intros. lia.
  - split; [|split; [|done]].
    + intros [?|?]; [lia|done].
    + intros _. split; [lia|done].
  - split; [eauto|]. split; done.
Qed.

(** In the build for Go 1.24 a ciphertext of two bytes is rejected by the
    key with the TINK prefix of key id 1. *)
Lemma fullAEAD_decrypt_guards_witness :
  exists a,
    NewAEAD true rejectAll zeroKey = Ok a
    /\ prefix a = OutputPrefix zeroKey
    /\ exists err, Decrypt a [Byte.x01; Byte.x00] [] = ([], Err err).
Proof.
  eexists. split; [reflexivity|].
  destruct (fullAEAD_decrypt_guards true rejectAll zeroKey _
              [Byte.x01; Byte.x00] [] eq_refl) as (Hprefix & Hreject & _).
  split; [exact Hprefix|]. apply Hreject. left. simpl. lia.
Defined.

End aesgcm_props.


Module kmsenvelope_props.

Import kmsenvelope Go_props.

(** What [Decrypt] does, without the checked slices. *)
Lemma envelope_Decrypt_cases a ct aad :
  Decrypt a ct aad =
  match declaredLength ct with
  | None => Err errInvalidCiphertext
  | Some n =>
      if decide (maxLengthEncryptedDEK a < n
                 \/ Z.of_nat (length ct) - 4 < n)%Z
      then Err errDEKTooLarge
      else
        letR dek := tink.Decrypt (remote a) (take (Z.to_nat n) (drop 4 ct)) [] in
        letR primitive := newDEKPrimitive a dek in
        tink.Decrypt primitive (drop (4 + Z.to_nat n) ct) aad
  end.
Proof.
  unfold Decrypt, declaredLength, lenDEK.
  destruct (decide (length ct < 4)) as [Hshort|Hlong].
  - destruct ct as [|b0 [|b1 [|b2 [|b3 rest]]]]; simpl in *; try done; lia.
  - rewrite slice_Some by lia.
    rewrite Nat.sub_0_r, drop_0. cbn [lift bind].
    rewrite Uint32_take4 by lia.
    destruct (Uint32_is_Some ct) as [n Hn]; [lia|]. rewrite Hn.
    cbn [lift bind].
    pose proof (Uint32_nonneg _ _ Hn).
    change (Z.of_nat 4) with 4%Z.
    destruct (decide (_ \/ _)) as [|Hfits]; [done|].
    rewrite !slice_Some by lia. cbn [lift bind].
    replace (4 + Z.to_nat n - 4) with (Z.to_nat n) by lia.
    rewrite (take_ge (drop (4 + Z.to_nat n) ct)) by (rewrite length_drop; lia).
    done.
Qed.

Lemma declaredLength_short (ct : bytes) :
  length ct < 4 -> declaredLength ct = None.
Proof.
  destruct ct as [|b0 [|b1 [|b2 [|b3 rest]]]]; simpl; try done; lia.
Qed.

(** C7. [Decrypt] returns an error for an input that is shorter
    than the 4-byte length prefix, and for an input whose big-endian length
    prefix declares an encrypted DEK longer than the rest of the input or
    longer than the maximum; none of its own slice expressions goes out of
    bounds: it panics only if one of the primitives it calls does. *)
Theorem envelope_rejects_bad_length a ct aad :
  (length ct < 4 -> exists err, Decrypt a ct aad = Err err)
  /\ (forall n,
        declaredLength ct = Some n ->
        (Z.of_nat (length ct) - 4 < n \/ maxLengthEncryptedDEK a < n)%Z ->
        exists err, Decrypt a ct aad = Err err)
  /\ (Decrypt a ct aad = Panic ->
      (exists c, tink.Decrypt (remote a) c [] = Panic)
      \/ (exists dek, newDEKPrimitive a dek = Panic)
      \/ (exists dek primitive c,
            newDEKPrimitive a dek = Ok primitive
            /\ tink.Decrypt primitive c aad = Panic)).
Proof.
  rewrite envelope_Decrypt_cases. split; [|split].
  - intros Hshort. rewrite declaredLength_short by done. eauto.
  - intros n -> Hbad. rewrite decide_True by tauto. eauto.
  - destruct (declaredLength ct) as [n|]; [|done].
    destruct (decide (_ \/ _)); [done|].
    destruct (tink.Decrypt (remote a) _ []) as [dek| |] eqn:Hkek;
      cbn [bind]; [|done|eauto].
    destruct (newDEKPrimitive a dek) as [primitive| |] eqn:Hdek;
      cbn [bind]; [|done|eauto].
    intros Hpanic. right. right. eauto.
Qed.

(** The inputs of the tests [TestKMSEnvelopeShortCiphertext] and
    [TestKMSEnvelopeDecryptHugeEncryptedDek]: one byte, and eleven bytes
    0x88, which declare an encrypted DEK of 0x88888888 bytes. *)
Lemma envelope_rejects_bad_length_witness :
  (exists err, Decrypt plainEnvelope [Byte.x01] [] = Err err)
  /\ (exists err,
        Decrypt plainEnvelope (replicate 11 Byte.x88) [] = Err err).
Proof.
  split.
  - apply (proj1 (envelope_rejects_bad_length plainEnvelope [Byte.x01] [])).
    simpl. lia.
  - apply (proj1 (proj2 (envelope_rejects_bad_length plainEnvelope
                           (replicate 11 Byte.x88) [])) 2290649224%Z).
    + reflexivity.
    + simpl. lia.
Defined.

End kmsenvelope_props.


(** ** Properties of the segmented stream codec *)

Module streamingaead_props.

Import streamingaead.

Definition settled (s : ReaderState) : Prop := s = Done \/ s = Failed.

Lemma readSteps_settled c fuel r :
  settled (rstate r) -> readSteps c fuel r = r.
Proof.
  intros Hs. induction fuel as [|fuel IH]; simpl; [done|].
  assert (readStep c r = r) as ->; [|done].
  unfold readStep. by destruct Hs as [-> | ->].
Qed.

Lemma readSteps_S c fuel r :
  readSteps c (S fuel) r = readSteps c fuel (readStep c r).
Proof. done. Qed.

Lemma readStep_header c aad ct :
  headerLength c <= length ct ->
  readStep c (NewReader aad ct) =
  {| rstate := Streaming 0; rheader := take (headerLength c) ct; raad := aad;
     source := drop (headerLength c) ct; delivered := [] |}.
Proof.
  intros Hlen. unfold readStep. simpl. by rewrite decide_False by lia.
Qed.

(** While streaming, the reader settles within one step for every byte
    left. *)
Lemma streaming_settles c fuel r i :
  (forall j, 0 < segmentLength c j) ->
  rstate r = Streaming i ->
  length (source r) < fuel ->
  settled (rstate (readSteps c fuel r)).
Proof.
  intros Hpos. revert r i.
  induction fuel as [|fuel IH]; intros r i Hst Hlen; [lia|].
  rewrite readSteps_S. unfold readStep. rewrite Hst.
  destruct (openSegment c _ _ _ _) as [pt|].
  - case_bool_decide as Hlast.
    + rewrite readSteps_settled; simpl; by left.
    + eapply IH; [done|]. simpl. rewrite length_drop.
      specialize (Hpos i). lia.
  - rewrite readSteps_settled; simpl; by right.
Qed.

(** [Decrypt] gives the reader steps enough to settle. *)
Lemma Decrypt_settles c aad ct :
  (forall j, 0 < segmentLength c j) ->
  settled (rstate (readSteps c (2 + length ct) (NewReader aad ct))).
Proof.
  intros Hpos. change (2 + length ct) with (S (S (length ct))).
  rewrite readSteps_S.
  destruct (decide (length ct < headerLength c)) as [Hshort|Hlong].
  - unfold readStep. simpl. rewrite decide_True by done.
    rewrite readSteps_settled; simpl; by right.
  - rewrite readStep_header by lia.
    eapply streaming_settles; [done..|]. simpl. rewrite length_drop. lia.
Qed.

Lemma validConfig_positive c j : validConfig c -> 0 < segmentLength c j.
Proof. unfold validConfig. destruct j; simpl; lia. Qed.

(** C6. Encrypting the empty plaintext, with no write at all or with a
    write of no bytes, gives the header, once, followed by one segment, the
    empty plaintext sealed as the last segment with number 0; decrypting that
    stream gives the empty plaintext. *)
Theorem empty_stream c header aad :
  validConfig c ->
  length header = headerLength c ->
  (forall n pt,
     openSegment c header n aad (sealSegment c header n aad pt) = Some pt) ->
  (forall n pt, length (sealSegment c header n aad pt) = length pt + tagSize c) ->
  Encrypt c header aad [] =
    Ok (header ++ sealSegment c header
                    (nonce (noncePrefixOf c header) 0 true) aad [])
  /\ Encrypt c header aad [[]] = Encrypt c header aad []
  /\ Decrypt c aad (header ++ sealSegment c header
                      (nonce (noncePrefixOf c header) 0 true) aad [])
     = Ok [].
Proof.
  intros Hvalid Hheader Hopen Hlen. split; [done|]. split; [done|].
  unfold validConfig in Hvalid.
  unfold Decrypt. change (2 + ?n) with (S (S n)).
  rewrite readSteps_S, readStep_header by (rewrite length_app; lia).
  rewrite <- Hheader, take_app_length, drop_app_length.
  rewrite readSteps_S. unfold readStep. simpl.
  rewrite bool_decide_eq_true_2 by (rewrite Hlen; simpl; lia).
  rewrite take_ge by (rewrite Hlen; simpl; lia).
  rewrite Hopen. by rewrite readSteps_settled by (by left).
Qed.

Lemma toyCodec_opens header n aad pt :
  openSegment toyCodec header n aad (sealSegment toyCodec header n aad pt)
  = Some pt.
Proof.
  simpl. rewrite reverse_app. simpl.
  rewrite reverse_involutive. by rewrite decide_True.
Qed.

Lemma empty_stream_witness :
  Decrypt toyCodec [Byte.xaa; Byte.xbb]
          (replicate 8 Byte.x07 ++
           sealSegment toyCodec (replicate 8 Byte.x07)
             (nonce (noncePrefixOf toyCodec (replicate 8 Byte.x07)) 0 true)
             [Byte.xaa; Byte.xbb] [])
  = Ok [].
Proof.
  apply (empty_stream toyCodec (replicate 8 Byte.x07) [Byte.xaa; Byte.xbb]).
  - unfold validConfig. simpl. lia.
  - reflexivity.
  - intros n pt. apply toyCodec_opens.
  - intros n pt. simpl. rewrite length_app. simpl. lia.
Defined.

End streamingaead_props.


(** ** Properties of the ECIES public key serialization *)

Module ecies_props.

Import tinkpb ecies.

Lemma bigEndian_zeros n b :
  bigEndian (replicate n Byte.x00 ++ b) = bigEndian b.
Proof.
  unfold bigEndian. rewrite foldl_app. f_equal.
  induction n as [|n IH]; simpl; [done|]. exact IH.
Qed.

Lemma firstNonZero_None padding i :
  firstNonZero padding i = None <-> padding = replicate (length padding) Byte.x00.
Proof.
  revert i. induction padding as [|b rest IH]; intros i; simpl; [done|].
  destruct (decide (b <> Byte.x00)) as [Hb|Hb].
  - split; [done|]. intros [= Heq _]. done.
  - apply dec_stable in Hb. subst b. rewrite IH. split; [by intros <-|].
    by intros [= Heq].
Qed.

Lemma firstNonZero_Some padding i j :
  firstNonZero padding i = Some j ->
  i <= j < i + length padding
  /\ exists b, padding !! (j - i) = Some b /\ b <> Byte.x00.
Proof.
  revert i. induction padding as [|b rest IH]; intros i; simpl; [done|].
  destruct (decide (b <> Byte.x00)) as [Hb|Hb].
  - intros [= <-]. split; [lia|]. rewrite Nat.sub_diag. eauto.
  - intros Hj. destruct (IH _ Hj) as [Hrange (b' & Hlook & Hb')].
    split; [lia|]. exists b'. split; [|done].
    replace (j - i) with (S (j - S i)) by lia. done.
Qed.

(** What a successful padding returns. *)
Lemma pad_Ok_inv b size out :
  padBigIntBytesToFixedSizeBuffer b size = Ok out ->
  length b <= size /\ out = replicate (size - length b) Byte.x00 ++ b.
Proof.
  unfold padBigIntBytesToFixedSizeBuffer.
  destruct (decide (size < length b)) as [Hlong|Hfits]; [done|].
  destruct (decide (length b = size)) as [Heq|Hne]; intros [= <-].
  - split; [lia|]. by rewrite Heq, Nat.sub_diag.
  - split; [lia|done].
Qed.

(** Padding never panics, and succeeds on every input that fits. *)
Lemma pad_fits b size :
  length b <= size ->
  padBigIntBytesToFixedSizeBuffer b size
  = Ok (replicate (size - length b) Byte.x00 ++ b).
Proof.
  intros Hle. unfold padBigIntBytesToFixedSizeBuffer.
  rewrite decide_False by lia.
  destruct (decide (length b = size)) as [Heq|Hne]; [|done].
  by rewrite Heq, Nat.sub_diag.
Qed.

(** Zero bytes in front of a byte string are removed down to its length. *)
Lemma remove_zeros n b :
  removeLeftPaddingFromBigInt (replicate n Byte.x00 ++ b) (length b) = Ok b.
Proof.
  unfold removeLeftPaddingFromBigInt.
  rewrite length_app, length_replicate.
  destruct (decide (n + length b <= length b)) as [Hshort|Hlong].
  - by replace n with 0 by lia.
  - replace (n + length b - length b) with n by lia.
    rewrite take_app_length' by (by rewrite length_replicate).
    assert (firstNonZero (replicate n Byte.x00) 0 = None) as ->.
    { apply firstNonZero_None. by rewrite length_replicate. }
    by rewrite drop_app_length' by (by rewrite length_replicate).
Qed.

(** What a successful removal of padding returns. *)
Lemma remove_Ok_inv v size out :
  removeLeftPaddingFromBigInt v size = Ok out ->
  bigEndian out = bigEndian v
  /\ (length v <= size -> out = v)
  /\ (size < length v -> out = drop (length v - size) v
                         /\ length out = size).
Proof.
  unfold removeLeftPaddingFromBigInt.
  destruct (decide (length v <= size)) as [Hshort|Hlong].
  - intros [= <-]. split; [done|]. split; [done|lia].
  - destruct (firstNonZero _ 0) as [j|] eqn:Hscan; [done|].
    apply firstNonZero_None in Hscan. rewrite length_take in Hscan.
    intros [= <-]. split; [|split; [lia|]].
    + pose proof (take_drop (length v - size) v) as Hsplit.
      rewrite Hscan in Hsplit.
      rewrite <- (bigEndian_zeros ((length v - size) `min` length v)
                    (drop (length v - size) v)).
      by rewrite Hsplit.
    + intros _. split; [done|]. rewrite length_drop. lia.
Qed.

(** The conversions that serialization applies are undone by the ones that
    parsing applies. *)
Lemma curveTypeFromProto_inverts c p :
  protoCurveFromCurveType c = (p, None) -> curveTypeFromProto p = (c, None).
Proof. destruct c; intros [= <-]; done. Qed.

Lemma hashTypeFromProto_inverts h p :
  protoHashTypeFromHashType h = (p, None) -> hashTypeFromProto p = (h, None).
Proof. destruct h; intros [= <-]; done. Qed.

Lemma variantFromProto_inverts v t :
  protoOutputPrefixTypeFromVariant v = (t, None) ->
  variantFromProto t = (v, None).
Proof. destruct v; intros [= <-]; done. Qed.

Lemma pointFormatFromProto_inverts f p :
  protoEcPointFormatFromPointFormat f = (p, None) ->
  pointFormatFromProtoPointFormat p =
  (if decide (f = UnspecifiedPointFormat) then CompressedPointFormat else f,
   None).
Proof. destruct f; intros [= <-]; done. Qed.

(** X1. [padBigIntBytesToFixedSizeBuffer] fails exactly when the input is
    longer than the size; otherwise its result has exactly [size] bytes, is
    the input behind zeros, and denotes the same integer. *)
Theorem pad_fixed_size b size :
  (is_Err (padBigIntBytesToFixedSizeBuffer b size) = true <-> size < length b)
  /\ forall out,
       padBigIntBytesToFixedSizeBuffer b size = Ok out ->
       length out = size
       /\ out = replicate (size - length b) Byte.x00 ++ b
       /\ bigEndian out = bigEndian b.
Proof.
  unfold padBigIntBytesToFixedSizeBuffer.
  destruct (decide (size < length b)) as [Hlong|Hfits];
    [|destruct (decide (length b = size)) as [Heq|Hne]]; simpl.
  - split; [done|]. done.
  - split; [split; [done|lia]|]. intros out [= <-].
    rewrite Heq, Nat.sub_diag. done.
  - split; [split; [done|lia]|]. intros out [= <-].
    rewrite length_app, length_replicate, bigEndian_zeros.
    split; [lia|done].
Qed.

(** X2. [removeLeftPaddingFromBigInt] fails exactly when the input is longer
    than the size and one of the bytes in front of its last [size] bytes is
    not zero; otherwise its result denotes the same integer as the input, is
    the input itself when that has at most [size] bytes, and its last [size]
    bytes when it has more. *)
Theorem remove_padding_keeps_value v size :
  (is_Err (removeLeftPaddingFromBigInt v size) = true <->
   exists i b, i < length v - size /\ v !! i = Some b /\ b <> Byte.x00)
  /\ forall out,
       removeLeftPaddingFromBigInt v size = Ok out ->
       bigEndian out = bigEndian v
       /\ (length v <= size -> out = v)
       /\ (size < length v -> out = drop (length v - size) v
                              /\ length out = size).
Proof.
  unfold removeLeftPaddingFromBigInt.
  destruct (decide (length v <= size)) as [Hshort|Hlong].
  - split.
    + split; [done|]. intros (i & b & Hi & _). lia.
    + intros out [= <-]. split; [done|]. split; [done|lia].
  - destruct (firstNonZero _ 0) as [j|] eqn:Hscan.
    + split; [|done]. split; [|done]. intros _.
      apply firstNonZero_Some in Hscan as [Hrange (b & Hlook & Hb)].
      rewrite Nat.sub_0_r in Hlook. rewrite length_take in Hrange.
      exists j, b. split; [lia|]. split; [|done].
      rewrite lookup_take_lt in Hlook by lia. done.
    + apply firstNonZero_None in Hscan. rewrite length_take in Hscan.
      split.
      * split; [done|]. intros (i & b & Hi & Hlook & Hb). exfalso.
        assert (take (length v - size) v !! i = Some b) as Htake
          by (by rewrite lookup_take_lt).
        rewrite Hscan in Htake. apply lookup_replicate in Htake as [-> _].
        done.
      * intros out [= <-]. split; [|split; [lia|]].
        -- pose proof (take_drop (length v - size) v) as Hsplit.
           rewrite Hscan in Hsplit.
           rewrite <- (bigEndian_zeros ((length v - size) `min` length v)
                         (drop (length v - size) v)).
           by rewrite Hsplit.
        -- intros _. split; [done|]. rewrite length_drop. lia.
Qed.

(** X3. A byte string of [m] bytes that is padded to [n >= m] bytes is
    recovered by removing the padding down to [m] bytes: the extra leading
    zero byte that serialization adds to a coordinate is tolerated by
    parsing. *)
Theorem pad_then_remove b m n :
  length b = m ->
  m <= n ->
  exists padded,
    padBigIntBytesToFixedSizeBuffer b n = Ok padded
    /\ removeLeftPaddingFromBigInt padded m = Ok b.
Proof.
  intros <- Hle. eexists. split; [by apply pad_fits|]. apply remove_zeros.
Qed.

Lemma pad_then_remove_witness :
  exists padded,
    padBigIntBytesToFixedSizeBuffer [Byte.x7f; Byte.x00; Byte.x01] 4 = Ok padded
    /\ removeLeftPaddingFromBigInt padded 3 = Ok [Byte.x7f; Byte.x00; Byte.x01].
Proof.
  apply (pad_then_remove [Byte.x7f; Byte.x00; Byte.x01] 3 4); [reflexivity|lia].
Defined.

(** X4. The curve types and the hash types of the package and of the
    protobuf messages are translated back and forth without loss: each
    conversion that succeeds is undone by the opposite conversion. *)
Theorem curve_and_hash_conversions_invert :
  (forall c p, protoCurveFromCurveType c = (p, None) ->
               curveTypeFromProto p = (c, None))
  /\ (forall p c, curveTypeFromProto p = (c, None) ->
                  protoCurveFromCurveType c = (p, None))
  /\ (forall h p, protoHashTypeFromHashType h = (p, None) ->
                  hashTypeFromProto p = (h, None))
  /\ (forall p h, hashTypeFromProto p = (h, None) ->
                  protoHashTypeFromHashType h = (p, None)).
Proof.
  repeat split.
  - intros [] p [= <-]; done.
  - intros [] c [= <-]; done.
  - intros [] p [= <-]; done.
  - intros [] h [= <-]; done.
Qed.

(** X5. The variant and the point format survive serialization followed by
    parsing, except that the unspecified point format comes back as the
    compressed one; in the other direction the output prefix type and the
    protobuf point format survive, except that LEGACY comes back as
    CRUNCHY. *)
Theorem variant_and_point_format_conversions :
  (forall v t, protoOutputPrefixTypeFromVariant v = (t, None) ->
               variantFromProto t = (v, None))
  /\ (forall t v, variantFromProto t = (v, None) ->
                  protoOutputPrefixTypeFromVariant v =
                  (if decide (t = LEGACY) then CRUNCHY else t, None))
  /\ (forall f p, protoEcPointFormatFromPointFormat f = (p, None) ->
                  pointFormatFromProtoPointFormat p =
                  (if decide (f = UnspecifiedPointFormat)
                   then CompressedPointFormat else f, None))
  /\ (forall p f, pointFormatFromProtoPointFormat p = (f, None) ->
                  protoEcPointFormatFromPointFormat f = (p, None)).
Proof.
  repeat split.
  - intros [] t [= <-]; done.
  - intros [] v [= <-]; done.
  - intros [] p [= <-]; done.
  - intros [] f [= <-]; done.
Qed.

End ecies_props.


(** ** Properties of the serializer and the parser of ECIES public keys *)

Module ecies_keys_props.

Import tinkpb keydata eciespb ecies GoErr ecies_keys ecies_props.

Lemma bindE_Ok_inv {E A B} (r : result_of E A) (k : A -> result_of E B) b :
  bindE r k = Ok b -> exists a, r = Ok a /\ k a = Ok b.
Proof. destruct r; simpl; [eauto|done..]. Qed.

Lemma check_Ok_inv {A} (p : A * option error) a :
  check p = Ok a -> p = (a, None).
Proof.
  destruct p as [a' [err|]]; unfold check; simpl; [done|]. by intros [= ->].
Qed.

(** The coordinate that serialization pads is recovered by parsing. *)
Lemma pad_remove (b padded : bytes) m :
  length b = m ->
  padBigIntBytesToFixedSizeBuffer b (m + 1) = Ok padded ->
  removeLeftPaddingFromBigInt padded m = Ok b.
Proof.
  intros <- [_ ->]%pad_Ok_inv. apply remove_zeros.
Qed.

Lemma coordinateSize_NIST c n :
  coordinateSizeForCurve c = (n, None) ->
  c <> X25519 /\ (c = NISTP256 \/ c = NISTP384 \/ c = NISTP521).
Proof. destruct c; intros [= <-]; split; auto; done. Qed.

Section Props.

Context {DEMParameters : Type}.
Variable SerializeParameters : DEMParameters -> result KeyTemplate.
Variable ParseParameters : option KeyTemplate -> result DEMParameters.
Variable Marshal : EciesAeadHkdfPublicKey -> result bytes.
Variable Unmarshal : bytes -> result EciesAeadHkdfPublicKey.
Variable NewKeySerialization :
  KeyData -> OutputPrefixType -> Z -> result KeySerialization.
Variable NewParameters :
  @ParametersOpts DEMParameters -> result (@Parameters DEMParameters).
Variable NewPublicKey :
  bytes -> Z -> @Parameters DEMParameters -> result (@PublicKey DEMParameters).

(** What [protoCoordinates] returns for a point is turned back into the
    point by the parser. *)
Lemma protoCoordinates_inv c pkb x y :
  protoCoordinates c pkb = Ok (x, y) ->
  (c = X25519 /\ x = pkb)
  \/ (exists n, coordinateSizeForCurve c = (n, None)
                /\ exists x' y',
                     removeLeftPaddingFromBigInt x n = Ok x'
                     /\ removeLeftPaddingFromBigInt y n = Ok y'
                     /\ pkb = [Byte.x04] ++ x' ++ y'
                     /\ length pkb = 2 * n + 1).
Proof.
  unfold protoCoordinates. intros Hxy.
  destruct (decide (c = X25519)) as [->|Hc].
  { left. by injection Hxy as <- _. }
  right.
  assert (exists n, coordinateSizeForCurve c = (n, None)) as [n Hn].
  { destruct c; try done; eauto. }
  exists n. split; [done|].
  assert (check (coordinateSizeForCurve c) = Ok n) as Hcheck by (by rewrite Hn).
  assert ((letE coordinateSize := check (coordinateSizeForCurve c) in
           if decide (length pkb <> 2 * coordinateSize + 1) then
             Err "public key point has invalid coordinate size"
           else
             match pkb with
             | [] => Panic
             | first :: xy =>
                 if decide (first <> Byte.x04) then
                   Err "public key has invalid 1st byte"
                 else
                   letE x := padBigIntBytesToFixedSizeBuffer
                               (take coordinateSize xy) (coordinateSize + 1) in
                   letE y := padBigIntBytesToFixedSizeBuffer
                               (drop coordinateSize xy) (coordinateSize + 1) in
                   Ok (x, y)
             end) = Ok (x, y)) as Hbody.
  { destruct c; try done. }
  clear Hxy. rewrite Hcheck in Hbody. cbn [bindE] in Hbody.
  destruct (decide (length pkb <> 2 * n + 1)) as [|Hlen]; [done|].
  apply dec_stable in Hlen.
  destruct pkb as [|first xy]; [done|].
  destruct (decide (first <> Byte.x04)) as [|Hfirst]; [done|].
  apply dec_stable in Hfirst. subst first.
  apply bindE_Ok_inv in Hbody as (x0 & Hx & Hbody).
  apply bindE_Ok_inv in Hbody as (y0 & Hy & Hbody).
  injection Hbody as -> ->.
  simpl in Hlen.
  exists (take n xy), (drop n xy). split; [|split; [|split]].
  - apply pad_remove; [|done]. rewrite length_take. lia.
  - apply pad_remove; [|done]. rewrite length_drop. lia.
  - simpl. by rewrite take_drop.
  - simpl. lia.
Qed.

(** X6. A well-formed ECIES public key (one that [NewPublicKey] makes from
    its own bytes, id and parameters, the parameters being what
    [NewParameters] makes from their own options, with the point format
    unspecified exactly for X25519) that [SerializeKey] serializes is
    returned by [ParseKey] from the serialization, provided protobuf decoding
    inverts encoding, the DEM parameter parser inverts the DEM parameter
    serializer, and a key serialization holds what it was made from. *)
Theorem SerializeKey_then_ParseKey k params ks :
  (forall m b, Marshal m = Ok b -> Unmarshal b = Ok m) ->
  (forall d t, SerializeParameters d = Ok t -> ParseParameters (Some t) = Ok d) ->
  (forall kd t id s,
     NewKeySerialization kd t id = Ok s ->
     ksKeyData s = kd /\ ksOutputPrefixType s = t /\ (ksIDRequirement s).1 = id) ->
  KeyParameters k = Some params ->
  (pCurveType params = X25519 <->
   pNISTCurvePointFormat params = UnspecifiedPointFormat) ->
  NewParameters (optsOf params) = Ok params ->
  NewPublicKey (PublicKeyBytes k) (IDRequirement k).1 params = Ok k ->
  SerializeKey SerializeParameters Marshal NewKeySerialization (PublicKeyOf k)
    = Ok ks ->
  ParseKey ParseParameters Unmarshal NewParameters NewPublicKey (Some ks)
    = Ok (PublicKeyOf k).
Proof.
  intros HMarshal HDEM HNewKS Hparams Hformat HNewParameters HNewPublicKey.
  unfold SerializeKey. rewrite Hparams.
  intros (pp & Hpp & Hser)%bindE_Ok_inv.
  apply bindE_Ok_inv in Hser as ([x y] & Hxy & Hser).
  apply bindE_Ok_inv in Hser as (serialized & Hm & Hser).
  apply bindE_Ok_inv in Hser as (opt & Hopt%check_Ok_inv & Hser).
  apply HNewKS in Hser as (HkeyData & Hprefix & Hid).
  apply HMarshal in Hm.
  unfold createProtoECIESParams in Hpp.
  apply bindE_Ok_inv in Hpp as (pc & Hpc%check_Ok_inv & Hpp).
  apply bindE_Ok_inv in Hpp as (ph & Hph%check_Ok_inv & Hpp).
  apply bindE_Ok_inv in Hpp as (dem & Hdem & Hpp).
  apply bindE_Ok_inv in Hpp as (pf & Hpf%check_Ok_inv & Hpp).
  injection Hpp as <-.
  apply curveTypeFromProto_inverts in Hpc.
  apply hashTypeFromProto_inverts in Hph.
  apply variantFromProto_inverts in Hopt.
  apply pointFormatFromProto_inverts in Hpf. apply HDEM in Hdem.
  unfold ParseKey. rewrite HkeyData, Hprefix, Hid. simpl.
  rewrite Hm. simpl.
  rewrite Hpc, Hph, Hopt, Hpf, Hdem. simpl.
  apply protoCoordinates_inv in Hxy
    as [[Hc ->]|(n & Hn & x' & y' & Hx & Hy & Hbytes & _)].
  - assert (pNISTCurvePointFormat params = UnspecifiedPointFormat) as Hf
      by (by apply Hformat).
    rewrite Hf. simpl. rewrite !decide_True by done. simpl.
    unfold optsOf in HNewParameters. rewrite Hf in HNewParameters.
    rewrite HNewParameters. simpl. by rewrite HNewPublicKey.
  - destruct (coordinateSize_NIST _ _ Hn) as [Hc _].
    assert (pNISTCurvePointFormat params <> UnspecifiedPointFormat) as Hf
      by (by intros ?%Hformat).
    rewrite (decide_False (P := pNISTCurvePointFormat params = _)) by done.
    rewrite !(decide_False (P := pCurveType params = X25519)) by done.
    simpl.
    unfold optsOf in HNewParameters. rewrite HNewParameters. simpl.
    rewrite Hn. simpl. rewrite Hx. simpl. rewrite Hy. simpl.
    simpl in Hbytes. rewrite <- Hbytes. by rewrite HNewPublicKey.
Qed.

(** X7. [SerializeKey] serializes only ECIES public keys that have
    parameters with a supported curve, hash and variant; for a NIST curve the
    point must have one byte 0x04 followed by two coordinates of the size of
    the curve. *)
Theorem SerializeKey_accepts_only key ks :
  SerializeKey SerializeParameters Marshal NewKeySerialization key = Ok ks ->
  exists k params,
    key = PublicKeyOf k
    /\ KeyParameters k = Some params
    /\ (protoCurveFromCurveType (pCurveType params)).2 = None
    /\ (protoHashTypeFromHashType (pHashType params)).2 = None
    /\ (protoOutputPrefixTypeFromVariant (pVariant params)).2 = None
    /\ (pCurveType params <> X25519 ->
        exists n xy,
          coordinateSizeForCurve (pCurveType params) = (n, None)
          /\ PublicKeyBytes k = Byte.x04 :: xy
          /\ length xy = 2 * n).
Proof.
  destruct key as [k|typeName]; [|done]. unfold SerializeKey.
  destruct (KeyParameters k) as [params|] eqn:Hparams; [|done].
  intros (pp & Hpp & Hser)%bindE_Ok_inv.
  apply bindE_Ok_inv in Hser as ([x y] & Hxy & Hser).
  apply bindE_Ok_inv in Hser as (serialized & Hm & Hser).
  apply bindE_Ok_inv in Hser as (opt & Hopt%check_Ok_inv & Hser).
  unfold createProtoECIESParams in Hpp.
  apply bindE_Ok_inv in Hpp as (pc & Hpc%check_Ok_inv & Hpp).
  apply bindE_Ok_inv in Hpp as (ph & Hph%check_Ok_inv & Hpp).
  exists k, params. rewrite Hpc, Hph, Hopt.
  split; [done|]. split; [done|]. split; [done|]. split; [done|].
  split; [done|]. intros Hcurve.
  apply protoCoordinates_inv in Hxy
    as [[Hc _]|(n & Hn & x' & y' & Hx & Hy & Hbytes & Hlen)]; [done|].
  exists n, (x' ++ y'). split; [done|]. split; [done|].
  rewrite Hbytes in Hlen. simpl in Hlen. lia.
Qed.

(** X8. A key that [ParseKey] returns comes from a serialization with the
    type URL and key material type of ECIES public keys and a protobuf key of
    version 0. For X25519 the protobuf point format is COMPRESSED, the
    parameters are made with the unspecified point format and the key with
    the bytes of [X]; for a NIST curve the key is made with 0x04 followed by
    two coordinates that denote the same integers as [X] and [Y] and are not
    longer than them. *)
Theorem ParseKey_accepts_only ks key :
  ParseKey ParseParameters Unmarshal NewParameters NewPublicKey (Some ks)
    = Ok key ->
  TypeUrl (ksKeyData ks) = publicKeyTypeURL
  /\ KeyMaterialType_ (ksKeyData ks) = ASYMMETRIC_PUBLIC
  /\ exists m opts params publicKeyBytes k,
       Unmarshal (Value (ksKeyData ks)) = Ok m
       /\ Version m = 0%Z
       /\ NewParameters opts = Ok params
       /\ NewPublicKey publicKeyBytes (ksIDRequirement ks).1 params = Ok k
       /\ key = PublicKeyOf k
       /\ (oCurveType opts = X25519 ->
           GetEcPointFormat (Params m) = commonpb.COMPRESSED
           /\ oNISTCurvePointFormat opts = UnspecifiedPointFormat
           /\ publicKeyBytes = X m)
       /\ (oCurveType opts <> X25519 ->
           exists x y,
             publicKeyBytes = Byte.x04 :: x ++ y
             /\ bigEndian x = bigEndian (X m) /\ length x <= length (X m)
             /\ bigEndian y = bigEndian (Y m) /\ length y <= length (Y m)).
Proof.
  unfold ParseKey.
  destruct (decide (TypeUrl _ <> _)) as [|Hurl]; [done|].
  destruct (decide (KeyMaterialType_ _ <> _)) as [|Hmaterial]; [done|].
  apply dec_stable in Hurl. apply dec_stable in Hmaterial.
  intros (m & Hm & Hparse)%bindE_Ok_inv.
  destruct (decide (Version m <> 0%Z)) as [|Hversion]; [done|].
  apply dec_stable in Hversion.
  apply bindE_Ok_inv in Hparse as (c & Hc%check_Ok_inv & Hparse).
  apply bindE_Ok_inv in Hparse as (h & Hh & Hparse).
  apply bindE_Ok_inv in Hparse as (v & Hv & Hparse).
  apply bindE_Ok_inv in Hparse as (f & Hf%check_Ok_inv & Hparse).
  apply bindE_Ok_inv in Hparse as (dem & Hdem & Hparse).
  apply bindE_Ok_inv in Hparse as (f' & Hf' & Hparse).
  apply bindE_Ok_inv in Hparse as (params & Hparams & Hparse).
  apply bindE_Ok_inv in Hparse as (publicKeyBytes & Hbytes & Hparse).
  apply bindE_Ok_inv in Hparse as (k & Hk & Hparse).
  injection Hparse as <-.
  split; [done|]. split; [done|].
  eexists m, _, params, publicKeyBytes, k.
  split; [done|]. split; [done|]. split; [exact Hparams|].
  split; [done|]. split; [done|]. simpl.
  destruct (decide (c = X25519)) as [->|Hcurve].
  - split; [|done]. intros _.
    destruct (decide (f <> CompressedPointFormat)) as [|Hcompressed]; [done|].
    apply dec_stable in Hcompressed. subst f.
    injection Hf' as <-. injection Hbytes as <-.
    split; [|done].
    destruct (GetEcPointFormat (Params m)); by try done.
  - split; [done|]. intros _.
    apply bindE_Ok_inv in Hbytes as (n & Hn & Hbytes).
    apply bindE_Ok_inv in Hbytes as (x & Hx & Hbytes).
    apply bindE_Ok_inv in Hbytes as (y & Hy & Hbytes).
    injection Hbytes as <-. exists x, y. split; [done|].
    destruct (remove_Ok_inv _ _ _ Hx) as (Hvx & Hsx & Hlx).
    destruct (remove_Ok_inv _ _ _ Hy) as (Hvy & Hsy & Hly).
    split; [done|]. split.
    { destruct (decide (length (X m) <= n)) as [Hle|Hgt].
      - by rewrite Hsx.
      - destruct Hlx as [_ Hlx]; lia. }
    split; [done|].
    destruct (decide (length (Y m) <= n)) as [Hle|Hgt].
    + by rewrite Hsy.
    + destruct Hly as [_ Hly]; lia.
Qed.

End Props.

Lemma toyMarshal_inverted m b : toyMarshal m = Ok b -> toyUnmarshal b = Ok m.
Proof. unfold toyMarshal, toyUnmarshal. case_decide; [by subst|done]. Qed.

Lemma SerializeKey_then_ParseKey_witness :
  exists ks,
    SerializeKey (fun _ => Ok demTemplate) toyMarshal toyNewKeySerialization
                 (PublicKeyOf p256Key) = Ok ks
    /\ ParseKey (fun _ => Ok ()) toyUnmarshal toyNewParameters toyNewPublicKey
                (Some ks) = Ok (PublicKeyOf p256Key).
Proof.
  eexists. split; [vm_compute; reflexivity|].
  apply (SerializeKey_then_ParseKey (fun _ => Ok demTemplate) (fun _ => Ok ())
           toyMarshal toyUnmarshal toyNewKeySerialization toyNewParameters
           toyNewPublicKey p256Key p256Parameters).
  - exact toyMarshal_inverted.
  - by intros [] t _.
  - intros kd t id s [= <-]. done.
  - reflexivity.
  - split; discriminate.
  - reflexivity.
  - reflexivity.
  - vm_compute. reflexivity.
Defined.

Lemma SerializeKey_accepts_only_witness :
  exists k params,
    PublicKeyOf p256Key = PublicKeyOf k
    /\ KeyParameters k = Some params
    /\ (protoCurveFromCurveType (pCurveType params)).2 = None
    /\ (protoHashTypeFromHashType (pHashType params)).2 = None
    /\ (protoOutputPrefixTypeFromVariant (pVariant params)).2 = None
    /\ (pCurveType params <> X25519 ->
        exists n xy,
          coordinateSizeForCurve (pCurveType params) = (n, None)
          /\ PublicKeyBytes k = Byte.x04 :: xy
          /\ length xy = 2 * n).
Proof.
  eapply (SerializeKey_accepts_only (fun _ => Ok demTemplate) toyMarshal
            toyNewKeySerialization (PublicKeyOf p256Key)).
  vm_compute. reflexivity.
Defined.

Lemma ParseKey_accepts_only_witness :
  TypeUrl {| TypeUrl := publicKeyTypeURL; Value := [Byte.x01];
             KeyMaterialType_ := ASYMMETRIC_PUBLIC |} = publicKeyTypeURL.
Proof.
  apply (ParseKey_accepts_only (fun _ => Ok ()) toyUnmarshal toyNewParameters
           toyNewPublicKey
           {| ksKeyData := {| TypeUrl := publicKeyTypeURL; Value := [Byte.x01];
                              KeyMaterialType_ := ASYMMETRIC_PUBLIC |};
              ksOutputPrefixType := TINK; ksIDRequirement := (7%Z, true) |}
           (PublicKeyOf p256Key)).
  vm_compute. reflexivity.
Defined.

End ecies_keys_props.


(** ** Properties of encryption with AES-GCM *)

Module aesgcm_seal_props.

Import aesgcm aesgcm_seal aesgcm_props Go_props.

Section Props.

Variable Seal : cipherAEAD -> bytes -> bytes -> bytes -> bytes -> result bytes.
Variable CheckPlaintextSize : nat -> option error.

(** What [Encrypt] returns, under the promise of the cipher. *)
Lemma Encrypt_shape (a : fullAEAD) iv pt aad ct :
  sealsAndOpens Seal (cipher a) ->
  length iv = NonceSize (cipher a) ->
  Encrypt Seal CheckPlaintextSize a iv pt aad = Ok ct ->
  exists sealed,
    ct = prefix a ++ iv ++ sealed
    /\ length sealed = length pt + Overhead (cipher a)
    /\ forall dst, Open (cipher a) dst iv sealed aad = Ok (dst ++ pt).
Proof.
  intros Hcipher Hiv. unfold Encrypt.
  destruct (CheckPlaintextSize (length pt)); [done|].
  destruct (Hcipher (prefix a ++ iv) iv pt aad Hiv) as (sealed & -> & Hlen & Hopen).
  intros [= <-]. exists sealed. by rewrite <- app_assoc.
Qed.

(** X9. In the build for Go before 1.24, which is the one that has
    [fullAEAD.Encrypt], what it returns is the key's output prefix, the IV
    and the sealed plaintext, [len(prefix) + 12 + len(plaintext) + 16] bytes
    in all, and [Decrypt] of the same key returns the plaintext from it. *)
Theorem fullAEAD_round_trip gcmOpen k a iv pt aad ct :
  NewAEAD false gcmOpen k = Ok a ->
  sealsAndOpens Seal (cipher a) ->
  length iv = ivSize ->
  Encrypt Seal CheckPlaintextSize a iv pt aad = Ok ct ->
  take (length (prefix a)) ct = prefix a
  /\ take 12 (drop (length (prefix a)) ct) = iv
  /\ length ct = length (prefix a) + 12 + length pt + 16
  /\ (Decrypt a ct aad).2 = Ok pt.
Proof.
  intros Hnew Hcipher Hiv Henc.
  destruct (NewAEAD_sizes _ _ _ _ Hnew) as (Hnonce & Hoverhead & _).
  unfold fips140.GCMNonceSize in Hnonce. unfold fips140.GCMOverhead in Hoverhead.
  unfold ivSize in Hiv.
  destruct (Encrypt_shape a iv pt aad ct Hcipher) as (sealed & -> & Hlen & Hopen);
    [lia|done|].
  rewrite Hoverhead in Hlen.
  assert (take (length (prefix a)) (prefix a ++ iv ++ sealed) = prefix a)
    as Hprefix by apply take_app_length.
  assert (take 12 (drop (length (prefix a)) (prefix a ++ iv ++ sealed)) = iv)
    as Htake.
  { rewrite drop_app_length. by rewrite take_app_length'. }
  split; [done|]. split; [done|]. split.
  { rewrite !length_app. lia. }
  rewrite fullAEAD_Decrypt_cases, Hnonce, Hoverhead.
  rewrite decide_False by (rewrite !length_app; lia).
  rewrite decide_True by done. simpl.
  rewrite Htake.
  replace (drop (length (prefix a) + 12) (prefix a ++ iv ++ sealed)) with sealed.
  - by rewrite Hopen.
  - rewrite <- drop_drop, drop_app_length. by rewrite drop_app_length'.
Qed.

(** X10. A ciphertext of one key is rejected, without a call on the cipher,
    by every key whose output prefix has the same length and differs. *)
Theorem fullAEAD_other_prefix_rejects (a a' : fullAEAD) iv pt aad ct :
  sealsAndOpens Seal (cipher a) ->
  length iv = NonceSize (cipher a) ->
  NonceSize (cipher a') = NonceSize (cipher a) ->
  Overhead (cipher a') = Overhead (cipher a) ->
  length (prefix a') = length (prefix a) ->
  prefix a' <> prefix a ->
  Encrypt Seal CheckPlaintextSize a iv pt aad = Ok ct ->
  Decrypt a' ct aad = ([], Err errPrefixMismatch).
Proof.
  intros Hcipher Hiv Hnonce Hoverhead Hlen Hne Henc.
  destruct (Encrypt_shape a iv pt aad ct Hcipher Hiv Henc)
    as (sealed & -> & Hsealed & _).
  rewrite fullAEAD_Decrypt_cases, Hnonce, Hoverhead, Hlen.
  rewrite decide_False by (rewrite !length_app; lia).
  rewrite take_app_length. by rewrite decide_False.
Qed.

End Props.

(** X11. [AESGCM.Decrypt] of package [subtle] and [fullAEAD.Decrypt] of a
    key without output prefix do the same on the same cipher with the
    standard sizes: the same calls on the cipher and the same result, for
    every ciphertext. *)
Theorem subtle_is_full_without_prefix (a : subtle.AESGCM) (f : fullAEAD) ct aad :
  cipher f = subtle.cipher a ->
  prefix f = [] ->
  NonceSize (cipher f) = 12 ->
  Overhead (cipher f) = 16 ->
  subtle.Decrypt a ct aad = Decrypt f ct aad.
Proof.
  intros Hcipher Hprefix Hnonce Hoverhead.
  rewrite fullAEAD_Decrypt_cases, Hprefix, Hnonce, Hoverhead, Hcipher. simpl.
  unfold subtle.Decrypt, subtle.AESGCMIVSize, subtle.AESGCMTagSize.
  change (12 + 16) with 28.
  destruct (decide (length ct < 28)) as [Hshort|Hlong]; [done|].
  rewrite !slice_Some by lia.
  rewrite Nat.sub_0_r, !drop_0.
  by rewrite (take_ge (drop 12 ct)) by (rewrite length_drop; lia).
Qed.

(** X12. What [AESGCM.Encrypt] of package [subtle] returns is the IV and the
    sealed plaintext, [12 + len(plaintext) + 16] bytes in all, and [Decrypt]
    returns the plaintext from it; a ciphertext of less than 28 bytes is
    rejected without a call on the cipher. *)
Theorem subtle_round_trip Seal CheckPlaintextSize (a : subtle.AESGCM) iv pt aad ct :
  sealsAndOpens Seal (subtle.cipher a) ->
  NonceSize (subtle.cipher a) = 12 ->
  Overhead (subtle.cipher a) = 16 ->
  length iv = subtle.AESGCMIVSize ->
  subtle.Encrypt Seal CheckPlaintextSize a iv pt aad = Ok ct ->
  take 12 ct = iv
  /\ length ct = 12 + length pt + 16
  /\ (subtle.Decrypt a ct aad).2 = Ok pt
  /\ forall short, length short < 28 ->
       exists err, subtle.Decrypt a short aad = ([], Err err).
Proof.
  intros Hcipher Hnonce Hoverhead Hiv. unfold subtle.AESGCMIVSize in Hiv.
  unfold subtle.Encrypt.
  destruct (CheckPlaintextSize (length pt)); [done|].
  destruct (Hcipher iv iv pt aad) as (sealed & -> & Hlen & Hopen); [lia|].
  intros [= <-]. rewrite Hoverhead in Hlen.
  split; [by rewrite take_app_length'|]. split; [rewrite length_app; lia|].
  split.
  - unfold subtle.Decrypt, subtle.AESGCMIVSize, subtle.AESGCMTagSize.
    rewrite decide_False by (rewrite length_app; lia).
    rewrite !slice_Some by (rewrite length_app; lia).
    rewrite Nat.sub_0_r, drop_0, take_app_length' by done.
    rewrite drop_app_length' by done.
    rewrite take_ge by (rewrite length_app; lia). simpl.
    by rewrite Hopen.
  - intros short Hshort. unfold subtle.Decrypt.
    rewrite decide_True by done. eauto.
Qed.

Lemma toyCipher_sealsAndOpens : sealsAndOpens subtle.toySeal subtle.toyCipher.
Proof.
  intros dst nonce pt aad Hnonce. unfold subtle.toySeal.
  rewrite decide_True by done.
  exists (pt ++ subtle.toyTag nonce aad pt). split; [done|].
  assert (length (subtle.toyTag nonce aad pt) = 16) as Htag
    by apply length_replicate.
  split; [rewrite length_app; simpl; lia|].
  intros dst'. simpl. rewrite length_app, Htag.
  replace (length pt + 16 - 16) with (length pt) by lia.
  rewrite take_app_length, drop_app_length.
  rewrite decide_True; [done|]. split; [lia|done].
Qed.

Lemma toyGcm_sealsAndOpens a :
  NewAEAD false subtle.toyGcmOpen zeroKey = Ok a ->
  sealsAndOpens subtle.toySeal (cipher a).
Proof.
  intros [= <-]. intros dst nonce pt aad Hnonce.
  destruct (toyCipher_sealsAndOpens dst nonce pt aad Hnonce)
    as (sealed & Hseal & Hlen & Hopen).
  exists sealed. split; [exact Hseal|]. split; [exact Hlen|].
  intros dst'. simpl. unfold subtle.toyGcmOpen.
  rewrite (Hopen []). done.
Qed.

Lemma fullAEAD_round_trip_witness :
  exists a ct,
    NewAEAD false subtle.toyGcmOpen zeroKey = Ok a
    /\ Encrypt subtle.toySeal (fun _ => None) a (replicate 12 Byte.x03)
               [Byte.x68; Byte.x69] [Byte.xaa] = Ok ct
    /\ (Decrypt a ct [Byte.xaa]).2 = Ok [Byte.x68; Byte.x69].
Proof.
  eexists. eexists. split; [reflexivity|]. split; [vm_compute; reflexivity|].
  eapply (fullAEAD_round_trip subtle.toySeal (fun _ => None) subtle.toyGcmOpen
            zeroKey _ (replicate 12 Byte.x03) [Byte.x68; Byte.x69] [Byte.xaa]).
  - reflexivity.
  - apply toyGcm_sealsAndOpens. reflexivity.
  - reflexivity.
  - vm_compute. reflexivity.
Defined.

Lemma fullAEAD_other_prefix_rejects_witness :
  exists ct,
    Encrypt subtle.toySeal (fun _ => None)
            {| cipher := subtle.toyCipher; prefix := Byte.x01 :: PutUint32 1 |}
            (replicate 12 Byte.x03) [Byte.x68; Byte.x69] [] = Ok ct
    /\ Decrypt {| cipher := subtle.toyCipher; prefix := Byte.x01 :: PutUint32 2 |}
               ct [] = ([], Err errPrefixMismatch).
Proof.
  eexists. split; [vm_compute; reflexivity|].
  eapply (fullAEAD_other_prefix_rejects subtle.toySeal (fun _ => None)
            {| cipher := subtle.toyCipher; prefix := Byte.x01 :: PutUint32 1 |}
            {| cipher := subtle.toyCipher; prefix := Byte.x01 :: PutUint32 2 |}
            (replicate 12 Byte.x03) [Byte.x68; Byte.x69] []).
  - exact toyCipher_sealsAndOpens.
  - reflexivity.
  - reflexivity.
  - reflexivity.
  - reflexivity.
  - discriminate.
  - vm_compute. reflexivity.
Defined.

Lemma subtle_is_full_without_prefix_witness :
  subtle.Decrypt {| subtle.cipher := subtle.toyCipher |}
                 (replicate 30 Byte.x00) []
  = Decrypt {| cipher := subtle.toyCipher; prefix := [] |}
            (replicate 30 Byte.x00) [].
Proof.
  apply (subtle_is_full_without_prefix {| subtle.cipher := subtle.toyCipher |}
           {| cipher := subtle.toyCipher; prefix := [] |});
    reflexivity.
Defined.

Lemma subtle_round_trip_witness :
  exists ct,
    subtle.Encrypt subtle.toySeal (fun _ => None)
                   {| subtle.cipher := subtle.toyCipher |}
                   (replicate 12 Byte.x03) [Byte.x68; Byte.x69] [] = Ok ct
    /\ (subtle.Decrypt {| subtle.cipher := subtle.toyCipher |} ct []).2
       = Ok [Byte.x68; Byte.x69].
Proof.
  eexists. split; [vm_compute; reflexivity|].
  eapply (subtle_round_trip subtle.toySeal (fun _ => None)
            {| subtle.cipher := subtle.toyCipher |}
            (replicate 12 Byte.x03) [Byte.x68; Byte.x69] []).
  - exact toyCipher_sealsAndOpens.
  - reflexivity.
  - reflexivity.
  - reflexivity.
  - vm_compute. reflexivity.
Defined.

(** X24. With a cipher that has the sizes of either build of package
    [fips140], [fullAEAD.Decrypt] never panics and does one of three things:
    a ciphertext shorter than [len(prefix) + 28] gets the too-short error
    and one at least that long that does not start with the prefix gets the
    prefix error, both without a call on the cipher; every other ciphertext
    is given to the cipher in one call, with an empty destination, the
    associated data, and the bytes after the prefix split into nonce and
    ciphertext at the nonce size of the build, and what the cipher returns is
    returned. So both builds reject the same ciphertexts with the same errors
    before the cipher is consulted. *)
Theorem fullAEAD_decrypt_in_both_builds go124 (a : fullAEAD) ct aad :
  NonceSize (cipher a) = fips140.GCMNonceSize go124 ->
  Overhead (cipher a) = fips140.GCMOverhead go124 ->
  (length ct < length (prefix a) + 28 ->
   Decrypt a ct aad = ([], Err (errTooShort (length ct))))
  /\ (length (prefix a) + 28 <= length ct ->
      take (length (prefix a)) ct <> prefix a ->
      Decrypt a ct aad = ([], Err errPrefixMismatch))
  /\ (length (prefix a) + 28 <= length ct ->
      take (length (prefix a)) ct = prefix a ->
      exists nonce ciphertext,
        nonce ++ ciphertext = drop (length (prefix a)) ct
        /\ length nonce = fips140.GCMNonceSize go124
        /\ Decrypt a ct aad =
           ([CipherOpen [] nonce ciphertext aad],
            Open (cipher a) [] nonce ciphertext aad)).
Proof.
  intros Hnonce Hoverhead. rewrite fullAEAD_Decrypt_cases, Hnonce, Hoverhead.
  assert (length (prefix a) + fips140.GCMNonceSize go124
          + fips140.GCMOverhead go124 = length (prefix a) + 28) as ->
    by (pose proof (GCM_sizes go124); lia).
  split; [|split].
  - intros Hshort. by rewrite decide_True.
  - intros Hlong Hne. rewrite decide_False by lia. by rewrite decide_False.
  - intros Hlong Heq. rewrite decide_False by lia. rewrite decide_True by done.
    eexists _, _. split; [|split; [|reflexivity]].
    + rewrite <- drop_drop. apply take_drop.
    + rewrite length_take, length_drop.
      destruct go124; unfold fips140.GCMNonceSize; lia.
Qed.

(** In the build for Go 1.24 the cipher gets an empty nonce and all 30
    bytes. *)
Lemma fullAEAD_decrypt_in_both_builds_witness :
  exists a,
    NewAEAD true rejectAll
            {| parameters := parameters zeroKey; KeyBytes := KeyBytes zeroKey;
               OutputPrefix := [] |} = Ok a
    /\ exists nonce ciphertext,
         nonce ++ ciphertext = replicate 30 Byte.x00
         /\ length nonce = 0
         /\ Decrypt a (replicate 30 Byte.x00) [] =
            ([CipherOpen [] nonce ciphertext []],
             Open (cipher a) [] nonce ciphertext []).
Proof.
  eexists. split; [reflexivity|].
  match goal with
  | |- exists nonce ciphertext, _ /\ _ /\ Decrypt ?a _ _ = _ =>
      destruct (fullAEAD_decrypt_in_both_builds true a (replicate 30 Byte.x00)
                  [] eq_refl eq_refl) as (_ & _ & Haccept)
  end.
  apply Haccept; [simpl; lia|reflexivity].
Defined.

End aesgcm_seal_props.


(** ** Further properties of the deterministic-AEAD dispatcher *)

Module daead_more_props.

Import tinkpb primitiveset daead daead_monitoring daead_props.

Lemma logCalls_app tr1 tr2 : logCalls (tr1 ++ tr2) = logCalls tr1 ++ logCalls tr2.
Proof. apply List.filter_app. Qed.

(** One loop reports a success, of the entry that accepted, and nothing
    else; it never returns an error. *)
Lemma tryEntries_logs entries c aad :
  match (tryEntries entries c aad).2 with
  | Some (Ok pt) =>
      exists e p,
        last (decryptCalls (tryEntries entries c aad).1) = Some (e, c)
        /\ Primitive e = Some p
        /\ tink.DecryptDeterministically p c aad = Ok pt
        /\ logCalls (tryEntries entries c aad).1
           = [DecLog (KeyID e) (length c)]
  | Some (Err _) => False
  | _ => logCalls (tryEntries entries c aad).1 = []
  end.
Proof.
  induction entries as [|e entries IH]; simpl; [done|].
  destruct (Primitive e) as [p|] eqn:Hp; [|done].
  destruct (tink.DecryptDeterministically p c aad) as [pt| |] eqn:Hdec;
    [by exists e, p| |done].
  destruct (tryEntries entries c aad) as [tr r]; simpl in *.
  destruct r as [[pt| |]|]; try done.
  destruct IH as (e' & p' & Hlast & Hp' & Hdec' & Hlog).
  exists e', p'. rewrite last_cons, Hlast. done.
Qed.

(** X13. [DecryptDeterministically] calls the decryption logger exactly
    once unless it panics. On success the one call is [Log], a primitive has
    been invoked, and the one invoked last is the one that accepted and
    returned the result: [Log] gets the id of its key and the length of the
    input it was given, which is the whole input or the input without its
    first 5 bytes. On failure the one call is [LogFailure]. On a panic the
    logger is not called. *)
Theorem decrypt_logs_once d ct aad :
  match (DecryptDeterministically d ct aad).2 with
  | Ok pt =>
      exists e c p,
        last (decryptCalls (DecryptDeterministically d ct aad).1) = Some (e, c)
        /\ (c = ct \/ c = drop 5 ct)
        /\ Primitive e = Some p
        /\ tink.DecryptDeterministically p c aad = Ok pt
        /\ logCalls (DecryptDeterministically d ct aad).1
           = [DecLog (KeyID e) (length c)]
  | Err _ => logCalls (DecryptDeterministically d ct aad).1 = [DecLogFailure]
  | Panic => logCalls (DecryptDeterministically d ct aad).1 = []
  end.
Proof.
  unfold DecryptDeterministically, cryptofmt.NonRawPrefixSize.
  destruct (EntriesForPrefix_Ok (ps d) (take 5 ct)) as [es1 ->].
  unfold RawEntries.
  destruct (EntriesForPrefix_Ok (ps d) []) as [es2 ->].
  set (first := if (5 <? length ct)%nat
                then tryEntries es1 (drop 5 ct) aad
                else ([], None)).
  assert (match first.2 with
          | Some (Ok pt) =>
              exists e p,
                last (decryptCalls first.1) = Some (e, drop 5 ct)
                /\ Primitive e = Some p
                /\ tink.DecryptDeterministically p (drop 5 ct) aad = Ok pt
                /\ logCalls first.1 = [DecLog (KeyID e) (length (drop 5 ct))]
          | Some (Err _) => False
          | _ => logCalls first.1 = []
          end) as H1.
  { unfold first. destruct (_ <? _)%nat; [apply tryEntries_logs|done]. }
  pose proof (tryEntries_logs es2 ct aad) as H2.
  destruct first as [tr1 r1].
  destruct (tryEntries es2 ct aad) as [tr2 r2]. simpl in H1, H2.
  destruct r1 as [[pt|err|]|]; simpl; [|done|done|].
  { destruct H1 as (e & p & Hlast & Hp & Hdec & Hlog).
    exists e, (drop 5 ct), p. auto 6. }
  destruct r2 as [[pt|err|]|]; simpl; [|done| |].
  - destruct H2 as (e & p & Hlast & Hp & Hdec & Hlog).
    exists e, ct, p. rewrite decryptCalls_app, last_app, Hlast.
    rewrite logCalls_app, H1, Hlog. auto 6.
  - by rewrite logCalls_app, H1, H2.
  - by rewrite !logCalls_app, H1, H2.
Qed.

(** X14. [EncryptDeterministically] calls the encryption logger with the id
    of the primary key and the length of the plaintext when the primitive
    succeeds, with [LogFailure] when the primitive fails, and not at all when
    the primary has no primitive, although an error is returned then too. *)
Theorem encrypt_logs d pt aad primary :
  Primary (ps d) = Some primary ->
  logCalls (EncryptDeterministically d pt aad).1 =
  match Primitive primary with
  | None => []
  | Some p =>
      match tink.EncryptDeterministically p pt aad with
      | Ok _ => [EncLog (KeyID primary) (length pt)]
      | Err _ => [EncLogFailure]
      | Panic => []
      end
  end
  /\ (Primitive primary = None ->
      EncryptDeterministically d pt aad = ([], Err errNotDeterministicAEAD)).
Proof.
  intros Hprimary. unfold EncryptDeterministically. rewrite Hprimary.
  destruct (Primitive primary) as [p|]; [|done].
  destruct (tink.EncryptDeterministically p pt aad); done.
Qed.

Lemma encrypt_logs_witness :
  logCalls (EncryptDeterministically {| ps := twoKeys |} [Byte.x68] []).1
  = [EncLog 1 1].
Proof.
  apply (encrypt_logs {| ps := twoKeys |} [Byte.x68] []
                      (tinkEntry 1 (keyed Byte.x2a)) eq_refl).
Defined.

(** X15. An input of at most 5 bytes is never given to a key with a prefix:
    in a set without RAW keys it is rejected with the generic error and no
    primitive is invoked. *)
Theorem short_input_needs_raw_key d ct aad :
  length ct <= 5 ->
  RawEntries (ps d) = Ok [] ->
  DecryptDeterministically d ct aad = ([DecLogFailure], Err errDecryptionFailed).
Proof.
  intros Hlen Hraw. unfold DecryptDeterministically. rewrite Hraw.
  unfold cryptofmt.NonRawPrefixSize.
  by destruct (Nat.ltb_spec 5 (length ct)); [lia|].
Qed.

Lemma short_input_needs_raw_key_witness :
  DecryptDeterministically {| ps := oneKey |}
    [Byte.x01; Byte.x00; Byte.x00; Byte.x00; Byte.x01] []
  = ([DecLogFailure], Err errDecryptionFailed).
Proof.
  apply (short_input_needs_raw_key {| ps := oneKey |}); [simpl; lia|].
  vm_compute. reflexivity.
Defined.

(** An entry's own attempt is among the attempts on its prefix followed by a
    payload. *)
Lemma entry_attempted (s : PrimitiveSet) e entries i c :
  Entries s !! Prefix e = Some entries ->
  entries !! i = Some e ->
  cryptofmt.OutputPrefix (PrefixType e) (KeyID e) = Ok (Prefix e) ->
  (Prefix e <> [] -> c <> []) ->
  (e, c) ∈ attempts s (Prefix e ++ c).
Proof.
  intros Hentries Hi Hfmt Hne.
  assert (e ∈ entries) as Hin by (apply list_elem_of_lookup; eauto).
  assert (Prefix e = [] \/ length (Prefix e) = 5) as [Hnil|Hlen].
  { destruct (PrefixType e); simpl in Hfmt; try done;
      injection Hfmt as <-; auto. }
  - unfold attempts. apply elem_of_app. right. rewrite Hnil in *. simpl.
    unfold rawAttempts, RawEntries, EntriesForPrefix. rewrite Hentries.
    apply list_elem_of_fmap. eauto.
  - unfold attempts. apply elem_of_app. left. unfold prefixAttempts.
    assert (c <> []) as Hc.
    { apply Hne. intros Hnil. by rewrite Hnil in Hlen. }
    rewrite decide_True.
    2:{ rewrite length_app, Hlen. destruct c; [done|simpl; lia]. }
    rewrite take_app_length', drop_app_length' by done.
    unfold EntriesForPrefix. rewrite Hentries.
    apply list_elem_of_fmap. eauto.
Qed.

(** X16. Every key of the set decrypts what is addressed to it, primary or
    not: an input that is the prefix of an entry followed by a payload that
    the entry's primitive accepts (not empty, if the entry has a prefix) is
    decrypted to what that primitive returns, provided every other attempt
    on the input is rejected. *)
Theorem any_key_decrypts (s : PrimitiveSet) e entries i p c m aad :
  Entries s !! Prefix e = Some entries ->
  entries !! i = Some e ->
  cryptofmt.OutputPrefix (PrefixType e) (KeyID e) = Ok (Prefix e) ->
  Primitive e = Some p ->
  tink.DecryptDeterministically p c aad = Ok m ->
  (Prefix e <> [] -> c <> []) ->
  Forall (fun a => a = (e, c) \/ rejects aad a = true)
         (attempts s (Prefix e ++ c)) ->
  (DecryptDeterministically {| ps := s |} (Prefix e ++ c) aad).2 = Ok m.
Proof.
  intros Hentries Hi Hfmt Hp Hdec Hne Hothers.
  rewrite (proj1 (Decrypt_consume _ _ _)). unfold consume, firstSuccess.
  simpl.
  erewrite firstResult_own; [simpl; reflexivity|exact Hothers| | |reflexivity].
  - by eapply entry_attempted.
  - unfold run. simpl. by rewrite Hp.
Qed.

(** The RAW key 2 decrypts its ciphertext although the TINK key 1 is the
    primary. *)
Lemma any_key_decrypts_witness :
  (DecryptDeterministically {| ps := twoKeys |} [Byte.x17; Byte.x68] []).2
  = Ok [Byte.x68].
Proof.
  apply (any_key_decrypts twoKeys (rawEntry 2 (keyed Byte.x17))
           [rawEntry 2 (keyed Byte.x17)] 0 (keyed Byte.x17)
           [Byte.x17; Byte.x68] [Byte.x68] []).
  - vm_compute. reflexivity.
  - reflexivity.
  - reflexivity.
  - reflexivity.
  - reflexivity.
  - intros Hprefix. by destruct Hprefix.
  - vm_compute. constructor; [left; reflexivity|]. constructor.
Defined.

End daead_more_props.


(** ** Further properties of the JWT verifier dispatcher *)

Module jwt_more_props.

Import tinkpb primitiveset jwt jwt_more jwt_props.

Section Props.

Context {VerifiedJWT Validator Logger KeysetInfo : Type}.
Variable keyID : Z -> OutputPrefixType -> option string.

Abbreviation Entry := (primitiveset.Entry (@verifierWithKID VerifiedJWT Validator)).
Abbreviation PrimitiveSet :=
  (primitiveset.PrimitiveSet (@verifierWithKID VerifiedJWT Validator)).

Variable DoNothingLogger : Logger.
Variable KeysetInfoFromPrimitiveSet : PrimitiveSet -> result_of jwtError KeysetInfo.
Variable NewLogger : KeysetInfo -> string -> string -> result_of jwtError Logger.

(** A loop over entries that fail or return one and the same token returns
    that token as soon as one entry returns it. *)
Lemma verifyGroup_accepts compact validator (l : list Entry) jwt ie :
  Forall (fun e => verifyWith keyID compact validator e = Ok jwt
                   \/ is_Err (verifyWith keyID compact validator e) = true) l ->
  (exists e, e ∈ l /\ verifyWith keyID compact validator e = Ok jwt) ->
  (verifyGroup keyID compact validator l ie).2 = inl (Ok jwt).
Proof.
  intros Hall. revert ie.
  induction Hall as [|e l He Hall IH]; intros ie (e0 & Hin & Hok).
  - by apply elem_of_nil in Hin.
  - simpl. destruct He as [He|He].
    + by rewrite He.
    + destruct (verifyWith keyID compact validator e) as [|err|] eqn:Hrun;
        try done.
      apply elem_of_cons in Hin as [->|Hin]; [congruence|].
      specialize (IH (if decide (err <> errJwtVerification)
                      then Some err else ie)).
      destruct (verifyGroup keyID compact validator l _) as [tr r].
      simpl in *. apply IH. eauto.
Qed.

(** X17. When the keys that accept a token all return the same verified
    token and every other key fails, [VerifyAndDecode] returns that token,
    whatever the order in which the range over the map of entries visits the
    groups. *)
Theorem verify_independent_of_order
    (w : @wrappedVerifier VerifiedJWT Validator Logger) order compact validator
    e0 jwt :
  range_order (Entries (ps w)) order ->
  inSet (ps w) e0 ->
  verifyWith keyID compact validator e0 = Ok jwt ->
  (forall e, inSet (ps w) e ->
             verifyWith keyID compact validator e = Ok jwt
             \/ is_Err (verifyWith keyID compact validator e) = true) ->
  (VerifyAndDecode keyID w order compact validator).2 = Ok jwt.
Proof.
  intros Horder He0 Hok Hall.
  pose proof (verifyGroups_flat keyID compact validator order None) as Hflat.
  rewrite (verifyGroup_accepts compact validator (visited order) jwt) in Hflat.
  - unfold VerifyAndDecode.
    destruct (verifyGroups keyID compact validator order None) as [tr r].
    simpl in Hflat. by subst r.
  - apply Forall_forall. intros e He. apply Hall.
    by apply (visited_inSet _ order).
  - exists e0. split; [|done]. by apply (visited_inSet (ps w) order).
Qed.

(** X18. [newWrappedVerifier] returns a verifier over the given set, with
    the logger that does nothing, for every set without annotations whose
    entries all have the output prefix type RAW or TINK. *)
Theorem newWrappedVerifier_accepts (s : PrimitiveSet) order :
  range_order (Entries s) order ->
  (forall e, inSet s e -> PrefixType e = RAW \/ PrefixType e = TINK) ->
  Annotations s = [] ->
  newWrappedVerifier DoNothingLogger KeysetInfoFromPrimitiveSet NewLogger
                     s order
  = Ok {| ps := s; logger := DoNothingLogger |}.
Proof.
  intros Horder Hall Hannotations. unfold newWrappedVerifier.
  assert (checkEntries order = None) as ->.
  { apply checkEntries_None, Forall_forall. intros e He. apply Hall.
    by apply (visited_inSet s order). }
  unfold createVerifierLogger. by rewrite Hannotations.
Qed.

End Props.

Lemma rotatedSet_inSet e :
  inSet rotatedSet e ->
  e = exampleEntry 1 TINK (Byte.x01 :: PutUint32 1) errJwtVerification
  \/ e = {| KeyID := 2; Primitive := accepting "claims";
            Prefix := Byte.x01 :: PutUint32 2; PrefixType := TINK |}.
Proof.
  intros (prefix & entries & Hlook & He).
  unfold rotatedSet in Hlook. cbn [Entries] in Hlook.
  apply lookup_insert_Some in Hlook as [[_ <-]|[_ Hlook]].
  - left. by apply list_elem_of_singleton in He.
  - apply lookup_singleton_Some in Hlook as [_ <-].
    right. by apply list_elem_of_singleton in He.
Qed.

Lemma verify_independent_of_order_witness :
  (VerifyAndDecode noKid {| ps := rotatedSet; logger := () |}
                   (map_to_list (Entries rotatedSet)) "a.b.c" ()).2
  = Ok "claims".
Proof.
  apply (verify_independent_of_order noKid
           {| ps := rotatedSet; logger := () |}
           (map_to_list (Entries rotatedSet)) "a.b.c" ()
           {| KeyID := 2; Primitive := accepting "claims";
              Prefix := Byte.x01 :: PutUint32 2; PrefixType := TINK |}).
  - unfold range_order. reflexivity.
  - exists (Byte.x01 :: PutUint32 2),
      [{| KeyID := 2; Primitive := accepting "claims";
          Prefix := Byte.x01 :: PutUint32 2; PrefixType := TINK |}].
    split; [by vm_compute|apply list_elem_of_here].
  - reflexivity.
  - intros e [-> | ->]%rotatedSet_inSet; [by right|by left].
Defined.

Lemma newWrappedVerifier_accepts_witness :
  newWrappedVerifier () (fun _ => Ok ()) (fun _ _ _ => Ok ())
                     rotatedSet (map_to_list (Entries rotatedSet))
  = Ok {| ps := rotatedSet; logger := () |}.
Proof.
  apply (newWrappedVerifier_accepts () (fun _ => Ok ()) (fun _ _ _ => Ok ())
           rotatedSet (map_to_list (Entries rotatedSet))).
  - unfold range_order. reflexivity.
  - intros e [-> | ->]%rotatedSet_inSet; by right.
  - reflexivity.
Defined.

End jwt_more_props.


(** ** Properties of the registry of primitive constructors *)

Module registryconfig_props.

Import registryconfig.

Section Props.

Context {KeyValue Primitive KeySerialization : Type}.
Variable SerializeKey : @Key KeyValue -> result KeySerialization.
Variable PrimitiveFromKeyData : KeySerialization -> result Primitive.

Implicit Types (r : gmap string (@primitiveConstructor KeyValue Primitive))
         (c : @primitiveConstructor KeyValue Primitive) (k : @Key KeyValue).

(** X19. After a successful registration for a key type, [PrimitiveFromKey]
    gives every key of that type to the registered constructor, and does for
    keys of every other type what it did before. *)
Theorem register_then_construct r keyType c r' k :
  RegisterPrimitiveConstructor r keyType c = (r', None) ->
  (TypeOf k = keyType ->
   PrimitiveFromKey SerializeKey PrimitiveFromKeyData r' (Some k)
   = construct c k)
  /\ (TypeOf k <> keyType ->
      PrimitiveFromKey SerializeKey PrimitiveFromKeyData r' (Some k)
      = PrimitiveFromKey SerializeKey PrimitiveFromKeyData r (Some k)).
Proof.
  unfold RegisterPrimitiveConstructor. intros Hreg.
  assert (r' = <[keyType := c]> r) as ->.
  { destruct (r !! keyType); [case_decide|]; by injection Hreg as <-. }
  split; intros Htype; unfold PrimitiveFromKey.
  - by rewrite Htype, lookup_insert_eq.
  - by rewrite lookup_insert_ne.
Qed.

(** X20. A registration fails exactly when the key type is already
    registered with a function of another address, and then the registry
    stays as it is; otherwise the registry afterwards holds the constructor
    for the key type and is unchanged for every other key type. *)
Theorem register_conflict r keyType c :
  ((RegisterPrimitiveConstructor r keyType c).2 <> None <->
   exists existing, r !! keyType = Some existing /\ Pointer existing <> Pointer c)
  /\ ((RegisterPrimitiveConstructor r keyType c).2 <> None ->
      (RegisterPrimitiveConstructor r keyType c).1 = r)
  /\ ((RegisterPrimitiveConstructor r keyType c).2 = None ->
      (RegisterPrimitiveConstructor r keyType c).1 !! keyType = Some c
      /\ forall other, other <> keyType ->
           (RegisterPrimitiveConstructor r keyType c).1 !! other = r !! other).
Proof.
  unfold RegisterPrimitiveConstructor.
  destruct (r !! keyType) as [existing|] eqn:Hlook;
    [destruct (decide (Pointer existing <> Pointer c)) as [Hne|Heq]|]; simpl.
  - split; [split; [eauto|done]|]. split; done.
  - split; [|split; [done|]].
    + split; [done|]. intros (existing' & [= <-] & Hne). done.
    + intros _. split; [apply lookup_insert_eq|].
      intros other Hother. by apply lookup_insert_ne.
  - split; [|split; [done|]].
    + split; [done|]. intros (existing' & [=] & _).
    + intros _. split; [apply lookup_insert_eq|].
      intros other Hother. by apply lookup_insert_ne.
Qed.

(** After the registry is cleared every key takes the fallback: it is
    serialized and the primitive is made from the serialization by the key
    manager; a nil key is an error with any registry. *)
Lemma clear_then_fallback r k :
  PrimitiveFromKey SerializeKey PrimitiveFromKeyData
                   (ClearPrimitiveConstructors r) (Some k)
  = match SerializeKey k with
    | Ok keySerialization => PrimitiveFromKeyData keySerialization
    | Err err => Err err
    | Panic => Panic
    end
  /\ PrimitiveFromKey SerializeKey PrimitiveFromKeyData r None
     = Err "key is nil".
Proof.
  split; [|done]. unfold PrimitiveFromKey, ClearPrimitiveConstructors.
  by rewrite lookup_empty.
Qed.

End Props.

Lemma register_then_construct_witness :
  PrimitiveFromKey (fun _ => Err "no serializer") (fun _ : unit => Ok 0)
    (RegisterPrimitiveConstructor ∅ "*aesgcm.Key" lengthOf).1
    (Some {| TypeOf := "*aesgcm.Key"; value := [Byte.x01; Byte.x02] |})
  = Ok 2.
Proof.
  apply (register_then_construct (fun _ => Err "no serializer")
           (fun _ : unit => Ok 0) ∅ "*aesgcm.Key" lengthOf _
           {| TypeOf := "*aesgcm.Key"; value := [Byte.x01; Byte.x02] |}).
  - vm_compute. reflexivity.
  - reflexivity.
Defined.

End registryconfig_props.


(** ** Properties of the key managers *)

Module keymanager_props.

Import ecies_props.

Section Hpke.

Import hpke.

Context {Encrypt : Type}.
Variable Unmarshal : bytes -> result HpkePublicKey.
Variable ValidateKeyVersion : Z -> Z -> option error.
Variable ValidatePublicKeyLength : HpkePublicKey -> option error.
Variable NewEncrypt : HpkePublicKey -> result Encrypt.

Lemma validateParams_None params :
  validateParams params = None ->
  exists p, params = Some p
    /\ (Kem p = DHKEM_P256_HKDF_SHA256 \/ Kem p = DHKEM_P384_HKDF_SHA384
        \/ Kem p = DHKEM_P521_HKDF_SHA512 \/ Kem p = DHKEM_X25519_HKDF_SHA256)
    /\ (Kdf p = HKDF_SHA256 \/ Kdf p = HKDF_SHA384 \/ Kdf p = HKDF_SHA512)
    /\ (Aead p = AES_128_GCM \/ Aead p = AES_256_GCM
        \/ Aead p = CHACHA20_POLY1305).
Proof.
  destruct params as [[kem kdf aead]|]; [|done]. unfold validateParams. simpl.
  intros Hvalid. exists {| Kem := kem; Kdf := kdf; Aead := aead |}.
  split; [done|]. simpl.
  destruct kem; try done; destruct kdf; try done; destruct aead; try done;
    tauto.
Qed.

(** X21. The HPKE public key manager rejects the empty input, even if it
    would decode, and an input that does not decode, both with
    [errInvalidHPKEPublicKey] and not with the decoder's error. It makes a
    primitive only from a serialized key that is not empty, decodes to a key
    of a valid version and length, and names a supported KEM, KDF and AEAD;
    and for such a key it returns what [hpke.NewEncrypt] returns. *)
Theorem hpke_Primitive_accepts_only :
  Primitive Unmarshal ValidateKeyVersion ValidatePublicKeyLength NewEncrypt []
  = Err errInvalidHPKEPublicKey
  /\ (forall serializedKey err,
        Unmarshal serializedKey = Err err ->
        Primitive Unmarshal ValidateKeyVersion ValidatePublicKeyLength
                  NewEncrypt serializedKey = Err errInvalidHPKEPublicKey)
  /\ (forall serializedKey (p : Encrypt),
        Primitive Unmarshal ValidateKeyVersion ValidatePublicKeyLength
                  NewEncrypt serializedKey = Ok p ->
        serializedKey <> []
        /\ exists key params,
             Unmarshal serializedKey = Ok key
             /\ ValidateKeyVersion (Version key) 0 = None
             /\ ValidatePublicKeyLength key = None
             /\ Params key = Some params
             /\ (Kem params = DHKEM_P256_HKDF_SHA256
                 \/ Kem params = DHKEM_P384_HKDF_SHA384
                 \/ Kem params = DHKEM_P521_HKDF_SHA512
                 \/ Kem params = DHKEM_X25519_HKDF_SHA256)
             /\ (Kdf params = HKDF_SHA256 \/ Kdf params = HKDF_SHA384
                 \/ Kdf params = HKDF_SHA512)
             /\ (Aead params = AES_128_GCM \/ Aead params = AES_256_GCM
                 \/ Aead params = CHACHA20_POLY1305)
             /\ NewEncrypt key = Ok p)
  /\ (forall serializedKey key,
        serializedKey <> [] ->
        Unmarshal serializedKey = Ok key ->
        ValidateKeyVersion (Version key) 0 = None ->
        ValidatePublicKeyLength key = None ->
        validateParams (Params key) = None ->
        Primitive Unmarshal ValidateKeyVersion ValidatePublicKeyLength
                  NewEncrypt serializedKey = NewEncrypt key).
Proof.
  split; [done|]. split; [|split].
  - intros serializedKey err Herr. unfold Primitive. rewrite Herr.
    by destruct (decide (length serializedKey = 0)).
  - intros serializedKey p Hok. split; [by intros ->|].
    unfold Primitive in Hok.
    destruct (decide (length serializedKey = 0)); [done|].
    destruct (Unmarshal serializedKey) as [key| |]; [|done..].
    unfold validatePublicKey, maxSupportedHPKEPublicKeyVersion in Hok.
    destruct (ValidateKeyVersion (Version key) 0) eqn:Hversion; [done|].
    destruct (ValidatePublicKeyLength key) eqn:Hlength; [done|].
    destruct (validateParams (Params key)) eqn:Hparams; [done|].
    apply validateParams_None in Hparams
      as (params & Hsome & Hkem & Hkdf & Haead).
    exists key, params. done.
  - intros serializedKey key Hne Hkey Hversion Hlength Hparams.
    unfold Primitive, validatePublicKey, maxSupportedHPKEPublicKeyVersion.
    rewrite decide_False by (by destruct serializedKey).
    by rewrite Hkey, Hversion, Hlength, Hparams.
Qed.

End Hpke.

(** With a decoder that accepts every input, also the empty one, the
    empty input is rejected and a one-byte input gives the primitive of the
    decoded key. *)
Lemma hpke_Primitive_accepts_only_witness :
  hpke.Primitive hpke.lenientUnmarshal (fun _ _ => None) (fun _ => None)
                 (fun key => Ok (hpke.PublicKey key)) []
  = Err hpke.errInvalidHPKEPublicKey
  /\ [Byte.x0a] <> []
  /\ exists key params,
       hpke.lenientUnmarshal [Byte.x0a] = Ok key
       /\ hpke.Params key = Some params
       /\ hpke.PublicKey key = [Byte.x07].
Proof.
  destruct (hpke_Primitive_accepts_only hpke.lenientUnmarshal
              (fun _ _ => None) (fun _ => None)
              (fun key => Ok (hpke.PublicKey key)))
    as (Hempty & _ & Haccepted & _).
  split; [exact Hempty|].
  destruct (Haccepted [Byte.x0a] [Byte.x07] eq_refl)
    as (Hne & key & params & Hkey & _ & _ & Hparams & _ & _ & _ & Hnew).
  split; [exact Hne|]. exists key, params.
  split; [exact Hkey|]. split; [exact Hparams|]. by injection Hnew.
Defined.

Section Ed25519.

Import ed25519.

Context {Randomness : Type}.
Variable GenerateKey : Randomness -> result (bytes * bytes).
Variable UnmarshalFormat : bytes -> result Ed25519KeyFormat.
Variable ValidateKeyVersion : Z -> Z -> option error.

(** X22. A key that [DeriveKey] returns is the key that [NewKey] makes from
    the same randomness, whatever key format [NewKey] is given; it comes from
    a key format that decodes and has a valid version, which [NewKey] never
    looks at; and [validateKey] accepts it, provided the generator returns
    seeds of 32 bytes and version 0 is valid. *)
Theorem derived_key_is_new_key serializedKeyFormat pseudorandomness key :
  (forall r pub seed, GenerateKey r = Ok (pub, seed) -> length seed = 32) ->
  ValidateKeyVersion 0 0 = None ->
  DeriveKey GenerateKey UnmarshalFormat ValidateKeyVersion
            serializedKeyFormat pseudorandomness = Ok key ->
  (forall anyFormat, NewKey GenerateKey pseudorandomness anyFormat = Ok key)
  /\ (exists keyFormat,
        UnmarshalFormat serializedKeyFormat = Ok keyFormat
        /\ ValidateKeyVersion (FormatVersion keyFormat) 0 = None)
  /\ validateKey ValidateKeyVersion key = None.
Proof.
  intros Hseed Hversion. unfold DeriveKey, NewKey, signerKeyVersion.
  destruct (UnmarshalFormat serializedKeyFormat) as [keyFormat| |]; [|done..].
  destruct (ValidateKeyVersion (FormatVersion keyFormat) 0) eqn:Hformat;
    [done|].
  destruct (GenerateKey pseudorandomness) as [[pub seed]| |] eqn:Hgen;
    [|done..].
  intros [= <-]. split; [done|]. split; [eauto|].
  unfold validateKey, newPrivateKey, SeedSize. simpl.
  unfold signerKeyVersion. rewrite Hversion.
  rewrite decide_False; [done|]. intros Hlen. apply Hlen. eauto.
Qed.

End Ed25519.

Lemma derived_key_is_new_key_witness :
  ed25519.validateKey ed25519.toyValidateKeyVersion
    (ed25519.newPrivateKey (reverse (replicate 32 Byte.x05))
                           (replicate 32 Byte.x05))
  = None.
Proof.
  apply (derived_key_is_new_key ed25519.toyGenerateKey
           (fun _ => Ok {| ed25519.FormatVersion := 0 |})
           ed25519.toyValidateKeyVersion [] (replicate 32 Byte.x05)).
  - intros r pub seed. unfold ed25519.toyGenerateKey.
    case_decide; [|done]. by intros [= _ <-].
  - reflexivity.
  - vm_compute. reflexivity.
Defined.

Section Rsassapss.

Import rsassapss.

Variable ValidateKeyVersion : Z -> Z -> option error.
Variable ValidateRSAPublicKeyParams : commonpb.HashType -> Z -> bytes -> option error.

(** X23. [validateRSAPSSPublicKey] accepts only keys of a valid version
    whose signature hash and MGF1 hash are the same and whose salt length is
    not negative, and judges the modulus by its value: zero bytes in front of
    the modulus change nothing. *)
Theorem validateRSAPSSPublicKey_by_value pubKey n :
  validateRSAPSSPublicKey ValidateKeyVersion ValidateRSAPublicKeyParams
    {| Version := Version pubKey; Params := Params pubKey;
       N := replicate n Byte.x00 ++ N pubKey; E := E pubKey |}
  = validateRSAPSSPublicKey ValidateKeyVersion ValidateRSAPublicKeyParams pubKey
  /\ (validateRSAPSSPublicKey ValidateKeyVersion ValidateRSAPublicKeyParams
        pubKey = None ->
      ValidateKeyVersion (Version pubKey) 0 = None
      /\ GetSigHash (Params pubKey) = GetMgf1Hash (Params pubKey)
      /\ (0 <= GetSaltLength (Params pubKey))%Z
      /\ ValidateRSAPublicKeyParams (GetSigHash (Params pubKey))
                                    (BitLen (N pubKey)) (E pubKey) = None).
Proof.
  split.
  - unfold validateRSAPSSPublicKey, BitLen. simpl.
    by rewrite ecies_props.bigEndian_zeros.
  - unfold validateRSAPSSPublicKey, verifierKeyVersion.
    destruct (ValidateKeyVersion (Version pubKey) 0); [done|].
    destruct (decide (GetSigHash _ <> _)) as [|Hhash]; [done|].
    apply dec_stable in Hhash.
    destruct (decide (GetSaltLength _ < 0)%Z); [done|].
    intros Hparams. split; [done|]. split; [done|]. split; [lia|done].
Qed.

End Rsassapss.

Lemma validateRSAPSSPublicKey_by_value_witness :
  rsassapss.validateRSAPSSPublicKey ed25519.toyValidateKeyVersion
    rsassapss.toyValidateRSA
    {| rsassapss.Version := 0;
       rsassapss.Params := rsassapss.Params rsassapss.toyRSAKey;
       rsassapss.N := replicate 2 Byte.x00 ++ rsassapss.N rsassapss.toyRSAKey;
       rsassapss.E := rsassapss.E rsassapss.toyRSAKey |}
  = rsassapss.validateRSAPSSPublicKey ed25519.toyValidateKeyVersion
      rsassapss.toyValidateRSA rsassapss.toyRSAKey.
Proof.
  exact (proj1 (validateRSAPSSPublicKey_by_value ed25519.toyValidateKeyVersion
                  rsassapss.toyValidateRSA rsassapss.toyRSAKey 2)).
Defined.

Section Ed25519KeyData.

Import keydata ed25519 ed25519_keydata.

Context {Randomness : Type}.
Variable GenerateKey : Randomness -> result (bytes * bytes).
Variable MarshalPrivateKey : Ed25519PrivateKey -> result bytes.
Variable UnmarshalPrivateKey : bytes -> result Ed25519PrivateKey.
Variable MarshalPublicKey : option Ed25519PublicKey -> result bytes.
Variable verifierTypeURL : string.

(** X25. The only error that [PublicKeyData] returns is
    [errInvalidSignKey], whatever the decoder or the encoder reports. The
    key data that [NewKeyData] returns has the type URL of the signer, the
    key material type ASYMMETRIC_PRIVATE and, as value, the encoding of the
    key that was generated. When protobuf decoding inverts encoding,
    [PublicKeyData] makes from that value the key data of the public key
    that was generated with it: version 0, the verifier's type URL and the
    key material type ASYMMETRIC_PUBLIC. *)
Theorem PublicKeyData_of_NewKeyData :
  (forall serializedPrivKey err,
     PublicKeyData UnmarshalPrivateKey MarshalPublicKey verifierTypeURL
                   serializedPrivKey = Err err ->
     err = errInvalidSignKey)
  /\ (forall rand serializedKeyFormat keyData,
        NewKeyData GenerateKey MarshalPrivateKey rand serializedKeyFormat
        = Ok keyData ->
        TypeUrl keyData = signerTypeURL
        /\ KeyMaterialType_ keyData = ASYMMETRIC_PRIVATE
        /\ exists pub seed,
             GenerateKey rand = Ok (pub, seed)
             /\ MarshalPrivateKey (newPrivateKey pub seed)
                = Ok (Value keyData))
  /\ ((forall key b,
         MarshalPrivateKey key = Ok b -> UnmarshalPrivateKey b = Ok key) ->
      forall rand serializedKeyFormat keyData,
        NewKeyData GenerateKey MarshalPrivateKey rand serializedKeyFormat
        = Ok keyData ->
        exists pub seed,
          GenerateKey rand = Ok (pub, seed)
          /\ PublicKeyData UnmarshalPrivateKey MarshalPublicKey
                           verifierTypeURL (Value keyData)
             = match MarshalPublicKey (Some {| PublicVersion := 0;
                                               PublicKeyValue := pub |}) with
               | Ok serializedPubKey =>
                   Ok {| TypeUrl := verifierTypeURL;
                         Value := serializedPubKey;
                         KeyMaterialType_ := ASYMMETRIC_PUBLIC |}
               | Err _ => Err errInvalidSignKey
               | Panic => Panic
               end).
Proof.
  assert (forall rand serializedKeyFormat keyData,
            NewKeyData GenerateKey MarshalPrivateKey rand serializedKeyFormat
            = Ok keyData ->
            TypeUrl keyData = signerTypeURL
            /\ KeyMaterialType_ keyData = ASYMMETRIC_PRIVATE
            /\ exists pub seed,
                 GenerateKey rand = Ok (pub, seed)
                 /\ MarshalPrivateKey (newPrivateKey pub seed)
                    = Ok (Value keyData)) as Hnew.
  { intros rand serializedKeyFormat keyData. unfold NewKeyData, NewKey.
    destruct (GenerateKey rand) as [[pub seed]| |] eqn:Hgen; [|done..].
    destruct (MarshalPrivateKey (newPrivateKey pub seed)) as [b| |] eqn:Hm;
      [|done..].
    intros [= <-]. split; [done|]. split; [done|]. by exists pub, seed. }
  split; [|split; [exact Hnew|]].
  - intros serializedPrivKey err. unfold PublicKeyData.
    destruct (UnmarshalPrivateKey serializedPrivKey) as [privKey| |];
      [|by intros [= <-]|done].
    destruct (MarshalPublicKey (PublicKey privKey)); [done| |done].
    by intros [= <-].
  - intros Hinverse rand serializedKeyFormat keyData Hok.
    destruct (Hnew _ _ _ Hok) as (_ & _ & pub & seed & Hgen & Hm).
    exists pub, seed. split; [done|].
    unfold PublicKeyData. by rewrite (Hinverse _ _ Hm).
Qed.

End Ed25519KeyData.

Lemma toyMarshalPrivateKey_inverted key b :
  ed25519_keydata.toyMarshalPrivateKey key = Ok b ->
  ed25519_keydata.toyUnmarshalPrivateKey b = Ok key.
Proof.
  unfold ed25519_keydata.toyMarshalPrivateKey.
  destruct (ed25519_keydata.toyUnmarshalPrivateKey _) as [decoded| |] eqn:Hd;
    [|done..].
  case_decide; [|done]. intros [= <-]. by subst decoded.
Qed.

Lemma PublicKeyData_of_NewKeyData_witness :
  exists keyData,
    ed25519_keydata.NewKeyData ed25519.toyGenerateKey
      ed25519_keydata.toyMarshalPrivateKey (replicate 32 Byte.x05) []
    = Ok keyData
    /\ ed25519_keydata.PublicKeyData ed25519_keydata.toyUnmarshalPrivateKey
         ed25519_keydata.toyMarshalPublicKey "verifier"
         (keydata.Value keyData)
       = Ok {| keydata.TypeUrl := "verifier";
               keydata.Value := replicate 32 Byte.x05;
               keydata.KeyMaterialType_ := keydata.ASYMMETRIC_PUBLIC |}.
Proof.
  eexists. split; [vm_compute; reflexivity|].
  destruct (PublicKeyData_of_NewKeyData ed25519.toyGenerateKey
              ed25519_keydata.toyMarshalPrivateKey
              ed25519_keydata.toyUnmarshalPrivateKey
              ed25519_keydata.toyMarshalPublicKey "verifier")
    as (_ & _ & Hpublic).
  destruct (Hpublic toyMarshalPrivateKey_inverted (replicate 32 Byte.x05) []
              _ eq_refl) as (pub & seed & Hgen & Hpub).
  etransitivity; [exact Hpub|].
  vm_compute in Hgen. injection Hgen as <- <-. reflexivity.
Defined.

End keymanager_props.
